(** * EaselJS: the frame scheduler, the graphics command buffer, the stage's
    pointer handling and the colour-matrix filter, embedded from the
    JavaScript sources

    Every definition below is a translation of one function of
    [src/utils/Ticker.js], [src/display/Graphics.js], [display/Stage.js]
    or [src/filters/ColorMatrixFilter.js].  JavaScript objects are
    references (natural numbers); the arrays that the code aliases live in
    an explicit store; callbacks are data (what they do to the library) and
    every invocation is recorded in a trace. *)

From Stdlib Require Import ZArith QArith Qround Lqa Lia List Bool String.
From stdpp Require Import base decidable option list strings pretty.
Import ListNotations.

Local Open Scope Z_scope.

(** ** JavaScript numbers as far as the sources need them *)

Module JS.

(** The result of a numeric expression: a finite number (a rational:
    rounding to binary64 is not modelled), an infinity, or NaN. *)
Inductive jsnum : Type :=
| Fin (q : Q)
| PInf
| NInf
| NaN.

(** [a - b] where an operand read out of an array's range is
    [undefined] ([None]): the difference is then NaN. *)
Definition sub_elems (a b : option Z) : jsnum :=
  match a, b with
  | Some x, Some y => Fin (inject_Z (x - y))
  | _, _ => NaN
  end.

(** [a / b] on the values above.  A zero divisor gives an infinity of the
    dividend's sign, and NaN for [0 / 0] (the sign of a zero is not
    modelled: the sources only divide by differences and counts). *)
Definition div (a b : jsnum) : jsnum :=
  match a, b with
  | Fin x, Fin y =>
      if Qeq_bool y 0 then
        (if Qeq_bool x 0 then NaN
         else if Qle_bool 0 x then PInf else NInf)
      else Fin (x / y)
  | Fin _, (PInf | NInf) => Fin 0
  | PInf, Fin y => if Qle_bool 0 y then PInf else NInf
  | NInf, Fin y => if Qle_bool 0 y then NInf else PInf
  | _, _ => NaN
  end.

(** [arr[i] = v] for an index at or beyond the length: the array grows,
    the skipped positions are holes ([None], read as [undefined]). *)
Definition array_set {A} (arr : list (option A)) (i : nat) (v : A)
  : list (option A) :=
  if decide (i < length arr)%nat then <[i := Some v]> arr
  else arr ++ replicate (i - length arr) None ++ [Some v].

(** [arr[i]]: [undefined] out of range and at a hole. *)
Definition array_get {A} (arr : list (option A)) (i : nat) : option A :=
  mjoin (arr !! i).

(** Truthiness of a boolean-or-undefined value. *)
Definition truthy (v : option bool) : bool :=
  match v with Some b => b | None => false end.

End JS.

(** ** Ticker (src/utils/Ticker.js) *)

Module Ticker.
Import JS.

(** What is passed as a listener: [null]/[undefined], or an object. *)
Inductive value : Type :=
| Null
| Obj (id : nat).

#[export] Instance value_eq_dec : EqDecision value.
Proof. solve_decision. Defined.

(** The public calls a tick callback can make on the scheduler. *)
Inductive action : Type :=
| AddListener (o : value) (opt_pauseable : option bool)
| RemoveListener (o : value)
| RemoveAllListeners
| SetPaused (value : bool).

(** The static fields.  [_pauseable] is a reference into [arrays], the
    store of flag arrays: [_tick] keeps a local alias of that array while
    callbacks run, and [removeAllListeners] replaces the field by a fresh
    array.  [_listeners] is only ever read through the field or copied,
    so it is held by value.  [requested] counts the calls of
    [requestAnimFrame]. *)
Record state : Type := mkState {
  _listeners : list value;
  _pauseable : nat;
  arrays : list (list (option bool));
  _paused : bool;
  _inited : bool;
  _startTime : Z;
  _pausedTime : Z;
  _ticks : Z;
  _pausedTickers : Z;
  _lastTime : Z;
  _times : list Z;
  requested : nat
}.

(** The values the file assigns at load time. *)
Definition init : state :=
  {| _listeners := []; _pauseable := 0%nat; arrays := [[]];
     _paused := false; _inited := false; _startTime := 0;
     _pausedTime := 0; _ticks := 0; _pausedTickers := 0;
     _lastTime := 0; _times := []; requested := 0%nat |}.

(** The array [Ticker._pauseable] points to. *)
Definition deref (t : state) (r : nat) : list (option bool) :=
  default [] (arrays t !! r).

Definition set_ticks (n : Z) (t : state) : state :=
  mkState (_listeners t) (_pauseable t) (arrays t) (_paused t) (_inited t)
    (_startTime t) (_pausedTime t) n (_pausedTickers t) (_lastTime t)
    (_times t) (requested t).

Definition set_pausedTickers (n : Z) (t : state) : state :=
  mkState (_listeners t) (_pauseable t) (arrays t) (_paused t) (_inited t)
    (_startTime t) (_pausedTime t) (_ticks t) n (_lastTime t) (_times t)
    (requested t).

Definition set_pausedTime (n : Z) (t : state) : state :=
  mkState (_listeners t) (_pauseable t) (arrays t) (_paused t) (_inited t)
    (_startTime t) n (_ticks t) (_pausedTickers t) (_lastTime t) (_times t)
    (requested t).

Definition set_lastTime (n : Z) (t : state) : state :=
  mkState (_listeners t) (_pauseable t) (arrays t) (_paused t) (_inited t)
    (_startTime t) (_pausedTime t) (_ticks t) (_pausedTickers t) n
    (_times t) (requested t).

Definition set_times (l : list Z) (t : state) : state :=
  mkState (_listeners t) (_pauseable t) (arrays t) (_paused t) (_inited t)
    (_startTime t) (_pausedTime t) (_ticks t) (_pausedTickers t)
    (_lastTime t) l (requested t).

Definition set_inited (b : bool) (t : state) : state :=
  mkState (_listeners t) (_pauseable t) (arrays t) (_paused t) b
    (_startTime t) (_pausedTime t) (_ticks t) (_pausedTickers t)
    (_lastTime t) (_times t) (requested t).

Definition set_listeners (l : list value) (t : state) : state :=
  mkState l (_pauseable t) (arrays t) (_paused t) (_inited t)
    (_startTime t) (_pausedTime t) (_ticks t) (_pausedTickers t)
    (_lastTime t) (_times t) (requested t).

(** In-place update of the array behind a reference. *)
Definition store (r : nat) (a : list (option bool)) (t : state) : state :=
  mkState (_listeners t) (_pauseable t) (<[r := a]> (arrays t))
    (_paused t) (_inited t) (_startTime t) (_pausedTime t) (_ticks t)
    (_pausedTickers t) (_lastTime t) (_times t) (requested t).

(** [Ticker.requestAnimFrame(Ticker._tick)] *)
Definition requestAnimFrame (t : state) : state :=
  mkState (_listeners t) (_pauseable t) (arrays t) (_paused t) (_inited t)
    (_startTime t) (_pausedTime t) (_ticks t) (_pausedTickers t)
    (_lastTime t) (_times t) (S (requested t)).

(** [Array.prototype.indexOf]; [None] is the source's [-1]. *)
Fixpoint indexOf (l : list value) (o : value) : option nat :=
  match l with
  | [] => None
  | x :: l' => if decide (x = o) then Some 0%nat
               else S <$> indexOf l' o
  end.

(** [Ticker.removeListener]: both arrays are spliced in place at the
    index of the first occurrence. *)
Definition removeListener (o : value) (t : state) : state :=
  match indexOf (_listeners t) o with
  | Some index =>
      store (_pauseable t) (delete index (deref t (_pauseable t)))
        (set_listeners (delete index (_listeners t)) t)
  | None => t
  end.

(** [Ticker.addListener]; [opt_pauseable] is [None] when the argument is
    omitted. *)
Definition addListener (o : value) (opt_pauseable : option bool)
    (t : state) : state :=
  let t1 :=
    if _inited t then t
    else requestAnimFrame (set_inited true t) in
  let t2 := removeListener o t1 in
  let t3 :=
    store (_pauseable t2)
      (array_set (deref t2 (_pauseable t2)) (length (_listeners t2))
         (if truthy opt_pauseable then true else false)) t2 in
  set_listeners (_listeners t3 ++ [o]) t3.

(** [Ticker.removeAllListeners]: two fresh arrays; the old flag array
    stays in the store for whoever still holds it. *)
Definition removeAllListeners (t : state) : state :=
  mkState [] (length (arrays t)) (arrays t ++ [[]]) (_paused t)
    (_inited t) (_startTime t) (_pausedTime t) (_ticks t)
    (_pausedTickers t) (_lastTime t) (_times t) (requested t).

Definition setPaused (value : bool) (t : state) : state :=
  mkState (_listeners t) (_pauseable t) (arrays t) value (_inited t)
    (_startTime t) (_pausedTime t) (_ticks t) (_pausedTickers t)
    (_lastTime t) (_times t) (requested t).

Definition getPaused (t : state) : bool := _paused t.

(** [Ticker.getTime]; [now] is what [Ticker._getTime()] returns. *)
Definition getTime (now : Z) (pauseable : bool) (t : state) : Z :=
  now - _startTime t - (if pauseable then _pausedTime t else 0).

(** [Ticker.getTicks] *)
Definition getTicks (pauseable : bool) (t : state) : Z :=
  _ticks t - (if pauseable then _pausedTickers t else 0).

(** [Ticker.getMeasuredFPS]; [ticks] is [None] when omitted. *)
Definition getMeasuredFPS (ticks : option Z) (t : state) : jsnum :=
  if decide (length (_times t) < 2)%nat then Fin (-1)
  else
    let ticks1 := match ticks with
                  | Some n => if decide (n = 0) then 5 else n
                  | None => 5
                  end in
    let ticks2 := Z.min (Z.of_nat (length (_times t)) - 1) ticks1 in
    let at_ (i : Z) : option Z :=
      if decide (0 <= i) then _times t !! Z.to_nat i else None in
    div (Fin 1000)
        (div (sub_elems (at_ 0) (at_ ticks2)) (Fin (inject_Z ticks2))).

Definition run_action (a : action) (t : state) : state :=
  match a with
  | AddListener o p => addListener o p t
  | RemoveListener o => removeListener o t
  | RemoveAllListeners => removeAllListeners t
  | SetPaused b => setPaused b t
  end.

Definition run_actions (l : list action) (t : state) : state :=
  foldl (fun t a => run_action a t) t l.

(** A tick method: given the elapsed time and the scheduler's state when
    it is called, the calls it makes on the scheduler. *)
Definition callback : Type := Z -> state -> list action.

(** One invocation [listener.tick(elapsedTime)]. *)
Definition invocation : Type := (nat * Z)%type.

Section Tick.

(** The tick method of each object, [None] when [o.tick == null]. *)
Variable tickOf : nat -> option callback.

(** The [for] loop of [_tick] from index [i] on, over the rest of the
    snapshot [listeners]; [pauseable] is the local alias of the flag
    array, read through the store at every iteration. *)
Fixpoint tick_loop (paused : bool) (pauseable : nat) (elapsedTime : Z)
    (i : nat) (listeners : list value) (t : state)
    (log : list invocation) : state * list invocation :=
  match listeners with
  | [] => (t, log)
  | listener :: rest =>
      let p := array_get (deref t pauseable) i in
      match listener with
      | Null => tick_loop paused pauseable elapsedTime (S i) rest t log
      | Obj id =>
          if paused && truthy p
          then tick_loop paused pauseable elapsedTime (S i) rest t log
          else
            match tickOf id with
            | None =>
                tick_loop paused pauseable elapsedTime (S i) rest t log
            | Some tick =>
                tick_loop paused pauseable elapsedTime (S i) rest
                  (run_actions (tick elapsedTime t) t)
                  (log ++ [(id, elapsedTime)])
            end
      end
  end.

(** [Ticker._tick], fired at time [now]. *)
Definition _tick (now : Z) (t : state) : state * list invocation :=
  let t1 := set_ticks (_ticks t + 1) (requestAnimFrame t) in
  let time := getTime now false t1 in
  let elapsedTime := time - _lastTime t1 in
  let paused := _paused t1 in
  let t2 :=
    if paused then
      set_pausedTime (_pausedTime t1 + elapsedTime)
        (set_pausedTickers (_pausedTickers t1 + 1) t1)
    else t1 in
  let t3 := set_lastTime time t2 in
  let pauseable := _pauseable t3 in
  let listeners := _listeners t3 in
  let r := tick_loop paused pauseable elapsedTime 0 listeners t3 [] in
  let times1 := time :: _times (fst r) in
  let times2 := if decide (100 < length times1)%nat
                then removelast times1 else times1 in
  (set_times times2 (fst r), snd r).

(** What happens to the scheduler: the platform fires the frame
    callback at some time, or the program makes a call on it. *)
Inductive event : Type :=
| Fire (now : Z)
| Do (a : action).

Definition step (ev : event) (t : state) : state :=
  match ev with
  | Fire now => fst (_tick now t)
  | Do a => run_action a t
  end.

Fixpoint run (evs : list event) (t : state) : state :=
  match evs with
  | [] => t
  | ev :: evs' => run evs' (step ev t)
  end.

(** The number of fires in a run. *)
Fixpoint fires (evs : list event) : Z :=
  match evs with
  | [] => 0
  | Fire _ :: evs' => 1 + fires evs'
  | Do _ :: evs' => fires evs'
  end.

(** The number of fires of a run from [t] that found the scheduler
    paused. *)
Fixpoint pausedFires (evs : list event) (t : state) : Z :=
  match evs with
  | [] => 0
  | ev :: evs' =>
      (match ev with
       | Fire _ => if _paused t then 1 else 0
       | Do _ => 0
       end) + pausedFires evs' (step ev t)
  end.

(** The invocations a paused fire owes to a snapshot of listeners and
    the flags at the same indices: every object that has a tick
    method and whose flag is not [true], in order. *)
Fixpoint owed (elapsedTime : Z) (listeners : list value)
    (flags : list (option bool)) (i : nat) : list invocation :=
  match listeners with
  | [] => []
  | listener :: rest =>
      match listener with
      | Obj id =>
          if truthy (array_get flags i) then []
          else match tickOf id with
               | Some _ => [(id, elapsedTime)]
               | None => []
               end
      | Null => []
      end ++ owed elapsedTime rest flags (S i)
  end.

(** Callbacks that make no call on the listener lists. *)
Definition quiet : Prop :=
  forall id tick e t a,
    tickOf id = Some tick -> In a (tick e t) -> exists b, a = SetPaused b.

End Tick.

(** The fields that no public call writes: only [_tick] does. *)
Record clock : Type := mkClock {
  c_startTime : Z;
  c_pausedTime : Z;
  c_ticks : Z;
  c_pausedTickers : Z;
  c_lastTime : Z;
  c_times : list Z
}.

Definition clockOf (t : state) : clock :=
  mkClock (_startTime t) (_pausedTime t) (_ticks t) (_pausedTickers t)
    (_lastTime t) (_times t).

(** The intervals between consecutive samples of [_times], newest
    first. *)
Fixpoint intervals (times : list Z) : list Z :=
  match times with
  | a :: rest =>
      match rest with
      | b :: _ => (a - b) :: intervals rest
      | [] => []
      end
  | [] => []
  end.

Definition sumZ (l : list Z) : Z := foldr Z.add 0 l.

(** The average of the newest [n] intervals. *)
Definition averageInterval (n : nat) (times : list Z) : Q :=
  inject_Z (sumZ (take n (intervals times))) / inject_Z (Z.of_nat n).

(** The number of intervals measured: the requested count (5 when it is
    omitted or 0), at most the intervals on record. *)
Definition sampleCount (ticks : option Z) (times : list Z) : Z :=
  Z.min (Z.of_nat (length times) - 1)
    (match ticks with
     | Some n => if decide (n = 0) then 5 else n
     | None => 5
     end).

(** The elapsed time a fire at [now] computes. *)
Definition elapsed (now : Z) (t : state) : Z :=
  now - _startTime t - 0 - _lastTime t.

(** The state is one a program can reach: the flag reference is
    allocated and the two lists are as long as each other. *)
Definition parallel (t : state) : Prop :=
  (_pauseable t < length (arrays t))%nat
  /\ length (deref t (_pauseable t)) = length (_listeners t).

(** What every state a program can reach satisfies: parallel lists and
    no object registered twice. *)
Definition wellFormed (t : state) : Prop :=
  parallel t /\ NoDup (_listeners t).

(** [splice(index, 1)] at the first occurrence of [o], on any list that
    goes along with the listeners. *)
Definition without {A} (o : value) (listeners : list value) (l : list A)
  : list A :=
  match indexOf listeners o with
  | Some index => delete index l
  | None => l
  end.

End Ticker.

(** ** Graphics (src/display/Graphics.js) *)

Module Graphics.

(** The number type of the platform and the operations the shape methods
    use.  They are kept abstract: no claim depends on what they compute. *)
Class Platform : Type := {
  num : Type;
  lit : Q -> num;
  PI : num;
  add : num -> num -> num;
  sub : num -> num -> num;
  mul : num -> num -> num;
  quot : num -> num -> num;
  neg : num -> num;
  cos : num -> num;
  sin : num -> num;
  num_eqb : num -> num -> bool
}.

(** The [caps] and [joints] arguments of [setStrokeStyle]: a number or a
    string.  [isNaN] and the conversion to an array index are the
    platform's.  So is what the canvas accepts: [createLinearGradient]
    and [createRadialGradient] raise an exception on an argument that is
    not finite (and on a negative radius), [addColorStop] on an offset that
    is not a finite number from 0 to 1 and on a colour it cannot parse,
    [createPattern] on an image or a repetition it cannot use.  The three
    tests say whether the call returns. *)
Inductive strokeArg `{Platform} : Type :=
| ANum (n : num)
| AStr (s : string).

Class Coercions `{Platform} : Type := {
  isNaN : strokeArg -> bool;
  toIndex : strokeArg -> option nat;
  createsGradient : list num -> bool;
  addsColorStop : num -> string -> bool;
  createsPattern : nat -> string -> bool
}.

Section Buffer.
Context `{C : Coercions}.

(** One colour stop of a gradient: a call [o.addColorStop(ratio, color)]
    that returned. *)
Record colorStop : Type :=
  mkStop { ratio : num; color : string }.

(** Values stored in a command's parameter list.  A gradient is the
    object [createLinearGradient]/[createRadialGradient] returned,
    with the colour stops added to it, in order; a pattern is what
    [createPattern] returned for an image reference. *)
Inductive jsval : Type :=
| VUndefined
| VNum (n : num)
| VStr (s : string)
| VBool (b : bool)
| VLinearGradient (x0 y0 x1 y1 : num) (stops : list colorStop)
| VRadialGradient (x0 y0 r0 x1 y1 r1 : num) (stops : list colorStop)
| VPattern (image : nat) (repetition : string).

(** The function of a command: a method of the 2D context, or the
    buffer's own [_setProp]. *)
Inductive fn : Type :=
| beginPath | fill | stroke
| ctx_moveTo | ctx_lineTo | ctx_arcTo | ctx_arc
| ctx_quadraticCurveTo | ctx_bezierCurveTo | ctx_rect | ctx_closePath
| _setProp.

(** [Graphics.Command] *)
Record Command : Type := mkCommand { f : fn; params : list jsval }.

(** A drawing context as the buffer sees it: the calls made on it. *)
Definition context : Type := list Command.

(** [Graphics.Command.prototype.exec] *)
Definition exec (c : Command) (scope : context) : context :=
  scope ++ [c].

Definition STROKE_CAPS_MAP : list string :=
  ["butt"; "round"; "square"]%string.
Definition STROKE_JOINTS_MAP : list string :=
  ["miter"; "round"; "bevel"]%string.

Definition beginCmd : Command := mkCommand beginPath [].
Definition fillCmd : Command := mkCommand fill [].
Definition strokeCmd : Command := mkCommand stroke [].

(** The instance fields.  The three style fields are [null] or an
    array. *)
Record graphics : Type := mkGraphics {
  _strokeInstructions : option (list Command);
  _strokeStyleInstructions : option (list Command);
  _fillInstructions : option (list Command);
  _instructions : list Command;
  _oldInstructions : list Command;
  _activeInstructions : list Command;
  _active : bool;
  _dirty : bool
}.

(** [a.push.apply(a, b)] for a field that is [null] or an array: the
    guard [if (b)] and the push in one. *)
Definition push_if (a : list Command) (b : option (list Command))
  : list Command :=
  match b with Some l => a ++ l | None => a end.

(** [Graphics.prototype._updateInstructions] *)
Definition _updateInstructions (g : graphics) : graphics :=
  let i1 := _oldInstructions g in
  let i2 := i1 ++ [beginCmd] in
  let i3 := push_if i2 (_fillInstructions g) in
  let i4 :=
    match _strokeInstructions g with
    | Some s => push_if (i3 ++ s) (_strokeStyleInstructions g)
    | None => i3
    end in
  let i5 := i4 ++ _activeInstructions g in
  let i6 := match _fillInstructions g with
            | Some _ => i5 ++ [fillCmd]
            | None => i5
            end in
  let i7 := match _strokeInstructions g with
            | Some _ => i6 ++ [strokeCmd]
            | None => i6
            end in
  mkGraphics (_strokeInstructions g) (_strokeStyleInstructions g)
    (_fillInstructions g) i7 (_oldInstructions g)
    (_activeInstructions g) (_active g) (_dirty g).

(** [Graphics.prototype._newPath] *)
Definition _newPath (g : graphics) : graphics :=
  let g1 := if _dirty g then _updateInstructions g else g in
  mkGraphics (_strokeInstructions g1) (_strokeStyleInstructions g1)
    (_fillInstructions g1) (_instructions g1) (_instructions g1) []
    false false.

(** [Graphics.prototype.draw]: the buffer afterwards and the context
    afterwards. *)
Definition draw (ctx : context) (g : graphics) : graphics * context :=
  let g1 := if _dirty g then _updateInstructions g else g in
  (g1, foldl (fun scope c => exec c scope) ctx (_instructions g1)).

(** [Graphics.prototype.clear] *)
Definition clear (g : graphics) : graphics :=
  mkGraphics None None None [] [] [] false false.

(** [new Graphics()]: the constructor calls [clear] on the new
    object. *)
Definition new : graphics :=
  clear (mkGraphics None None None [] [] [] false false).

(** [this._activeInstructions.push(c1, ..., cn)] *)
Definition push_active (cs : list Command) (g : graphics) : graphics :=
  mkGraphics (_strokeInstructions g) (_strokeStyleInstructions g)
    (_fillInstructions g) (_instructions g) (_oldInstructions g)
    (_activeInstructions g ++ cs) (_active g) (_dirty g).

(** [this._dirty = this._active = true] *)
Definition mark (g : graphics) : graphics :=
  mkGraphics (_strokeInstructions g) (_strokeStyleInstructions g)
    (_fillInstructions g) (_instructions g) (_oldInstructions g)
    (_activeInstructions g) true true.

Definition set_dirty (g : graphics) : graphics :=
  mkGraphics (_strokeInstructions g) (_strokeStyleInstructions g)
    (_fillInstructions g) (_instructions g) (_oldInstructions g)
    (_activeInstructions g) (_active g) true.

Definition set_fill (v : option (list Command)) (g : graphics)
  : graphics :=
  mkGraphics (_strokeInstructions g) (_strokeStyleInstructions g) v
    (_instructions g) (_oldInstructions g) (_activeInstructions g)
    (_active g) (_dirty g).

Definition set_stroke (v : option (list Command)) (g : graphics)
  : graphics :=
  mkGraphics v (_strokeStyleInstructions g) (_fillInstructions g)
    (_instructions g) (_oldInstructions g) (_activeInstructions g)
    (_active g) (_dirty g).

Definition set_strokeStyle (v : option (list Command)) (g : graphics)
  : graphics :=
  mkGraphics (_strokeInstructions g) v (_fillInstructions g)
    (_instructions g) (_oldInstructions g) (_activeInstructions g)
    (_active g) (_dirty g).

Definition cmd (m : fn) (args : list num) : Command :=
  mkCommand m (map VNum args).

(** *** Methods that map to context calls *)

Definition moveTo (x y : num) (g : graphics) : graphics :=
  push_active [cmd ctx_moveTo [x; y]] g.

Definition lineTo (x y : num) (g : graphics) : graphics :=
  push_active [cmd ctx_lineTo [x; y]] (mark g).

Definition arcTo (x1 y1 x2 y2 radius : num) (g : graphics) : graphics :=
  push_active [cmd ctx_arcTo [x1; y1; x2; y2; radius]] (mark g).

Definition arc (x y radius startAngle endAngle : num)
    (anticlockwise : option bool) (g : graphics) : graphics :=
  let anticlockwise := default false anticlockwise in
  push_active
    [mkCommand ctx_arc
       (map VNum [x; y; radius; startAngle; endAngle]
          ++ [VBool anticlockwise])]
    (mark g).

Definition quadraticCurveTo (cpx cpy x y : num) (g : graphics)
  : graphics :=
  push_active [cmd ctx_quadraticCurveTo [cpx; cpy; x; y]] (mark g).

Definition bezierCurveTo (cp1x cp1y cp2x cp2y x y : num) (g : graphics)
  : graphics :=
  push_active [cmd ctx_bezierCurveTo [cp1x; cp1y; cp2x; cp2y; x; y]]
    (mark g).

Definition rect (x y w h : num) (g : graphics) : graphics :=
  push_active [cmd ctx_rect [x; y; w; h]] (mark g).

Definition closePath (g : graphics) : graphics :=
  if _active g
  then push_active [mkCommand ctx_closePath []] (set_dirty g)
  else g.

(** *** Style methods *)

(** Truthiness of a colour argument: [null] and the empty string are
    falsy. *)
Definition color_truthy (color : option string) : option string :=
  match color with
  | Some s => if decide (s = ""%string) then None else Some s
  | None => None
  end.

Definition setProp (name : string) (v : jsval) : Command :=
  mkCommand _setProp [VStr name; v].

(** The guard every style method starts with. *)
Definition cut (g : graphics) : graphics :=
  if _active g then _newPath g else g.

Definition beginFill (color : option string) (g : graphics) : graphics :=
  let g1 := cut g in
  set_fill
    (match color_truthy color with
     | Some c => Some [setProp "fillStyle" (VStr c)]
     | None => None
     end) g1.

(** The loop [o.addColorStop(ratios[i], colors[i])] over the indices of
    [colors], from index [i]: the stops added, or [None] when a call
    raises an exception, which it does when [ratios[i]] is [undefined]
    (there are fewer ratios than colours) and when the platform refuses
    the offset or the colour. *)
Fixpoint colorStops (i : nat) (colors : list string) (ratios : list num)
  : option (list colorStop) :=
  match colors with
  | [] => Some []
  | c :: colors' =>
      match ratios !! i with
      | Some r =>
          if addsColorStop r c
          then match colorStops (S i) colors' ratios with
               | Some stops => Some (mkStop r c :: stops)
               | None => None
               end
          else None
      | None => None
      end
  end.

(** [this._ctx.createLinearGradient(x0, y0, x1, y1)] and the loop over
    the colours: the gradient, or [None] when an exception is raised. *)
Definition linearGradient (colors : list string) (ratios : list num)
    (x0 y0 x1 y1 : num) : option jsval :=
  if createsGradient [x0; y0; x1; y1]
  then match colorStops 0 colors ratios with
       | Some stops => Some (VLinearGradient x0 y0 x1 y1 stops)
       | None => None
       end
  else None.

(** [this._ctx.createRadialGradient(x0, y0, r0, x1, y1, r1)] and the
    loop over the colours. *)
Definition radialGradient (colors : list string) (ratios : list num)
    (x0 y0 r0 x1 y1 r1 : num) : option jsval :=
  if createsGradient [x0; y0; r0; x1; y1; r1]
  then match colorStops 0 colors ratios with
       | Some stops => Some (VRadialGradient x0 y0 r0 x1 y1 r1 stops)
       | None => None
       end
  else None.

(** [repetition = repetition || ''] and
    [this._ctx.createPattern(image, repetition)]: the pattern, or [None]
    when an exception is raised.  The empty string is falsy, as [null]
    is. *)
Definition pattern (image : nat) (repetition : option string)
  : option jsval :=
  let repetition := default ""%string repetition in
  if createsPattern image repetition
  then Some (VPattern image repetition)
  else None.

(** The gradient and pattern methods: when the platform raises an
    exception, it leaves the method at that point, after the guard and
    before the style field is assigned: the buffer stays as the guard
    left it. *)
Definition beginLinearGradientFill (colors : list string)
    (ratios : list num) (x0 y0 x1 y1 : num) (g : graphics) : graphics :=
  let g1 := cut g in
  match linearGradient colors ratios x0 y0 x1 y1 with
  | Some o => set_fill (Some [setProp "fillStyle" o]) g1
  | None => g1
  end.

Definition beginRadialGradientFill (colors : list string)
    (ratios : list num) (x0 y0 r0 x1 y1 r1 : num) (g : graphics)
  : graphics :=
  let g1 := cut g in
  match radialGradient colors ratios x0 y0 r0 x1 y1 r1 with
  | Some o => set_fill (Some [setProp "fillStyle" o]) g1
  | None => g1
  end.

Definition beginBitmapFill (image : nat) (repetition : option string)
    (g : graphics) : graphics :=
  let g1 := cut g in
  match pattern image repetition with
  | Some o => set_fill (Some [setProp "fillStyle" o]) g1
  | None => g1
  end.

Definition endFill (g : graphics) : graphics := beginFill None g.

(** [caps == null ? dflt : (isNaN(caps) ? caps : MAP[caps])] *)
Definition strokeName (a : option strokeArg) (dflt : string)
    (MAP : list string) : jsval :=
  match a with
  | None => VStr dflt
  | Some v =>
      if isNaN v
      then match v with ANum n => VNum n | AStr s => VStr s end
      else match toIndex v with
           | Some i => match MAP !! i with
                       | Some s => VStr s
                       | None => VUndefined
                       end
           | None => VUndefined
           end
  end.

Definition setStrokeStyle (thickness : option num)
    (caps joints : option strokeArg) (miterLimit : option num)
    (g : graphics) : graphics :=
  let g1 := cut g in
  set_strokeStyle
    (Some
       [setProp "lineWidth"
          (match thickness with Some n => VNum n | None => VStr "1" end);
        setProp "lineCap" (strokeName caps "butt" STROKE_CAPS_MAP);
        setProp "lineJoin" (strokeName joints "miter" STROKE_JOINTS_MAP);
        setProp "miterLimit"
          (match miterLimit with Some n => VNum n | None => VStr "10" end)])
    g1.

Definition beginStroke (color : option string) (g : graphics)
  : graphics :=
  let g1 := cut g in
  set_stroke
    (match color_truthy color with
     | Some c => Some [setProp "strokeStyle" (VStr c)]
     | None => None
     end) g1.

Definition beginLinearGradientStroke (colors : list string)
    (ratios : list num) (x0 y0 x1 y1 : num) (g : graphics) : graphics :=
  let g1 := cut g in
  match linearGradient colors ratios x0 y0 x1 y1 with
  | Some o => set_stroke (Some [setProp "strokeStyle" o]) g1
  | None => g1
  end.

Definition beginRadialGradientStroke (colors : list string)
    (ratios : list num) (x0 y0 r0 x1 y1 r1 : num) (g : graphics)
  : graphics :=
  let g1 := cut g in
  match radialGradient colors ratios x0 y0 r0 x1 y1 r1 with
  | Some o => set_stroke (Some [setProp "strokeStyle" o]) g1
  | None => g1
  end.

Definition beginBitmapStroke (image : nat) (repetition : option string)
    (g : graphics) : graphics :=
  let g1 := cut g in
  match pattern image repetition with
  | Some o => set_stroke (Some [setProp "strokeStyle" o]) g1
  | None => g1
  end.

Definition endStroke (g : graphics) : graphics := beginStroke None g.

(** *** Shapes *)

Definition curveTo := quadraticCurveTo.
Definition drawRect := rect.

Definition arcCmd (x y radius startAngle endAngle : num) : Command :=
  mkCommand ctx_arc
    (map VNum [x; y; radius; startAngle; endAngle] ++ [VBool false]).

Definition drawRoundRectComplex
    (x y w h radiusTL radiusTR radiusBR radiusBL : num) (g : graphics)
  : graphics :=
  push_active
    [cmd ctx_moveTo [add x radiusTL; y];
     cmd ctx_lineTo [sub (add x w) radiusTR; y];
     arcCmd (sub (add x w) radiusTR) (add y radiusTR) radiusTR
       (quot (neg PI) (lit 2)) (lit 0);
     cmd ctx_lineTo [add x w; sub (add y h) radiusBR];
     arcCmd (sub (add x w) radiusBR) (sub (add y h) radiusBR) radiusBR
       (lit 0) (quot PI (lit 2));
     cmd ctx_lineTo [add x radiusBL; add y h];
     arcCmd (add x radiusBL) (sub (add y h) radiusBL) radiusBL
       (quot PI (lit 2)) PI;
     cmd ctx_lineTo [x; add y radiusTL];
     arcCmd (add x radiusTL) (add y radiusTL) radiusTL PI
       (quot (mul PI (lit 3)) (lit 2))]
    (mark g).

Definition drawRoundRect (x y w h radius : num) (g : graphics)
  : graphics :=
  drawRoundRectComplex x y w h radius radius radius radius g.

Definition drawCircle (x y radius : num) (g : graphics) : graphics :=
  arc x y radius (lit 0) (mul PI (lit 2)) None g.

Definition drawEllipse (x y w h : num) (g : graphics) : graphics :=
  let k := lit (5522848 # 10000000) in
  let ox := mul (quot w (lit 2)) k in
  let oy := mul (quot h (lit 2)) k in
  let xe := add x w in
  let ye := add y h in
  let xm := add x (quot w (lit 2)) in
  let ym := add y (quot h (lit 2)) in
  push_active
    [cmd ctx_moveTo [x; ym];
     cmd ctx_bezierCurveTo [x; sub ym oy; sub xm ox; y; xm; y];
     cmd ctx_bezierCurveTo [add xm ox; y; xe; sub ym oy; xe; ym];
     cmd ctx_bezierCurveTo [xe; add ym oy; add xm ox; ye; xm; ye];
     cmd ctx_bezierCurveTo [sub xm ox; ye; x; add ym oy; x; ym]]
    (mark g).

(** The loop of [drawPolyStar]: what [sides] iterations push, from the
    current [angle]. *)
Fixpoint polyStarLoop (sides : nat) (x y radius pointSize a angle : num)
  : list Command :=
  match sides with
  | O => []
  | S n =>
      let angle1 := add angle a in
      let inner :=
        if negb (num_eqb pointSize (lit 1))
        then [cmd ctx_lineTo
                [add x (mul (mul (cos angle1) radius) pointSize);
                 add y (mul (mul (sin angle1) radius) pointSize)]]
        else [] in
      let angle2 := add angle1 a in
      inner
        ++ cmd ctx_lineTo [add x (mul (cos angle2) radius);
                           add y (mul (sin angle2) radius)]
        :: polyStarLoop n x y radius pointSize a angle2
  end.

Definition drawPolyStar (x y radius : num) (sides : nat)
    (pointSize angle : option num) (g : graphics) : graphics :=
  let g1 := mark g in
  let pointSize := default (lit 0) pointSize in
  let pointSize := sub (lit 1) pointSize in
  let angle := match angle with
               | None => lit 0
               | Some v => quot v (quot (lit 180) PI)
               end in
  let a := quot PI (lit (inject_Z (Z.of_nat sides))) in
  let g2 :=
    push_active [cmd ctx_moveTo [add x (mul (cos angle) radius);
                                add y (mul (sin angle) radius)]] g1 in
  push_active (polyStarLoop sides x y radius pointSize a angle) g2.

(** [Graphics.prototype.clone]: a new buffer with copies of the lists. *)
Definition clone (g : graphics) : graphics :=
  let o := new in
  let o := mkGraphics (_strokeInstructions o) (_strokeStyleInstructions o)
             (_fillInstructions o) (_instructions g) (_oldInstructions g)
             (_activeInstructions g) (_active o) (_dirty o) in
  let o := match _fillInstructions g with
           | Some l => set_fill (Some l) o
           | None => o
           end in
  let o := match _strokeInstructions g with
           | Some l => set_stroke (Some l) o
           | None => o
           end in
  let o := match _strokeStyleInstructions g with
           | Some l => set_strokeStyle (Some l) o
           | None => o
           end in
  mkGraphics (_strokeInstructions o) (_strokeStyleInstructions o)
    (_fillInstructions o) (_instructions o) (_oldInstructions o)
    (_activeInstructions o) (_active g) (_dirty g).

(** *** The public interface as data *)

(** The methods that set a style (each starts with the guard [cut]). *)
Inductive styleCall : Type :=
| BeginFill (color : option string)
| BeginLinearGradientFill (colors : list string) (ratios : list num)
    (x0 y0 x1 y1 : num)
| BeginRadialGradientFill (colors : list string) (ratios : list num)
    (x0 y0 r0 x1 y1 r1 : num)
| BeginBitmapFill (image : nat) (repetition : option string)
| EndFill
| SetStrokeStyle (thickness : option num) (caps joints : option strokeArg)
    (miterLimit : option num)
| BeginStroke (color : option string)
| BeginLinearGradientStroke (colors : list string) (ratios : list num)
    (x0 y0 x1 y1 : num)
| BeginRadialGradientStroke (colors : list string) (ratios : list num)
    (x0 y0 r0 x1 y1 r1 : num)
| BeginBitmapStroke (image : nat) (repetition : option string)
| EndStroke.

Definition applyStyle (c : styleCall) (g : graphics) : graphics :=
  match c with
  | BeginFill color => beginFill color g
  | BeginLinearGradientFill cs rs x0 y0 x1 y1 =>
      beginLinearGradientFill cs rs x0 y0 x1 y1 g
  | BeginRadialGradientFill cs rs x0 y0 r0 x1 y1 r1 =>
      beginRadialGradientFill cs rs x0 y0 r0 x1 y1 r1 g
  | BeginBitmapFill image repetition => beginBitmapFill image repetition g
  | EndFill => endFill g
  | SetStrokeStyle th caps joints ml => setStrokeStyle th caps joints ml g
  | BeginStroke color => beginStroke color g
  | BeginLinearGradientStroke cs rs x0 y0 x1 y1 =>
      beginLinearGradientStroke cs rs x0 y0 x1 y1 g
  | BeginRadialGradientStroke cs rs x0 y0 r0 x1 y1 r1 =>
      beginRadialGradientStroke cs rs x0 y0 r0 x1 y1 r1 g
  | BeginBitmapStroke image repetition =>
      beginBitmapStroke image repetition g
  | EndStroke => endStroke g
  end.

(** The methods that record geometry. *)
Inductive pathCall : Type :=
| MoveTo (x y : num)
| LineTo (x y : num)
| ArcTo (x1 y1 x2 y2 radius : num)
| Arc (x y radius startAngle endAngle : num) (anticlockwise : option bool)
| QuadraticCurveTo (cpx cpy x y : num)
| BezierCurveTo (cp1x cp1y cp2x cp2y x y : num)
| Rect (x y w h : num)
| ClosePath
| DrawRoundRect (x y w h radius : num)
| DrawRoundRectComplex (x y w h radiusTL radiusTR radiusBR radiusBL : num)
| DrawCircle (x y radius : num)
| DrawEllipse (x y w h : num)
| DrawPolyStar (x y radius : num) (sides : nat)
    (pointSize angle : option num).

Definition applyPath (c : pathCall) (g : graphics) : graphics :=
  match c with
  | MoveTo x y => moveTo x y g
  | LineTo x y => lineTo x y g
  | ArcTo x1 y1 x2 y2 r => arcTo x1 y1 x2 y2 r g
  | Arc x y r sa ea acw => arc x y r sa ea acw g
  | QuadraticCurveTo cpx cpy x y => quadraticCurveTo cpx cpy x y g
  | BezierCurveTo a b c d x y => bezierCurveTo a b c d x y g
  | Rect x y w h => rect x y w h g
  | ClosePath => closePath g
  | DrawRoundRect x y w h r => drawRoundRect x y w h r g
  | DrawRoundRectComplex x y w h a b c d =>
      drawRoundRectComplex x y w h a b c d g
  | DrawCircle x y r => drawCircle x y r g
  | DrawEllipse x y w h => drawEllipse x y w h g
  | DrawPolyStar x y r sides ps angle => drawPolyStar x y r sides ps angle g
  end.

(** Every public method that changes or creates a buffer. *)
Inductive call : Type :=
| Path (c : pathCall)
| Style (c : styleCall)
| Clear
| Draw (ctx : context)
| Clone.

Definition apply (c : call) (g : graphics) : graphics :=
  match c with
  | Path c => applyPath c g
  | Style c => applyStyle c g
  | Clear => clear g
  | Draw ctx => fst (draw ctx g)
  | Clone => clone g
  end.

(** The buffers a program can hold: a new one, after any calls. *)
Inductive reachable : graphics -> Prop :=
| reach_new : reachable new
| reach_call c g : reachable g -> reachable (apply c g).

(** The style-setting instructions a rebuild emits: the fill style, then,
    when a stroke is set, the stroke style and the stroke settings. *)
Definition styleSetting (g : graphics) : list Command :=
  default [] (_fillInstructions g)
    ++ match _strokeInstructions g with
       | Some s => s ++ default [] (_strokeStyleInstructions g)
       | None => []
       end.

(** The instructions a rebuild closes with: a fill when a fill is set,
    then a stroke when a stroke is set. *)
Definition styleExec (g : graphics) : list Command :=
  match _fillInstructions g with Some _ => [fillCmd] | None => [] end
    ++ match _strokeInstructions g with
       | Some _ => [strokeCmd]
       | None => []
       end.

(** The merged list a rebuild leaves: the committed list first, then the
    current subpath between its styles. *)
Definition rebuilt (g : graphics) : list Command :=
  _oldInstructions g ++ [beginCmd] ++ styleSetting g
    ++ _activeInstructions g ++ styleExec g.

(** The three style fields. *)
Definition styles (g : graphics)
  : option (list Command) * option (list Command) * option (list Command) :=
  (_fillInstructions g, _strokeInstructions g, _strokeStyleInstructions g).

(** Whether a style method is left by an exception of the platform. *)
Definition raises (c : styleCall) : bool :=
  match c with
  | BeginLinearGradientFill cs rs x0 y0 x1 y1
  | BeginLinearGradientStroke cs rs x0 y0 x1 y1 =>
      match linearGradient cs rs x0 y0 x1 y1 with
      | Some _ => false
      | None => true
      end
  | BeginRadialGradientFill cs rs x0 y0 r0 x1 y1 r1
  | BeginRadialGradientStroke cs rs x0 y0 r0 x1 y1 r1 =>
      match radialGradient cs rs x0 y0 r0 x1 y1 r1 with
      | Some _ => false
      | None => true
      end
  | BeginBitmapFill image repetition
  | BeginBitmapStroke image repetition =>
      match pattern image repetition with
      | Some _ => false
      | None => true
      end
  | _ => false
  end.

(** The style a style method asks for, as the three style fields (fill,
    stroke, stroke settings) after the call, given the fields before it:
    a fill method replaces the fill, a stroke method the stroke,
    [setStrokeStyle] the stroke settings; a colour that is [null] or
    empty, and [endFill] and [endStroke], take the style away; a call
    that raises an exception asks for nothing. *)
Definition styleOf (c : styleCall)
    (st : option (list Command) * option (list Command)
          * option (list Command))
  : option (list Command) * option (list Command) * option (list Command) :=
  let '(fillStyle, strokeStyle, strokeSettings) := st in
  let withFill (v : option jsval) :=
    match v with
    | Some o => (Some [setProp "fillStyle" o], strokeStyle, strokeSettings)
    | None => st
    end in
  let withStroke (v : option jsval) :=
    match v with
    | Some o => (fillStyle, Some [setProp "strokeStyle" o], strokeSettings)
    | None => st
    end in
  match c with
  | BeginFill color =>
      match color_truthy color with
      | Some s => withFill (Some (VStr s))
      | None => (None, strokeStyle, strokeSettings)
      end
  | BeginLinearGradientFill cs rs x0 y0 x1 y1 =>
      withFill (linearGradient cs rs x0 y0 x1 y1)
  | BeginRadialGradientFill cs rs x0 y0 r0 x1 y1 r1 =>
      withFill (radialGradient cs rs x0 y0 r0 x1 y1 r1)
  | BeginBitmapFill image repetition => withFill (pattern image repetition)
  | EndFill => (None, strokeStyle, strokeSettings)
  | SetStrokeStyle thickness caps joints miterLimit =>
      (fillStyle, strokeStyle,
       Some
         [setProp "lineWidth"
            (match thickness with Some n => VNum n | None => VStr "1" end);
          setProp "lineCap" (strokeName caps "butt" STROKE_CAPS_MAP);
          setProp "lineJoin" (strokeName joints "miter" STROKE_JOINTS_MAP);
          setProp "miterLimit"
            (match miterLimit with
             | Some n => VNum n
             | None => VStr "10"
             end)])
  | BeginStroke color =>
      match color_truthy color with
      | Some s => withStroke (Some (VStr s))
      | None => (fillStyle, None, strokeSettings)
      end
  | BeginLinearGradientStroke cs rs x0 y0 x1 y1 =>
      withStroke (linearGradient cs rs x0 y0 x1 y1)
  | BeginRadialGradientStroke cs rs x0 y0 r0 x1 y1 r1 =>
      withStroke (radialGradient cs rs x0 y0 r0 x1 y1 r1)
  | BeginBitmapStroke image repetition =>
      withStroke (pattern image repetition)
  | EndStroke => (fillStyle, None, strokeSettings)
  end.

(** The subpath is open only on a buffer that is marked dirty. *)
Definition flags_ok (g : graphics) : Prop :=
  _active g = true -> _dirty g = true.

(** The merged list in the order the specification's text gives it:
    begin-path, the fill style, the stroke style and settings, the
    geometry (committed, then active), the fill and the stroke. *)
Definition merged_as_specified (g : graphics) : list Command :=
  [beginCmd]
    ++ default [] (_fillInstructions g)
    ++ default [] (_strokeInstructions g)
    ++ default [] (_strokeStyleInstructions g)
    ++ (_oldInstructions g ++ _activeInstructions g)
    ++ [fillCmd] ++ [strokeCmd].

End Buffer.

End Graphics.

(** ** EaselMouseEvent (src/events/EaselMouseEvent.js) *)

Module EaselMouseEvent.

(** A handler is a function object; only its identity matters here. *)
Definition handler : Type := nat.

(** What an event relates to: the stage ([this]) or a display object. *)
Inductive target : Type :=
| TheStage
| DisplayObject (o : nat).

#[export] Instance target_eq_dec : EqDecision target.
Proof. solve_decision. Defined.

(** The native DOM event, as far as the stage reads it. *)
Record native : Type := mkNative { pageX : Z; pageY : Z }.

(** The fields of an event object.  [onMouseMove] and [onMouseUp] are
    [null] on the prototype; a press handler may assign them. *)
Record t : Type := mk {
  type : string;
  stageX : option Z;
  stageY : option Z;
  target_ : target;
  nativeEvent : native;
  onMouseMove : option handler;
  onMouseUp : option handler
}.

(** [new EaselMouseEvent(type, stageX, stageY, target, nativeEvent)] *)
Definition new (type : string) (stageX stageY : option Z)
    (tg : target) (nativeEvent : native) : t :=
  mk type stageX stageY tg nativeEvent None None.

End EaselMouseEvent.

(** ** Stage (display/Stage.js) *)

Module Stage.
Import EaselMouseEvent.

(** A DOM element as [_updateMousePosition] walks it. *)
#[warnings="-register-all"]
Inductive Element : Type :=
  mkElement (offsetLeft offsetTop : Z) (offsetParent : option Element).

(** The canvas: an element with a size. *)
Record Canvas : Type := mkCanvas {
  element : Element;
  width : Z;
  height : Z
}.

(** An argument of the hit test as the handlers pass it. *)
Inductive arg : Type :=
| ArgNull
| ArgNum (n : Z)
| ArgBool (b : bool).

Definition coord (c : option Z) : arg :=
  match c with Some n => ArgNum n | None => ArgNull end.

(** What a press handler does with the event it is given: the values it
    leaves in the event's [onMouseMove] and [onMouseUp]. *)
Record pressHandler : Type := mkPress {
  press_fn : handler;
  attach : EaselMouseEvent.t -> option handler * option handler
}.

(** The display list when a native event arrives.
    [_getObjectsUnderPoint] is [Container]'s hit test, which is not part
    of the sources at hand: it is a parameter, called with the very
    arguments the handlers pass.  [onPress] and [onClick] are the
    handlers the display objects carry at that moment. *)
Record Scene : Type := mkScene {
  _getObjectsUnderPoint : list arg -> option nat;
  onPress : nat -> option pressHandler;
  onClick : nat -> option handler
}.

(** One handler invocation [h(evt)]. *)
Inductive invocation : Type :=
  Call (h : handler) (evt : EaselMouseEvent.t).

(** The fields of a stage the pointer handlers use.
    [_activeEaselMouseEvent] is the declared property;
    [_activeMouseEvent] is the property [_handleMouseUp] reads and
    writes, which nothing declares (it reads as [undefined] until
    then). *)
Record stage : Type := mkStage {
  canvas : option Canvas;
  mouseX : option Z;
  mouseY : option Z;
  onMouseMove : option handler;
  onMouseUp : option handler;
  onMouseDown : option handler;
  mouseInBounds : bool;
  _activeEaselMouseEvent : option EaselMouseEvent.t;
  _activeMouseEvent : option EaselMouseEvent.t;
  _activeMouseTarget : option nat;
  _mouseOverIntervalID : option nat
}.

(** [new Stage(canvas)] with the prototype's defaults. *)
Definition new (canvas : option Canvas) : stage :=
  mkStage canvas None None None None None false None None None None.

(** The [do ... while (o)] loop of [_updateMousePosition]. *)
Fixpoint offsets (o : Element) (pageX pageY : Z) : Z * Z :=
  match o with
  | mkElement offsetLeft offsetTop offsetParent =>
      let pageX := pageX - offsetLeft in
      let pageY := pageY - offsetTop in
      match offsetParent with
      | Some o' => offsets o' pageX pageY
      | None => (pageX, pageY)
      end
  end.

(** [Stage.prototype._updateMousePosition]; [None] is the [TypeError]
    of reading [offsetLeft] from a [null] canvas. *)
Definition _updateMousePosition (pageX pageY : Z) (s : stage)
  : option stage :=
  match canvas s with
  | None => None
  | Some c =>
      let '(pageX, pageY) := offsets (element c) pageX pageY in
      let inBounds :=
        bool_decide (0 <= pageX) && bool_decide (0 <= pageY)
        && bool_decide (pageX < width c) && bool_decide (pageY < height c) in
      Some
        (if inBounds
         then mkStage (canvas s) (Some pageX) (Some pageY) (onMouseMove s)
                (onMouseUp s) (onMouseDown s) true
                (_activeEaselMouseEvent s) (_activeMouseEvent s)
                (_activeMouseTarget s) (_mouseOverIntervalID s)
         else mkStage (canvas s) (mouseX s) (mouseY s) (onMouseMove s)
                (onMouseUp s) (onMouseDown s) false
                (_activeEaselMouseEvent s) (_activeMouseEvent s)
                (_activeMouseTarget s) (_mouseOverIntervalID s))
  end.

(** [if (h) { h(evt); }] *)
Definition call_if (h : option handler) (evt : EaselMouseEvent.t)
  : list invocation :=
  match h with Some f => [Call f evt] | None => [] end.

(** [(this._mouseOverIntervalID ? 3 : 1)] *)
Definition mode (s : stage) : arg :=
  match _mouseOverIntervalID s with
  | Some _ => ArgNum 3
  | None => ArgNum 1
  end.

(** [Stage.prototype._handleMouseMove] *)
Definition _handleMouseMove (e : native) (s : stage)
  : stage * list invocation :=
  match canvas s with
  | None =>
      (mkStage (canvas s) None None (onMouseMove s) (onMouseUp s)
         (onMouseDown s) (mouseInBounds s) (_activeEaselMouseEvent s)
         (_activeMouseEvent s) (_activeMouseTarget s)
         (_mouseOverIntervalID s), [])
  | Some _ =>
      let inBounds := mouseInBounds s in
      let s1 := default s (_updateMousePosition (pageX e) (pageY e) s) in
      if negb inBounds && negb (mouseInBounds s1) then (s1, [])
      else
        let evt := EaselMouseEvent.new "onMouseMove" (mouseX s1) (mouseY s1)
                     TheStage e in
        (s1,
         call_if (onMouseMove s1) evt
           ++ match _activeEaselMouseEvent s1 with
              | Some a => call_if (EaselMouseEvent.onMouseMove a) evt
              | None => []
              end)
  end.

(** [Stage.prototype._handleMouseUp] *)
Definition _handleMouseUp (sc : Scene) (e : native) (s : stage)
  : stage * list invocation :=
  let evt := EaselMouseEvent.new "onMouseUp" (mouseX s) (mouseY s)
               TheStage e in
  let log1 := call_if (onMouseUp s) evt in
  let log2 :=
    match _activeMouseEvent s with
    | Some a => call_if (EaselMouseEvent.onMouseUp a) evt
    | None => []
    end in
  let log3 :=
    match _activeMouseTarget s with
    | Some tg =>
        match onClick sc tg with
        | Some click =>
            if decide (_getObjectsUnderPoint sc
                         [coord (mouseX s); coord (mouseY s); ArgNull;
                          ArgBool true; mode s] = Some tg)
            then [Call click
                    (EaselMouseEvent.new "onClick" (mouseX s) (mouseY s)
                       (DisplayObject tg) e)]
            else []
        | None => []
        end
    | None => []
    end in
  (mkStage (canvas s) (mouseX s) (mouseY s) (onMouseMove s) (onMouseUp s)
     (onMouseDown s) (mouseInBounds s) (_activeEaselMouseEvent s)
     None None (_mouseOverIntervalID s),
   log1 ++ log2 ++ log3).

(** [Stage.prototype._handleMouseDown] *)
Definition _handleMouseDown (sc : Scene) (e : native) (s : stage)
  : stage * list invocation :=
  let log1 :=
    call_if (onMouseDown s)
      (EaselMouseEvent.new "onMouseDown" (mouseX s) (mouseY s) TheStage e) in
  let target :=
    _getObjectsUnderPoint sc
      [coord (mouseX s); coord (mouseY s); ArgNull; mode s] in
  match target with
  | Some tg =>
      let '(active, log2) :=
        match onPress sc tg with
        | Some h =>
            let evt := EaselMouseEvent.new "onPress" (mouseX s) (mouseY s)
                         (DisplayObject tg) e in
            let '(move, up) := attach h evt in
            let evt' := EaselMouseEvent.mk (type evt) (stageX evt)
                          (stageY evt) (target_ evt) (nativeEvent evt)
                          move up in
            (match move, up with
             | None, None => _activeEaselMouseEvent s
             | _, _ => Some evt'
             end,
             [Call (press_fn h) evt])
        | None => (_activeEaselMouseEvent s, [])
        end in
      (mkStage (canvas s) (mouseX s) (mouseY s) (onMouseMove s)
         (onMouseUp s) (onMouseDown s) (mouseInBounds s) active
         (_activeMouseEvent s) (Some tg) (_mouseOverIntervalID s),
       log1 ++ log2)
  | None => (s, log1)
  end.

(** The native events a stage listens to. *)
Inductive event : Type :=
| MouseDown (sc : Scene) (e : native)
| MouseMove (e : native)
| MouseUp (sc : Scene) (e : native).

Definition handle (ev : event) (s : stage) : stage * list invocation :=
  match ev with
  | MouseDown sc e => _handleMouseDown sc e s
  | MouseMove e => _handleMouseMove e s
  | MouseUp sc e => _handleMouseUp sc e s
  end.

(** A run of native events: the final stage and the whole trace. *)
Fixpoint run (evs : list event) (s : stage) : stage * list invocation :=
  match evs with
  | [] => (s, [])
  | ev :: evs' =>
      let r := handle ev s in
      let r' := run evs' (fst r) in
      (fst r', snd r ++ snd r')
  end.

(** The click events in a trace. *)
Definition is_click (c : invocation) : bool :=
  match c with
  | Call _ evt => bool_decide (type evt = "onClick"%string)
  end.

Definition clicks (log : list invocation) : list invocation :=
  List.filter is_click log.

(** The handlers a trace invokes, in order. *)
Definition handlers (log : list invocation) : list handler :=
  map (fun c => match c with Call h _ => h end) log.

(** The offsets of an element and all its offset parents, added up. *)
Fixpoint totalLeft (o : Element) : Z :=
  match o with
  | mkElement l _ p =>
      l + match p with Some o' => totalLeft o' | None => 0 end
  end.

Fixpoint totalTop (o : Element) : Z :=
  match o with
  | mkElement _ t p =>
      t + match p with Some o' => totalTop o' | None => 0 end
  end.

(** Every field of a stage but the three [_updateMousePosition]
    assigns. *)
Definition others (s : stage) :=
  (canvas s, onMouseMove s, onMouseUp s, onMouseDown s,
   _activeEaselMouseEvent s, _activeMouseEvent s, _activeMouseTarget s,
   _mouseOverIntervalID s).

End Stage.

(** ** ColorMatrixFilter (src/filters/ColorMatrixFilter.js) *)

Module ColorMatrixFilter.

(** The arithmetic of the pixel loop.  [ofByte] reads an element of the
    pixel array as a number, [toByte] is the conversion the pixel array
    applies when an element is assigned, and [nan] is what [undefined]
    (a matrix entry or an element out of range) counts as in a product
    or a sum. *)
Class Arith : Type := {
  num : Type;
  nan : num;
  plus : num -> num -> num;
  times : num -> num -> num;
  ofByte : Z -> num;
  toByte : num -> Z
}.

(** What a call may do instead of returning. *)
Inductive exn : Type :=
| SecurityError
| OtherError (name : string)
| TypeError.

Inductive result (A : Type) : Type :=
| Return (a : A)
| Throw (e : exn).
Arguments Return {A} a.
Arguments Throw {A} e.

Record ImageData : Type := mkImageData {
  data : list Z;
  imgWidth : Z;
  imgHeight : Z
}.

(** One call [putImageData(imageData, dx, dy)] with the arguments as
    passed ([None] is [null]). *)
Record put : Type := mkPut {
  image : ImageData;
  dx : option Z;
  dy : option Z
}.

(** A 2D context: what [getImageData] answers for a source rectangle
    (the pixels, or the exception the platform raises, for instance for
    a canvas tainted by cross-origin content), and the calls of
    [putImageData] made on it so far. *)
Record Context2D : Type := mkContext {
  getImageData : Z -> Z -> Z -> Z -> result ImageData;
  putImageData_calls : list put
}.

(** The contexts of the page, by reference. *)
Definition contexts : Type := list Context2D.

Section Filter.
Context `{A : Arith}.

(** The filter object: [this.matrix], [None] when it was constructed
    without one. *)
Record filter : Type := mkFilter { matrix : option (list num) }.

(** [mtx[i]] in an arithmetic position. *)
Definition entry (mtx : list num) (i : nat) : num :=
  default nan (mtx !! i).

(** [data[i]] in an arithmetic position. *)
Definition channel (d : list Z) (i : nat) : num :=
  match d !! i with Some v => ofByte v | None => nan end.

(** [r * ma + g * mb + b * mc + a * md + me] *)
Definition combine (mtx : list num) (r g b a : num) (k : nat) : num :=
  plus (plus (plus (plus (times r (entry mtx k))
                         (times g (entry mtx (k + 1))))
                   (times b (entry mtx (k + 2))))
             (times a (entry mtx (k + 3))))
       (entry mtx (k + 4)).

(** The body of the pixel loop at index [i].  An assignment past the
    end of the pixel array does nothing. *)
Definition pixel (mtx : list num) (d : list Z) (i : nat) : list Z :=
  let r := channel d i in
  let g := channel d (i + 1) in
  let b := channel d (i + 2) in
  let a := channel d (i + 3) in
  let d := <[i := toByte (combine mtx r g b a 0)]> d in
  let d := <[(i + 1)%nat := toByte (combine mtx r g b a 5)]> d in
  let d := <[(i + 2)%nat := toByte (combine mtx r g b a 10)]> d in
  <[(i + 3)%nat := toByte (combine mtx r g b a 15)]> d.

(** [for (var i = 0; i < l; i += 4)]: the indices visited. *)
Definition indices (l : nat) : list nat :=
  map (fun k => 4 * k)%nat (seq 0 ((l + 3) / 4)).

Definition applyMatrix (mtx : list num) (d : list Z) : list Z :=
  foldl (pixel mtx) d (indices (length d)).

(** [ColorMatrixFilter.prototype.applyFilter].  [targetCtx], [targetX]
    and [targetY] are [None] when omitted.  The two tests
    [if (targetX = null)] and [if (targetY = null)] are assignments:
    they leave [null] in both variables, whatever was passed.  The call
    [ctx.getImageData] is inside the [try]: when [ctx] is no context the
    [TypeError] of the call is caught as any exception of [getImageData]
    is, and false is returned.  The matrix and the target context are
    used outside the [try]. *)
Definition applyFilter (self : filter) (ctx : nat) (x y width height : Z)
    (targetCtx : option nat) (targetX targetY : option Z)
    (cs : contexts) : result bool * contexts :=
  let targetCtx := default ctx targetCtx in
  let targetX : option Z := None in
  let targetY : option Z := None in
  match cs !! ctx with
  | None => (Return false, cs)
  | Some c =>
      match getImageData c x y width height with
      | Throw e => (Return false, cs)
      | Return imageData =>
          match matrix self with
          | None => (Throw TypeError, cs)
          | Some mtx =>
              let data' := applyMatrix mtx (data imageData) in
              let imageData' :=
                mkImageData data' (imgWidth imageData)
                  (imgHeight imageData) in
              match cs !! targetCtx with
              | None => (Throw TypeError, cs)
              | Some tc =>
                  (Return true,
                   <[targetCtx :=
                       mkContext (getImageData tc)
                         (putImageData_calls tc
                            ++ [mkPut imageData' targetX targetY])]> cs)
              end
          end
      end
  end.

(** The four channels of one pixel after the matrix. *)
Definition transform (mtx : list num) (px : Z * Z * Z * Z) : list Z :=
  match px with
  | (r, g, b, a) =>
      let r := ofByte r in
      let g := ofByte g in
      let b := ofByte b in
      let a := ofByte a in
      [toByte (combine mtx r g b a 0); toByte (combine mtx r g b a 5);
       toByte (combine mtx r g b a 10); toByte (combine mtx r g b a 15)]
  end.

(** Pixel data as [ImageData] holds it: four elements per pixel. *)
Definition flatten (pxs : list (Z * Z * Z * Z)) : list Z :=
  flat_map (fun px => match px with (r, g, b, a) => [r; g; b; a] end) pxs.

End Filter.

End ColorMatrixFilter.

(** ** Runs of the scheduler: further vocabulary *)

Module TickerRuns.
Import JS Ticker.

Section Runs.
Variable tickOf : nat -> option callback.

(** The invocations a fire owes to a snapshot of listeners when the
    scheduler is not paused: every object with a tick method, in order. *)
Definition everyone (elapsedTime : Z) (listeners : list value)
  : list invocation :=
  flat_map
    (fun listener =>
       match listener with
       | Obj id => match tickOf id with
                   | Some _ => [(id, elapsedTime)]
                   | None => []
                   end
       | Null => []
       end) listeners.

(** The time that passed in the fires of a run that found the scheduler
    paused. *)
Fixpoint pausedElapsed (evs : list event) (t : state) : Z :=
  match evs with
  | [] => 0
  | ev :: evs' =>
      (match ev with
       | Fire now => if _paused t then elapsed now t else 0
       | Do _ => 0
       end) + pausedElapsed evs' (step tickOf ev t)
  end.


End Runs.

(** The registrations: each listener with the flag at the same index. *)
Definition registrations (t : state) : list (value * option bool) :=
  zip (_listeners t) (deref t (_pauseable t)).

(** The registrations of objects other than [o]. *)
Definition others (o : value) (rs : list (value * option bool))
  : list (value * option bool) :=
  List.filter (fun r => negb (bool_decide (fst r = o))) rs.

(** All the intervals on record are [d]. *)
Definition regular (d : Z) (times : list Z) : Prop :=
  Forall (fun x => x = d) (intervals times).

(** [n] fires, the first at [start], each [d] milliseconds after the one
    before. *)
Definition evenFires (start d : Z) (n : nat) : list event :=
  map (fun k => Fire (start + Z.of_nat k * d)) (seq 0 n).

End TickerRuns.

(** ** Graphics: the colour helpers and further vocabulary *)

Module GraphicsColors.

(** An argument of [getRGB]: omitted, [null], or a number.  Numbers are
    rationals here; how a number prints is the platform's. *)
Inductive arg : Type :=
| Undefined
| Null
| Num (q : Q).

(** The conversion the bit operators apply to an operand: the integer
    part, wrapped into 32 bits, signed. *)
Definition toInt32 (q : Q) : Z :=
  let z := if Qle_bool 0 q then Qfloor q else Qceiling q in
  (z + 2 ^ 31) mod 2 ^ 32 - 2 ^ 31.

(** [a & b] *)
Definition band (a b : Q) : Q := inject_Z (Z.land (toInt32 a) (toInt32 b)).

(** [a >> k] for a literal count [k] *)
Definition shr (a : Q) (k : Z) : Q :=
  inject_Z (Z.shiftr (toInt32 a) (k mod 32)).

Section Show.

(** How the platform prints a number in a string concatenation. *)
Variable show : Q -> string.

Definition str (a : arg) : string :=
  match a with
  | Undefined => "undefined"
  | Null => "null"
  | Num q => show q
  end.

Definition is_null (a : arg) : bool :=
  match a with Num _ => false | _ => true end.

(** [Graphics.getRGB] *)
Definition getRGB (r g b alpha : arg) : string :=
  let '(r, g, b, alpha) :=
    match r with
    | Num rq =>
        if is_null b
        then (Num (band (shr rq 16) 255), Num (band (shr rq 8) 255),
              Num (band rq 255), g)
        else (r, g, b, alpha)
    | _ => (r, g, b, alpha)
    end in
  if is_null alpha
  then ("rgb(" ++ str r ++ "," ++ str g ++ "," ++ str b ++ ")")%string
  else ("rgba(" ++ str r ++ "," ++ str g ++ "," ++ str b ++ ","
          ++ str alpha ++ ")")%string.

(** [hue % 360] on a number: the remainder of the division truncated
    towards zero, which has the sign of [hue]. *)
Definition rem360 (q : Q) : Q :=
  let quotient := (q / 360)%Q in
  (q - 360 * inject_Z (if Qle_bool 0 quotient then Qfloor quotient
                       else Qceiling quotient))%Q.

(** [(hue % 360)] in a string concatenation: [undefined % 360] is NaN and
    [null % 360] is 0. *)
Definition strRem360 (a : arg) : string :=
  match a with
  | Undefined => "NaN"
  | Null => show 0%Q
  | Num q => show (rem360 q)
  end.

(** [Graphics.getHSL] *)
Definition getHSL (hue saturation lightness alpha : arg) : string :=
  if is_null alpha
  then ("hsl(" ++ strRem360 hue ++ "," ++ str saturation ++ "%,"
          ++ str lightness ++ "%)")%string
  else ("hsla(" ++ strRem360 hue ++ "," ++ str saturation ++ "%,"
          ++ str lightness ++ "%," ++ str alpha ++ ")")%string.

End Show.

End GraphicsColors.

Module GraphicsUse.
Import Graphics.

Section Use.
Context `{C : Coercions}.

(** [n] calls of [draw], each on the buffer and the context the call
    before left. *)
Fixpoint drawN (n : nat) (ctx : context) (g : graphics)
  : graphics * context :=
  match n with
  | O => (g, ctx)
  | S n' => drawN n' (snd (draw ctx g)) (fst (draw ctx g))
  end.

(** A list of instructions that is empty or starts with begin-path. *)
Definition startsWithBegin (l : list Command) : Prop :=
  l = [] \/ exists l', l = beginCmd :: l'.

(** The number of line instructions [drawPolyStar] records per side: one
    when the point size, after [1 - pointSize], compares equal to 1, two
    otherwise. *)
Definition linesPerSide (pointSize : option num) : nat :=
  if num_eqb (sub (lit 1) (default (lit 0) pointSize)) (lit 1)
  then 1%nat else 2%nat.

End Use.

End GraphicsUse.

(** ** The demo game (the asteroids example), as far as it uses the above *)

Module Game.
Import Graphics.

(** A position with the fields the bounds checks read. *)
Record body : Type := mkBody { x : Q; y : Q }.

(** The canvas size the game reads. *)
Record canvas : Type := mkCanvas { width : Q; height : Q }.

Definition ltb (a b : Q) : bool := negb (Qle_bool b a).

(** [Game.prototype.outOfBounds] *)
Definition outOfBounds (cv : canvas) (o : body) (bounds : Q) : bool :=
  ltb (x o) (bounds * -2) || ltb (y o) (bounds * -2)
  || ltb (width cv + bounds * 2) (x o)
  || ltb (height cv + bounds * 2) (y o).

(** [Game.prototype.placeInBounds] *)
Definition placeInBounds (cv : canvas) (o : body) (bounds : Q) : body :=
  let o1 :=
    if ltb (width cv + bounds * 2) (x o) then mkBody (bounds * -2) (y o)
    else if ltb (x o) (bounds * -2)
         then mkBody (width cv + bounds * 2) (y o)
         else o in
  if ltb (height cv + bounds * 2) (y o1) then mkBody (x o1) (bounds * -2)
  else if ltb (y o1) (bounds * -2)
       then mkBody (x o1) (height cv + bounds * 2)
       else o1.

Section Bullets.
Context `{C : Coercions}.

Definition BULLET_ENTROPY : num := lit 100.

(** The ship, as far as [fireBullet] reads it. *)
Record ship : Type := mkShip { sx : num; sy : num; srotation : num }.

(** A pooled bullet: a shape with the fields the game adds to it. *)
Record bullet : Type := mkBullet {
  bx : num;
  by_ : num;
  brotation : num;
  entropy : num;
  active : bool;
  bgraphics : graphics
}.

(** [Game.prototype.fireBullet] on the bullet [o] that [getBullet] handed
    out ([getBullet] needs [Shape] and [Container.addChild], which are not
    among the sources: its result is the parameter). *)
Definition fireBullet (s : ship) (o : bullet) : bullet :=
  mkBullet (sx s) (sy s) (srotation s) BULLET_ENTROPY true
    (lineTo (lit 1) (lit 0)
       (moveTo (lit (-1)) (lit 0)
          (beginStroke (Some "#FFFFFF"%string) (bgraphics o)))).

(** What one bullet's stroke replays as. *)
Definition bulletStroke : list Command :=
  [beginCmd; setProp "strokeStyle" (VStr "#FFFFFF");
   cmd ctx_moveTo [lit (-1); lit 0]; cmd ctx_lineTo [lit 1; lit 0];
   strokeCmd].

(** The bullet after [n] shots that reused it. *)
Fixpoint reused (n : nat) (s : ship) (o : bullet) : bullet :=
  match n with
  | O => o
  | S n' => fireBullet s (reused n' s o)
  end.

End Bullets.

End Game.

(** ** Stage: the mouse-over poll, the timer, the display list's root and
    the constructor *)

Module StageMore.
Import EaselMouseEvent Stage.

(** A native event that cannot start a press: no press, or a press whose
    hit test finds nothing. *)
Definition noHit (ev : event) : Prop :=
  match ev with
  | MouseDown sc _ => forall args, _getObjectsUnderPoint sc args = None
  | _ => True
  end.

(** *** [Stage.findStage] *)

(** A display object as [findStage] walks it: whether it is an instance
    of [Stage], and its parent. *)
#[warnings="-register-all"]
Inductive dobject : Type :=
  mkObject (uid : nat) (isStage : bool) (parent : option dobject).

Definition parentOf (o : dobject) : option dobject :=
  match o with mkObject _ _ p => p end.

Definition instanceofStage (o : dobject) : bool :=
  match o with mkObject _ s _ => s end.

(** The loop [while (o.parent) { o = o.parent; }] *)
Fixpoint topmost (o : dobject) : dobject :=
  match o with
  | mkObject _ _ (Some p) => topmost p
  | mkObject _ _ None => o
  end.

(** The chain of parents of an object, the object itself included: what
    [o] can be in the loop of [findStage]. *)
Inductive chain : dobject -> dobject -> Prop :=
| chain_refl o : chain o o
| chain_step o p r : parentOf o = Some p -> chain p r -> chain o r.

(** [Stage.findStage]; [None] is [null]. *)
Definition findStage (displayObject : dobject) : option dobject :=
  let o := topmost displayObject in
  if instanceofStage o then Some o else None.

(** *** [_testMouseOver] *)

(** [_mouseOverX], [_mouseOverY]: NaN, or a value copied from [mouseX],
    [mouseY] (a number or [null]). *)
Inductive overCoord : Type :=
| NaN
| Val (v : option Z).

(** The three fields of a stage that only the mouse-over code uses. *)
Record overFields : Type := mkOver {
  _mouseOverX : overCoord;
  _mouseOverY : overCoord;
  _mouseOverTarget : option nat
}.

(** The prototype's values. *)
Definition overInit : overFields := mkOver (Val (Some 0)) (Val (Some 0)) None.

(** [mouse == over]: NaN equals nothing, [null] equals [null] only. *)
Definition sameCoord (mouse : option Z) (over : overCoord) : bool :=
  match over with
  | NaN => false
  | Val v => bool_decide (mouse = v)
  end.

(** The display list when the poll runs: the hit test, called with the
    arguments [_testMouseOver] passes, and the over and out handlers of
    the display objects. *)
Record OverScene : Type := mkOverScene {
  hitTest : list arg -> option nat;
  onMouseOut : nat -> option handler;
  onMouseOver : nat -> option handler
}.

(** An invocation [h(new EaselMouseEvent(type, x, y, target))]: these
    events carry no native event. *)
Inductive overInvocation : Type :=
  CallOver (h : handler) (type : string) (stageX stageY : option Z)
    (target : nat).

(** [Stage.prototype._testMouseOver] *)
Definition _testMouseOver (sc : OverScene) (s : stage) (o : overFields)
  : overFields * list overInvocation :=
  if sameCoord (mouseX s) (_mouseOverX o)
     && sameCoord (mouseY s) (_mouseOverY o) && mouseInBounds s
  then (o, [])
  else
    let '(target, o1) :=
      if mouseInBounds s
      then (hitTest sc [coord (mouseX s); coord (mouseY s); ArgNull; ArgNum 3],
            mkOver (Val (mouseX s)) (Val (mouseY s)) (_mouseOverTarget o))
      else (None, o) in
    if decide (_mouseOverTarget o1 = target) then (o1, [])
    else
      let out :=
        match _mouseOverTarget o1 with
        | Some old =>
            match onMouseOut sc old with
            | Some h => [CallOver h "onMouseOut" (mouseX s) (mouseY s) old]
            | None => []
            end
        | None => []
        end in
      let over :=
        match target with
        | Some tg =>
            match onMouseOver sc tg with
            | Some h => [CallOver h "onMouseOver" (mouseX s) (mouseY s) tg]
            | None => []
            end
        | None => []
        end in
      (mkOver (_mouseOverX o1) (_mouseOverY o1) target, out ++ over).

(** *** [enableMouseOver] *)

(** The platform's interval timers: the running ones, each with its period
    in milliseconds, and the identifier the next one gets. *)
Record timers : Type := mkTimers {
  running : list (nat * Q);
  nextId : nat
}.

Definition setInterval (period : Q) (tm : timers) : nat * timers :=
  (nextId tm, mkTimers (running tm ++ [(nextId tm, period)]) (S (nextId tm))).

Definition clearInterval (id : nat) (tm : timers) : timers :=
  mkTimers (List.filter (fun r => negb (Nat.eqb (fst r) id)) (running tm))
    (nextId tm).

(** [Math.min(50, frequency)] *)
Definition min50 (frequency : Q) : Q :=
  if Qle_bool 50 frequency then 50 else frequency.

Definition set_intervalID (id : option nat) (s : stage) : stage :=
  mkStage (canvas s) (mouseX s) (mouseY s) (Stage.onMouseMove s)
    (Stage.onMouseUp s) (onMouseDown s) (mouseInBounds s)
    (_activeEaselMouseEvent s) (_activeMouseEvent s) (_activeMouseTarget s)
    id.

(** [Stage.prototype.enableMouseOver]: the stage, its mouse-over fields
    and the timers afterwards.  An identifier is truthy unless it is 0. *)
Definition enableMouseOver (frequency : Q)
    (st : stage * overFields * timers) : stage * overFields * timers :=
  let '(s, o, tm) := st in
  let '(s1, tm1) :=
    match _mouseOverIntervalID s with
    | Some (S id) => (set_intervalID None s, clearInterval (S id) tm)
    | _ => (s, tm)
    end in
  if Qle_bool frequency 0 then (s1, o, tm1)
  else
    let '(id, tm2) := setInterval (1000 / min50 frequency) tm1 in
    (set_intervalID (Some id) s1,
     mkOver NaN (_mouseOverY o) None, tm2).

(** The timer a stage holds is the only one running, was handed out
    by the platform, and polls at most 50 times a second. *)
Definition oneTimer (st : stage * overFields * timers) : Prop :=
  let '(s, _, tm) := st in
  (1 <= nextId tm)%nat
  /\ match _mouseOverIntervalID s with
     | Some id =>
         (1 <= id < nextId tm)%nat
         /\ exists period, running tm = [(id, period)] /\ (20 <= period)%Q
     | None => running tm = []
     end.

(** *** The constructor *)

(** The listeners registered on the window and on the canvas. *)
Record listeners : Type := mkListeners {
  onWindow : list string;
  onCanvas : list string
}.

(** [new Stage(canvas)]: the constructor stores the canvas and calls
    [_enableMouseEvents], which registers three listeners on the window and
    then one on the canvas; on a [null] canvas that last call is a
    [TypeError]. *)
Definition construct (canvas : option Canvas) (l : listeners)
  : ColorMatrixFilter.result stage * listeners :=
  let l1 := mkListeners
              (onWindow l ++ ["mouseup"; "mousemove"; "dblclick"]%string)
              (onCanvas l) in
  match canvas with
  | None => (ColorMatrixFilter.Throw ColorMatrixFilter.TypeError, l1)
  | Some c =>
      (ColorMatrixFilter.Return (Stage.new canvas),
       mkListeners (onWindow l1) (onCanvas l1 ++ ["mousedown"%string]))
  end.

(** [Stage.prototype.clone]: [new Stage(null)], then [cloneProps]
    ([cloneProps] is [Container]'s and is not among the sources; it is
    the parameter [cloneProps]). *)
Definition clone (cloneProps : stage -> stage -> stage) (s : stage)
    (l : listeners) : ColorMatrixFilter.result stage * listeners :=
  match construct None l with
  | (ColorMatrixFilter.Return o, l') =>
      (ColorMatrixFilter.Return (cloneProps s o), l')
  | (ColorMatrixFilter.Throw e, l') => (ColorMatrixFilter.Throw e, l')
  end.

(** [n] calls of [clone] one after the other, each caller catching what
    is thrown: the outcomes, and the listeners afterwards. *)
Fixpoint clones (cloneProps : stage -> stage -> stage) (s : stage)
    (n : nat) (l : listeners)
  : list (ColorMatrixFilter.result stage) * listeners :=
  match n with
  | O => ([], l)
  | S n' =>
      let '(r, l1) := clone cloneProps s l in
      let '(rs, l2) := clones cloneProps s n' l1 in
      (r :: rs, l2)
  end.

End StageMore.

(** ** DisplayText (display/DisplayText.js) *)

Module DisplayText.

(** The text to display, as its UTF-16 code units: [draw] splits it.
    The strings that the code only passes on are kept as they are. *)
Definition text : Type := list N.

Definition CR : N := 13.
Definition LF : N := 10.

(** A string literal as code units. *)
Definition lit (s : string) : text :=
  map Ascii.N_of_ascii (list_ascii_of_string s).

(** The platform: its numbers with [+], [<] and [* 1.2], the class [\s]
    of its regular expressions, and the width [measureText] answers on
    the context [draw] is given (once [draw] has set the font) and on
    the working context of [getMeasuredLineHeight]. *)
Class Metrics : Type := {
  num : Type;
  zero : num;
  add : num -> num -> num;
  lt : num -> num -> bool;
  times1_2 : num -> num;
  isSpace : N -> bool;
  measureText : text -> num;
  workingMeasureText : text -> num
}.

Section Text.
Context `{M : Metrics}.

(** The calls [draw] makes on the context. *)
Inductive op : Type :=
| SetStrokeStyle (color : string)
| SetFillStyle (color : string)
| SetFont (font : option string)
| SetTextAlign (align : string)
| SetTextBaseline (baseline : string)
| StrokeText (t : text) (x y : num) (maxWidth : option num)
| FillText (t : text) (x y : num) (maxWidth : option num).

Definition context : Type := list op.

Record displayText : Type := mkText {
  text_ : text;
  font : option string;
  color : string;
  textAlign : option string;
  textBaseline : option string;
  maxWidth : option num;
  outline : bool;
  lineHeight : option num;
  lineWidth : option num
}.

(** [new DisplayText(text, font, color)]; the other fields are the
    prototype's. *)
Definition new (t : text) (font : option string) (color : option string)
  : displayText :=
  mkText t font
    (match color with
     | Some c => if String.eqb c "" then "#000"%string else c
     | None => "#000"%string
     end)
    None None None false None None.

(** [s.split(/(?:\r\n|\r|\n)/)] *)
Definition cons_head (c : N) (ls : list text) : list text :=
  match ls with
  | l :: ls' => (c :: l) :: ls'
  | [] => [[c]]
  end.

Fixpoint splitLines (t : text) : list text :=
  match t with
  | [] => [[]]
  | c :: t' =>
      if N.eqb c CR
      then match t' with
           | c' :: t'' =>
               if N.eqb c' LF then [] :: splitLines t''
               else [] :: splitLines t'
           | [] => [] :: splitLines t'
           end
      else if N.eqb c LF then [] :: splitLines t'
      else cons_head c (splitLines t')
  end.

(** [s.split(/(\s)/)]: the array has an odd length, a word followed by
    separator and word pairs; it is kept as the first word and the
    pairs. *)
Fixpoint splitWords (t : text) : text * list (N * text) :=
  match t with
  | [] => ([], [])
  | c :: t' =>
      let '(w, rest) := splitWords t' in
      if isSpace c then ([], (c, w) :: rest) else (c :: w, rest)
  end.

(** [DisplayText.prototype._drawTextLine] *)
Definition _drawTextLine (self : displayText) (ctx : context) (t : text)
    (y : num) : context :=
  if outline self then ctx ++ [StrokeText t zero y (maxWidth self)]
  else ctx ++ [FillText t zero y (maxWidth self)].

(** [DisplayText.prototype.getMeasuredLineHeight] *)
Definition getMeasuredLineHeight (self : displayText) : num :=
  times1_2 (workingMeasureText (lit "M")).

(** One round of the loop over [words], at the pair [words[j]],
    [words[j + 1]]; the state is the context, [y] and [str]. *)
Definition wrapWord (self : displayText) (lh lw : num)
    (st : context * num * text) (p : N * text) : context * num * text :=
  let '(ctx, y, str) := st in
  let '(sep, word) := p in
  if lt lw (measureText (str ++ [sep] ++ word))
  then (_drawTextLine self ctx str y, add y lh, word)
  else (ctx, y, str ++ [sep] ++ word).

(** One round of the loop over [lines]; the state is the context and
    [y]. *)
Definition drawLine (self : displayText) (lh : num) (st : context * num)
    (line : text) : context * num :=
  let '(ctx, y) := st in
  let w := measureText line in
  let whole := (_drawTextLine self ctx line y, add y lh) in
  match lineWidth self with
  | None => whole
  | Some lw =>
      if lt w lw then whole
      else
        let '(first, pairs) := splitWords line in
        let '(ctx, y, str) :=
          foldl (wrapWord self lh lw) (ctx, y, first) pairs in
        (_drawTextLine self ctx str y, add y lh)
  end.

(** A string that is [null] or empty counts as false. *)
Definition orElse (s : option string) (d : string) : string :=
  match s with
  | Some v => if String.eqb v "" then d else v
  | None => d
  end.

(** [DisplayText.prototype.draw].  [DisplayObject_draw] is
    [DisplayObject]'s (it draws the cache, if there is one, and says
    whether it did); it is not among the sources and is a parameter. *)
Definition draw
    (DisplayObject_draw : displayText -> context -> bool -> context * bool)
    (self : displayText) (ctx : context) (ignoreCache : bool)
  : context * bool :=
  let '(ctx, handled) := DisplayObject_draw self ctx ignoreCache in
  if handled then (ctx, true)
  else
    let ctx :=
      ctx ++ [if outline self then SetStrokeStyle (color self)
              else SetFillStyle (color self)] in
    let ctx := ctx ++ [SetFont (font self)] in
    let ctx := ctx ++ [SetTextAlign (orElse (textAlign self) "start")] in
    let ctx :=
      ctx ++ [SetTextBaseline (orElse (textBaseline self) "alphabetic")] in
    let lines := splitLines (text_ self) in
    let lineHeight :=
      match lineHeight self with
      | None => getMeasuredLineHeight self
      | Some h => h
      end in
    (fst (foldl (drawLine self lineHeight) (ctx, zero) lines), true).

(** [DisplayText.prototype.toString] *)
Definition toString (self : displayText) : text :=
  lit "[DisplayText (text="
  ++ (if (20 <? length (text_ self))%nat
      then take 17 (text_ self) ++ lit "..."
      else text_ self)
  ++ lit ")]".

(** The texts a context was asked to draw, each with its [y]. *)
Definition drawn (o : op) : option (text * num) :=
  match o with
  | StrokeText t _ y _ | FillText t _ y _ => Some (t, y)
  | _ => None
  end.

Definition texts (ctx : context) : list (text * num) := omap drawn ctx.

(** [y] after [n] additions of the line height to 0. *)
Definition row (lh : num) (n : nat) : num :=
  Nat.iter n (fun y => add y lh) zero.

Definition isBreak (c : N) : bool := N.eqb c CR || N.eqb c LF.

Definition visible (t : text) : text :=
  List.filter (fun c => negb (isSpace c)) t.

(** The texts drawn so far, after those of [T], are [strs], one per
    row from the top, and [y] is the next row. *)
Definition onRows (lh : num) (T : list (text * num)) (strs : list text)
    (st : context * num) : Prop :=
  texts (fst st) = T ++ zip strs (map (row lh) (seq 0 (length strs)))
  /\ snd st = row lh (length strs).

(** What [draw] may put on one row, given a [lineWidth]: a text
    narrower than it, a text not wider than it, or a single word. *)
Definition fits (lw : num) (s : text) : Prop :=
  lt (measureText s) lw = true
  \/ lt lw (measureText s) = false
  \/ Forall (fun c => isSpace c = false) s.

End Text.

End DisplayText.

(** ** Concrete programs used by the examples *)

Module Scenario.

Section Scheduler.
Import Ticker.

(** Object 1 is a one-shot listener: its tick method removes it from
    the scheduler.  Object 2 has a tick method that makes no call.
    Nothing else has a tick method. *)
Definition oneShot (id : nat) : option callback :=
  match id with
  | 1%nat => Some (fun _ _ => [RemoveListener (Obj 1)])
  | 2%nat => Some (fun _ _ => [])
  | _ => None
  end.

(** [addListener(o1, false); addListener(o2, true); setPaused(true)] *)
Definition pausedPair : state :=
  setPaused true
    (addListener (Obj 2) (Some true)
       (addListener (Obj 1) (Some false) init)).

(** A listener is registered, the callback fires once, the program
    pauses the scheduler for two fires and resumes it for one more. *)
Definition pausedTwice : list event :=
  [Do (AddListener (Obj 2) (Some true)); Fire 1000;
   Do (SetPaused true); Fire 1016; Fire 1032;
   Do (SetPaused false); Fire 1048].

(** Timestamps 16 ms apart, newest first, as four fires leave them. *)
Definition fourFrames : state :=
  run oneShot [Fire 1000; Fire 1016; Fire 1032; Fire 1048] init.

End Scheduler.

Section Drawing.
Import Graphics.

(** Integers stand in for the platform's numbers; none of the examples
    calls a shape method that uses the trigonometric operations. *)
#[export] Instance intPlatform : Platform := {|
  num := Z;
  lit q := (Qnum q / Zpos (Qden q))%Z;
  PI := 3;
  add := Z.add;
  sub := Z.sub;
  mul := Z.mul;
  quot := Z.div;
  neg := Z.opp;
  cos _ := 1;
  sin _ := 0;
  num_eqb := Z.eqb
|}.

#[export] Instance intCoercions : Coercions := {|
  isNaN a := match a with ANum _ => false | AStr _ => true end;
  toIndex a := match a with
               | ANum n => if decide (0 <= n) then Some (Z.to_nat n) else None
               | AStr _ => None
               end;
  createsGradient args :=
    match args with
    | [_; _; r0; _; _; r1] => (0 <=? r0) && (0 <=? r1)
    | _ => true
    end;
  addsColorStop r c :=
    (0 <=? r) && (r <=? 1) && negb (String.eqb c "");
  createsPattern _ repetition :=
    bool_decide (repetition ∈ [""; "repeat"; "repeat-x"; "repeat-y";
                                "no-repeat"]%string)
|}.

(** [new Graphics().lineTo(1, 2)]: one open subpath. *)
Definition openPath : graphics := lineTo 1 2 new.

(** Stroke settings and no stroke, then one line:
    [new Graphics().setStrokeStyle(2).lineTo(1, 2)] *)
Definition settingsOnly : graphics :=
  lineTo 1 2 (setStrokeStyle (Some 2) None None None new).

(** A committed subpath, then a fill, a stroke and a second subpath:
    [lineTo(1,2).beginFill("red").setStrokeStyle(2, 1)
       .beginStroke("blue").lineTo(5, 6)] *)
Definition twoSubpaths : graphics :=
  lineTo 5 6
    (beginStroke (Some "blue"%string)
       (setStrokeStyle (Some 2) (Some (ANum 1)) None None
          (beginFill (Some "red"%string) (lineTo 1 2 new)))).

End Drawing.

Section Pointer.
Import EaselMouseEvent Stage.

(** A 100 by 100 canvas at the page's origin. *)
Definition plainCanvas : Canvas := mkCanvas (mkElement 0 0 None) 100 100.

(** Object 1 is under the pointer.  Its press handler (10) assigns the
    handlers 11 and 12 to the event's [onMouseMove] and [onMouseUp]; it
    has no click handler. *)
Definition dragScene : Scene :=
  mkScene (fun _ => Some 1%nat)
    (fun o => match o with
              | 1%nat => Some (mkPress 10%nat
                                 (fun _ => (Some 11%nat, Some 12%nat)))
              | _ => None
              end)
    (fun _ => None).

(** Object 1 is under the pointer; it has the click handler 20 and no
    press handler. *)
Definition clickScene : Scene :=
  mkScene (fun _ => Some 1%nat) (fun _ => None)
    (fun o => match o with 1%nat => Some 20%nat | _ => None end).

(** Object 2 is under the pointer; it has no handler at all. *)
Definition idleScene : Scene :=
  mkScene (fun _ => Some 2%nat) (fun _ => None) (fun _ => None).

(** The pointer enters the canvas; a press on object 1, a move and the
    release. *)
Definition firstCycle : list event :=
  [MouseMove (mkNative 10 10); MouseDown dragScene (mkNative 10 10);
   MouseMove (mkNative 20 20); MouseUp dragScene (mkNative 20 20)].

(** A move with no button down, then a press on object 2, a move and the
    release. *)
Definition secondCycle : list event :=
  [MouseMove (mkNative 30 30); MouseDown idleScene (mkNative 30 30);
   MouseMove (mkNative 40 40); MouseUp idleScene (mkNative 40 40)].

End Pointer.

Section Pixels.
Import ColorMatrixFilter.

(** Integer arithmetic with the clamp of a pixel array. *)
#[export] Instance intArith : Arith := {|
  num := Z;
  nan := 0;
  plus := Z.add;
  times := Z.mul;
  ofByte z := z;
  toByte z := Z.max 0 (Z.min 255 z)
|}.

(** The identity matrix with an offset of 10 on the red channel. *)
Definition redder : list Z :=
  [1; 0; 0; 0; 10;  0; 1; 0; 0; 0;  0; 0; 1; 0; 0;  0; 0; 0; 1; 0].

(** Context 0 holds two readable pixels; context 1 refuses to be read. *)
Definition page : contexts :=
  [mkContext
     (fun _ _ w h => Return (mkImageData [1; 2; 3; 4; 5; 6; 7; 8] w h)) [];
   mkContext (fun _ _ _ _ => Throw SecurityError) []].

End Pixels.

Section Colours.

(** A platform that prints a number as its fraction in lowest terms, an
    integer without the denominator. *)
Definition showQ (q : Q) : string :=
  let r := Qred q in
  if Pos.eqb (Qden r) 1 then pretty (Qnum r)
  else (pretty (Qnum r) ++ "/" ++ pretty (Zpos (Qden r)))%string.

End Colours.

Section Registrations.
Import Ticker.

(** [addListener(o1, false); addListener(o2, true)] *)
Definition runningPair : state :=
  addListener (Obj 2) (Some true) (addListener (Obj 1) (Some false) init).

End Registrations.

Section Firing.
Import Graphics Game.

(** A ship at the origin and a bullet fresh from the pool. *)
Definition restingShip : ship := mkShip 0 0 0.

Definition freshBullet : bullet := mkBullet 0 0 0 0 false new.

End Firing.

Section Hovering.
Import EaselMouseEvent Stage StageMore.

(** Nothing is under the pointer; every object has the mouse-out
    handler 7 and no mouse-over handler. *)
Definition emptyScene : OverScene :=
  mkOverScene (fun _ => None) (fun _ => Some 7%nat) (fun _ => None).

(** A shape whose parent is a stage. *)
Definition theRoot : dobject := mkObject 1 true None.

Definition aChild : dobject := mkObject 2 false (Some theRoot).

End Hovering.

Section Words.
Import DisplayText.

(** A monospaced font, 10 units a character; white space is the space
    and the tab. *)
#[export] Instance monospace : Metrics := {|
  num := Z;
  zero := 0;
  add := Z.add;
  lt := Z.ltb;
  times1_2 z := (z * 12 / 10)%Z;
  isSpace c := N.eqb c 32 || N.eqb c 9;
  measureText t := (10 * Z.of_nat (length t))%Z;
  workingMeasureText t := (10 * Z.of_nat (length t))%Z
|}.

(** A display object without a cache. *)
Definition noCache (self : displayText) (ctx : context) (ignoreCache : bool)
  : context * bool := (ctx, false).

(** Two lines of text, unwrapped. *)
Definition twoLines : displayText :=
  new (lit "ab cd" ++ [LF] ++ lit "ef") (Some "10px Arial"%string) None.

(** The same, wrapped at 40 units. *)
Definition narrow : displayText :=
  mkText (text_ twoLines) (font twoLines) (color twoLines) None None None
    false None (Some 40%Z).

End Words.

End Scenario.

(** * Properties of the scheduler *)

Section TickerFacts.
Import JS Ticker.

Variable tickOf : nat -> option callback.

(** ** The counters *)

Lemma removeListener_clock o t : clockOf (removeListener o t) = clockOf t.
Proof. unfold removeListener. destruct (indexOf _ _); reflexivity. Qed.

Lemma addListener_clock o p t : clockOf (addListener o p t) = clockOf t.
Proof.
  unfold addListener.
  match goal with |- clockOf (set_listeners _ (store _ _ ?t2)) = _ =>
    change (clockOf t2 = clockOf t) end.
  rewrite removeListener_clock. destruct (_inited t); reflexivity.
Qed.

Lemma run_action_clock a t : clockOf (run_action a t) = clockOf t.
Proof.
  destruct a as [o p|o| |b]; simpl;
    auto using removeListener_clock, addListener_clock.
Qed.

Lemma run_actions_clock l t : clockOf (run_actions l t) = clockOf t.
Proof.
  revert t. induction l as [|a l IH]; intros t; [reflexivity|].
  unfold run_actions in *. simpl. rewrite IH. apply run_action_clock.
Qed.

Lemma tick_loop_clock paused r e i ls t log :
  clockOf (fst (tick_loop tickOf paused r e i ls t log)) = clockOf t.
Proof.
  revert i t log.
  induction ls as [|[|id] ls IH]; intros i t log; simpl; auto.
  destruct (paused && _); auto.
  destruct (tickOf id); auto.
  rewrite IH. apply run_actions_clock.
Qed.

Lemma _tick_clock now t :
  clockOf (fst (_tick tickOf now t))
  = mkClock (_startTime t)
      (if _paused t then _pausedTime t + elapsed now t else _pausedTime t)
      (_ticks t + 1)
      (if _paused t then _pausedTickers t + 1 else _pausedTickers t)
      (now - _startTime t - 0)
      (let times1 := (now - _startTime t - 0) :: _times t in
       if decide (100 < length times1)%nat then removelast times1
       else times1).
Proof.
  unfold _tick.
  match goal with |- context [tick_loop tickOf ?a ?b ?c ?d ?e ?f ?g] =>
    pose proof (tick_loop_clock a b c d e f g) as H;
    set (r := tick_loop tickOf a b c d e f g) in *
  end.
  apply (f_equal c_times) in H as Ht.
  apply (f_equal c_startTime) in H as Hs.
  apply (f_equal c_pausedTime) in H as Hp.
  apply (f_equal c_ticks) in H as Hk.
  apply (f_equal c_pausedTickers) in H as Hq.
  apply (f_equal c_lastTime) in H as Hl.
  unfold clockOf in *. cbn [c_times c_startTime c_pausedTime c_ticks
    c_pausedTickers c_lastTime] in *.
  cbn [fst set_times _startTime _pausedTime _ticks _pausedTickers
    _lastTime _times].
  rewrite Ht, Hs, Hp, Hk, Hq, Hl. unfold elapsed.
  destruct (_paused t) eqn:E; cbn; rewrite ?E; cbn; reflexivity.
Qed.

Lemma run_counters evs t :
  _ticks (run tickOf evs t) = _ticks t + fires evs
  /\ _pausedTickers (run tickOf evs t)
     = _pausedTickers t + pausedFires tickOf evs t.
Proof.
  revert t.
  induction evs as [|[now|a] evs IH]; intros t;
    cbn [run step fires pausedFires].
  - lia.
  - destruct (IH (fst (_tick tickOf now t))) as [-> ->].
    pose proof (_tick_clock now t) as H.
    apply (f_equal c_ticks) in H as Hk.
    apply (f_equal c_pausedTickers) in H as Hq.
    cbn [clockOf c_ticks c_pausedTickers] in Hk, Hq. rewrite Hk, Hq.
    destruct (_paused t); lia.
  - destruct (IH (run_action a t)) as [-> ->].
    pose proof (run_action_clock a t) as H.
    apply (f_equal c_ticks) in H as Hk.
    apply (f_equal c_pausedTickers) in H as Hq.
    cbn [clockOf c_ticks c_pausedTickers] in Hk, Hq. rewrite Hk, Hq. lia.
Qed.

(** What [getTicks] returns after any run from the initial state: with
    [true], the fires that did not find the scheduler paused; with
    [false], all the fires. *)
Lemma getTicks_run evs :
  getTicks true (run tickOf evs init)
  = fires evs - pausedFires tickOf evs init
  /\ getTicks false (run tickOf evs init) = fires evs.
Proof.
  destruct (run_counters evs init) as [H1 H2].
  unfold getTicks. rewrite H1, H2. cbn. lia.
Qed.

(** ** Registration *)

Lemma indexOf_lt l o i : indexOf l o = Some i -> (i < length l)%nat.
Proof.
  revert i. induction l as [|x l IH]; intros i; simpl; [discriminate|].
  destruct (decide (x = o)).
  - intros [= <-]. lia.
  - destruct (indexOf l o) as [j|]; simpl; [|discriminate].
    intros [= <-]. specialize (IH j eq_refl). lia.
Qed.

Lemma indexOf_lookup l o i : indexOf l o = Some i -> l !! i = Some o.
Proof.
  revert i. induction l as [|x l IH]; intros i; simpl; [discriminate|].
  destruct (decide (x = o)) as [->|].
  - intros [= <-]. reflexivity.
  - destruct (indexOf l o) as [j|]; simpl; [|discriminate].
    intros [= <-]. simpl. auto.
Qed.

Lemma indexOf_None l o : indexOf l o = None -> o ∉ l.
Proof.
  induction l as [|x l IH]; simpl; [intros _; apply not_elem_of_nil|].
  destruct (decide (x = o)); [discriminate|].
  destruct (indexOf l o); simpl; [discriminate|].
  intros _ [?|?]%elem_of_cons; [congruence|]. now apply IH.
Qed.

(** After the splice, a listener list without duplicates has no entry
    for [o] left. *)
Lemma without_absent o l : NoDup l -> o ∉ without o l l.
Proof.
  unfold without. induction l as [|x l IH]; simpl;
    [intros _; apply not_elem_of_nil|].
  intros [Hx Hl]%NoDup_cons.
  destruct (decide (x = o)) as [->|Hne]; simpl; [exact Hx|].
  specialize (IH Hl).
  destruct (indexOf l o) as [j|] eqn:E; simpl;
    intros [?|?]%elem_of_cons; try congruence; now apply IH.
Qed.

Lemma without_NoDup o l : NoDup l -> NoDup (without o l l).
Proof.
  unfold without. induction l as [|x l IH]; simpl; [auto|].
  intros Hnd. pose proof Hnd as [Hx Hl]%NoDup_cons.
  destruct (decide (x = o)) as [->|Hne]; simpl; [exact Hl|].
  specialize (IH Hl).
  destruct (indexOf l o) as [j|] eqn:E; simpl; [|exact Hnd].
  apply NoDup_cons. split; [|exact IH].
  intros Hin. apply Hx. eapply list_elem_of_delete_inv. exact Hin.
Qed.

Lemma without_length {A} o l (fl : list A) :
  length fl = length l ->
  length (without o l fl) = length (without o l l).
Proof.
  unfold without. intros Hlen. destruct (indexOf l o) as [i|] eqn:E; auto.
  apply indexOf_lt in E.
  rewrite !length_delete; [lia| |].
  - apply lookup_lt_is_Some. lia.
  - apply lookup_lt_is_Some. lia.
Qed.

Lemma deref_store r a t :
  (r < length (arrays t))%nat -> deref (store r a t) r = a.
Proof.
  intros Hr. unfold deref, store. cbn [arrays].
  rewrite list_lookup_insert_eq by exact Hr. reflexivity.
Qed.

Lemma removeListener_spec o t :
  parallel t ->
  _listeners (removeListener o t) = without o (_listeners t) (_listeners t)
  /\ _pauseable (removeListener o t) = _pauseable t
  /\ deref (removeListener o t) (_pauseable t)
     = without o (_listeners t) (deref t (_pauseable t))
  /\ parallel (removeListener o t).
Proof.
  intros [Hr Hlen]. unfold removeListener, without, parallel.
  destruct (indexOf (_listeners t) o) as [i|] eqn:E; [|auto].
  pose proof (indexOf_lt _ _ _ E) as Hi.
  assert (Hd : deref (store (_pauseable t)
                 (delete i (deref t (_pauseable t)))
                 (set_listeners (delete i (_listeners t)) t))
                 (_pauseable t)
               = delete i (deref t (_pauseable t)))
    by (apply deref_store; exact Hr).
  repeat split; try reflexivity; try exact Hd.
  - cbn [store arrays set_listeners]. rewrite length_insert. exact Hr.
  - cbn [_pauseable store set_listeners] in *. rewrite Hd.
    cbn [_listeners store set_listeners].
    rewrite !length_delete; [lia| |]; apply lookup_lt_is_Some; lia.
Qed.

(** [addListener] on a state whose lists are parallel: the object goes
    to the tail of the listener list, after its earlier registration was
    spliced out of both lists, and the flag stored at the same index is
    the truthiness of the argument, so [false] when it is omitted. *)
Lemma addListener_spec o p t :
  parallel t ->
  _listeners (addListener o p t)
  = without o (_listeners t) (_listeners t) ++ [o]
  /\ _pauseable (addListener o p t) = _pauseable t
  /\ deref (addListener o p t) (_pauseable t)
     = without o (_listeners t) (deref t (_pauseable t))
         ++ [Some (truthy p)]
  /\ parallel (addListener o p t).
Proof.
  intros Hp. unfold addListener.
  set (t1 := if _inited t then t else requestAnimFrame (set_inited true t)).
  assert (Hp1 : parallel t1) by (subst t1; destruct (_inited t); exact Hp).
  assert (E1 : _listeners t1 = _listeners t
               /\ _pauseable t1 = _pauseable t
               /\ deref t1 (_pauseable t) = deref t (_pauseable t))
    by (subst t1; destruct (_inited t); auto).
  destruct E1 as (El & Er & Ed).
  destruct (removeListener_spec o t1 Hp1) as (H1 & H2 & H3 & [H4 H5]).
  set (t2 := removeListener o t1) in *.
  rewrite El, Er in *. rewrite Ed in H3.
  cbn [_listeners set_listeners store _pauseable].
  rewrite H2 in *.
  assert (Hset : array_set (deref t2 (_pauseable t)) (length (_listeners t2))
                   (if truthy p then true else false)
                 = deref t2 (_pauseable t) ++ [Some (truthy p)]).
  { unfold array_set. rewrite H5.
    destruct (decide _) as [Hlt|_]; [lia|].
    rewrite Nat.sub_diag. simpl. destruct (truthy p); reflexivity. }
  rewrite Hset.
  assert (Hd : deref (set_listeners (_listeners t2 ++ [o])
                 (store (_pauseable t)
                    (deref t2 (_pauseable t) ++ [Some (truthy p)]) t2))
                 (_pauseable t)
               = deref t2 (_pauseable t) ++ [Some (truthy p)])
    by (apply (deref_store _ _ t2); exact H4).
  unfold parallel.
  cbn [_pauseable _listeners arrays set_listeners store] in *.
  rewrite ?H2, ?Hd, ?length_insert, ?length_app, ?H5, ?H3, ?H1.
  repeat split; try reflexivity. exact H4.
Qed.

(** The registration is the only one: the tail index holds [o], no
    other index does, and the flag at the tail index is the stored
    truthiness. *)
Lemma addListener_tail o p t :
  parallel t -> NoDup (_listeners t) ->
  let t' := addListener o p t in
  let n := length (without o (_listeners t) (_listeners t)) in
  _listeners t' !! n = Some o
  /\ length (_listeners t') = S n
  /\ (forall i, _listeners t' !! i = Some o -> i = n)
  /\ array_get (deref t' (_pauseable t')) n = Some (truthy p)
  /\ NoDup (_listeners t').
Proof.
  intros Hp Hnd t' n.
  destruct (addListener_spec o p t Hp) as (H1 & H2 & H3 & H4).
  fold t' in H1, H2, H3, H4.
  pose proof (without_absent o _ Hnd) as Habs.
  pose proof (without_NoDup o _ Hnd) as Hnd'.
  assert (Hflags : length (without o (_listeners t) (deref t (_pauseable t)))
                   = n)
    by (apply without_length; apply Hp).
  repeat split.
  - rewrite H1. rewrite lookup_app_r by (subst n; lia).
    rewrite Nat.sub_diag. reflexivity.
  - rewrite H1, length_app. simpl. subst n. lia.
  - intros i Hi. rewrite H1 in Hi.
    destruct (decide (i < n)%nat) as [Hlt|Hge].
    + rewrite lookup_app_l in Hi by exact Hlt.
      exfalso. apply Habs. eapply list_elem_of_lookup_2. exact Hi.
    + apply lookup_lt_Some in Hi. rewrite length_app in Hi. simpl in Hi.
      subst n. lia.
  - rewrite H2, H3. unfold array_get.
    rewrite lookup_app_r by lia. rewrite Hflags, Nat.sub_diag. reflexivity.
  - rewrite H1. apply NoDup_app. repeat split; [exact Hnd'| |].
    + intros x Hx [->|[]%not_elem_of_nil]%elem_of_cons. now apply Habs.
    + apply NoDup_singleton.
Qed.

(** ** Every reachable state is well formed *)

Lemma init_wellFormed : wellFormed init.
Proof.
  split; [split; cbn; lia|]. apply NoDup_nil_2.
Qed.

Lemma run_action_wellFormed a t : wellFormed t -> wellFormed (run_action a t).
Proof.
  intros [Hp Hnd]. destruct a as [o p|o| |b]; cbn [run_action].
  - destruct (addListener_tail o p t Hp Hnd) as (_ & _ & _ & _ & Hnd').
    destruct (addListener_spec o p t Hp) as (_ & _ & _ & Hp').
    split; assumption.
  - destruct (removeListener_spec o t Hp) as (H1 & _ & _ & Hp').
    split; [exact Hp'|]. rewrite H1. now apply without_NoDup.
  - split; [|apply NoDup_nil_2].
    unfold parallel, removeAllListeners, deref.
    cbn [_pauseable arrays _listeners].
    rewrite length_app, lookup_app_r, Nat.sub_diag by lia. cbn. lia.
  - split; [exact Hp|exact Hnd].
Qed.

Lemma run_actions_wellFormed l t : wellFormed t -> wellFormed (run_actions l t).
Proof.
  revert t. induction l as [|a l IH]; intros t Hw; [exact Hw|].
  unfold run_actions in *. cbn [foldl]. apply IH.
  now apply run_action_wellFormed.
Qed.

Lemma tick_loop_wellFormed paused r e i ls t log :
  wellFormed t -> wellFormed (fst (tick_loop tickOf paused r e i ls t log)).
Proof.
  revert i t log.
  induction ls as [|[|id] ls IH]; intros i t log Hw; cbn [tick_loop];
    [exact Hw|now apply IH|].
  destruct (paused && _); [now apply IH|].
  destruct (tickOf id); [|now apply IH].
  apply IH. now apply run_actions_wellFormed.
Qed.

Lemma _tick_wellFormed now t :
  wellFormed t -> wellFormed (fst (_tick tickOf now t)).
Proof.
  intros Hw. unfold _tick. cbn [fst].
  match goal with |- wellFormed (set_times _ ?x) =>
    change (wellFormed x) end.
  apply tick_loop_wellFormed.
  destruct (_paused (set_ticks (_ticks t + 1) (requestAnimFrame t)));
    exact Hw.
Qed.

Lemma run_wellFormed evs t : wellFormed t -> wellFormed (run tickOf evs t).
Proof.
  revert t. induction evs as [|[now|a] evs IH]; intros t Hw; cbn [run step];
    [exact Hw| |]; apply IH.
  - now apply _tick_wellFormed.
  - now apply run_action_wellFormed.
Qed.

(** After any run from the initial state, [addListener(o)] with the flag
    omitted leaves [o] at the tail, at that index only, and the flag
    stored at the same index is [false]. *)
Lemma addListener_omitted evs o :
  let t := run tickOf evs init in
  let t' := addListener o None t in
  let n := length (without o (_listeners t) (_listeners t)) in
  length (_listeners t') = S n
  /\ _listeners t' !! n = Some o
  /\ (forall i, _listeners t' !! i = Some o -> i = n)
  /\ array_get (deref t' (_pauseable t')) n = Some false.
Proof.
  intros t t' n.
  destruct (run_wellFormed evs init init_wellFormed) as [Hp Hnd].
  destruct (addListener_tail o None _ Hp Hnd) as (H1 & H2 & H3 & H4 & _).
  auto.
Qed.

(** ** A paused fire when no callback touches the listener lists *)

Lemma run_actions_quiet l t :
  (forall a, In a l -> exists b, a = SetPaused b) ->
  arrays (run_actions l t) = arrays t.
Proof.
  revert t. induction l as [|a l IH]; intros t Hq; [reflexivity|].
  unfold run_actions in *. cbn [foldl].
  rewrite IH by (intros a' Ha'; apply Hq; now right).
  destruct (Hq a (or_introl eq_refl)) as [b ->]. reflexivity.
Qed.

Lemma tick_loop_quiet r e ls :
  quiet tickOf ->
  forall i t log,
    snd (tick_loop tickOf true r e i ls t log)
    = log ++ owed tickOf e ls (deref t r) i.
Proof.
  intros Hq. induction ls as [|[|id] ls IH]; intros i t log;
    cbn [tick_loop owed].
  - now rewrite app_nil_r.
  - apply IH.
  - cbn [andb]. destruct (truthy (array_get (deref t r) i)); [apply IH|].
    destruct (tickOf id) as [tick|] eqn:E; [|apply IH].
    rewrite IH. unfold deref.
    rewrite (run_actions_quiet (tick e t) t)
      by (intros a Ha; exact (Hq id tick e t a E Ha)).
    now rewrite <- app_assoc.
Qed.

(** With quiet callbacks, a fire that finds the scheduler paused invokes
    exactly the listeners it owes a tick, each once, with the elapsed
    time. *)
Lemma _tick_paused_quiet now t :
  quiet tickOf -> _paused t = true ->
  snd (_tick tickOf now t)
  = owed tickOf (elapsed now t) (_listeners t) (deref t (_pauseable t)) 0.
Proof.
  intros Hq Hp. unfold _tick. cbn [snd].
  change (_paused (set_ticks (_ticks t + 1) (requestAnimFrame t)))
    with (_paused t).
  rewrite Hp, tick_loop_quiet by exact Hq. reflexivity.
Qed.

(** Who is owed a tick: the objects with a tick method at an index whose
    flag is not [true]. *)
Lemma owed_spec e ls flags id x :
  forall i0,
    In (id, x) (owed tickOf e ls flags i0) <->
    x = e /\ exists i, ls !! i = Some (Obj id)
                     /\ truthy (array_get flags (i0 + i)) = false
                     /\ is_Some (tickOf id).
Proof.
  induction ls as [|l ls IH]; intros i0; cbn [owed].
  - split; [intros []|]. intros (_ & i & Hi & _). discriminate.
  - rewrite in_app_iff, IH. split.
    + intros [Hhd|(-> & i & Hi & Hf & Ht)].
      * destruct l as [|id']; [destruct Hhd|].
        destruct (truthy (array_get flags i0)) eqn:Ef; [destruct Hhd|].
        destruct (tickOf id') eqn:Et; [|destruct Hhd].
        destruct Hhd as [[= -> ->]|[]].
        split; [reflexivity|]. exists 0%nat.
        rewrite Nat.add_0_r, Et. eauto.
      * split; [reflexivity|]. exists (S i).
        rewrite Nat.add_succ_r. eauto.
    + intros (-> & [|i] & Hi & Hf & Ht).
      * left. cbn in Hi. injection Hi as ->.
        rewrite Nat.add_0_r in Hf. rewrite Hf.
        destruct Ht as [tk ->]. now left.
      * right. split; [reflexivity|]. exists i.
        rewrite Nat.add_succ_r in Hf. eauto.
Qed.

(** With quiet callbacks the claim about pausing holds: in a paused
    fire a listener registered once with flag [true] is not invoked, and
    one with flag [false] and a tick method is invoked with the elapsed
    time. *)
Lemma paused_fire_quiet now t i id :
  quiet tickOf -> _paused t = true -> NoDup (_listeners t) ->
  _listeners t !! i = Some (Obj id) ->
  (array_get (deref t (_pauseable t)) i = Some true ->
   forall x, ~ In (id, x) (snd (_tick tickOf now t)))
  /\ (array_get (deref t (_pauseable t)) i = Some false ->
      is_Some (tickOf id) ->
      In (id, elapsed now t) (snd (_tick tickOf now t))).
Proof.
  intros Hq Hp Hnd Hi. rewrite _tick_paused_quiet by assumption. split.
  - intros Hf x Hin. apply owed_spec in Hin as (_ & j & Hj & Hfj & _).
    cbn [Nat.add] in Hfj.
    assert (j = i) by (eapply NoDup_lookup; eauto). subst j.
    rewrite Hf in Hfj. discriminate.
  - intros Hf Ht. apply owed_spec. split; [reflexivity|].
    exists i. cbn [Nat.add]. rewrite Hf. auto.
Qed.

(** The time a fire leaves in [_lastTime], and so the elapsed time the
    next fire computes. *)
Lemma elapsed_after_fire now1 now2 t :
  elapsed now2 (fst (_tick tickOf now1 t)) = now2 - now1.
Proof.
  pose proof (_tick_clock now1 t) as H.
  apply (f_equal c_startTime) in H as Hs.
  apply (f_equal c_lastTime) in H as Hl.
  cbn [clockOf c_startTime c_lastTime] in Hs, Hl.
  unfold elapsed. rewrite Hs, Hl. lia.
Qed.

(** ** The measured frame rate *)

Lemma intervals_telescope l :
  forall n x y,
    l !! 0%nat = Some x -> l !! n = Some y ->
    sumZ (take n (intervals l)) = x - y.
Proof.
  induction l as [|a l IH]; intros n x y H0 Hn; [discriminate|].
  cbn in H0. injection H0 as <-.
  destruct n as [|n].
  - cbn in Hn. injection Hn as <-. rewrite take_0. cbn. lia.
  - cbn in Hn. destruct l as [|b l]; [discriminate|].
    change (sumZ (take (S n) (intervals (a :: b :: l))))
      with ((a - b) + sumZ (take n (intervals (b :: l)))).
    rewrite (IH n b y eq_refl Hn). lia.
Qed.

(** C8: [getMeasuredFPS] returns -1 while fewer than two timestamps are
    on record; from two timestamps on, for a requested count that is
    omitted or not negative, it returns 1000 divided by the average of
    the newest N intervals, N being the requested count (5 by default)
    bounded by the intervals on record. *)
Theorem C8_getMeasuredFPS ticks t :
  ((length (_times t) < 2)%nat -> getMeasuredFPS ticks t = Fin (-1))
  /\ ((2 <= length (_times t))%nat ->
      (forall n, ticks = Some n -> 0 <= n) ->
      let N := Z.to_nat (sampleCount ticks (_times t)) in
      (1 <= N <= length (_times t) - 1)%nat
      /\ Z.of_nat N <= match ticks with
                       | Some n => if decide (n = 0) then 5 else n
                       | None => 5
                       end
      /\ getMeasuredFPS ticks t
         = div (Fin 1000) (Fin (averageInterval N (_times t)))).
Proof.
  unfold getMeasuredFPS. split.
  - intros Hlt. destruct (decide _); [reflexivity|lia].
  - intros Hge Hreq.
    destruct (decide _) as [Hlt|_]; [lia|].
    fold (sampleCount ticks (_times t)).
    set (k := sampleCount ticks (_times t)) in *.
    set (N := Z.to_nat k).
    assert (Hk : 1 <= k <= Z.of_nat (length (_times t)) - 1).
    { subst k. unfold sampleCount.
      destruct ticks as [n|]; [|lia].
      specialize (Hreq n eq_refl). destruct (decide (n = 0)); lia. }
    assert (HN : Z.of_nat N = k) by (subst N; lia).
    split; [lia|]. split.
    { clear HN Hk. subst N k. unfold sampleCount.
      destruct ticks as [n|]; [|lia].
      specialize (Hreq n eq_refl). destruct (decide (n = 0)); lia. }
    destruct (decide (0 <= 0)) as [_|?]; [|lia].
    destruct (decide (0 <= k)) as [_|?]; [|lia].
    fold N.
    destruct (lookup_lt_is_Some_2 (_times t) 0%nat ltac:(lia)) as [x Hx].
    destruct (lookup_lt_is_Some_2 (_times t) N ltac:(lia)) as [y Hy].
    change (Z.to_nat 0) with 0%nat. rewrite Hx, Hy. cbn [sub_elems].
    unfold averageInterval.
    rewrite (intervals_telescope _ N x y Hx Hy), HN.
    assert (Hnz : Qeq_bool (inject_Z k) 0 = false).
    { apply not_true_is_false. intros HQ. apply Qeq_bool_iff in HQ.
      unfold Qeq in HQ. cbn in HQ. lia. }
    cbn [div]. rewrite Hnz. reflexivity.
Qed.

End TickerFacts.

Section TickerExamples.
Import JS Ticker Scenario.

(** C1 (the code departs from it): four fires, two of them while the
    scheduler is paused.  [getTicks(true)] returns 2, the fires that were
    not paused, and [getTicks(false)] returns 4, all of them: the two
    results are the other way round from what the documentation of
    [getTicks] and the claim say. *)
Theorem C1_getTicks_swapped :
  fires pausedTwice = 4
  /\ pausedFires oneShot pausedTwice init = 2
  /\ getTicks true (run oneShot pausedTwice init) = 2
  /\ getTicks false (run oneShot pausedTwice init) = 4.
Proof. repeat split; reflexivity. Qed.

(** C3 (the code departs from it): [addListener(o)] with the second
    argument omitted stores [false], not [true], at the index of [o];
    the rest holds: [o] is at the tail, once, and an earlier
    registration is gone. *)
Theorem C3_omitted_flag_is_false :
  let t1 := addListener (Obj 1) None init in
  let t2 := addListener (Obj 1) None
              (addListener (Obj 2) (Some true)
                 (addListener (Obj 1) (Some true) init)) in
  _listeners t1 = [Obj 1]
  /\ deref t1 (_pauseable t1) = [Some false]
  /\ _listeners t2 = [Obj 2; Obj 1]
  /\ deref t2 (_pauseable t2) = [Some true; Some false].
Proof. repeat split; reflexivity. Qed.

(** C7 (the code departs from it): the scheduler is paused, listener 1
    is registered with [pauseable = false] and removes itself in its
    tick method, listener 2 is registered with [pauseable = true].  The
    fire reads the flag of listener 2 from the spliced flag array, finds
    [undefined], and invokes listener 2. *)
Theorem C7_pauseable_listener_ticked :
  _paused pausedPair = true
  /\ _listeners pausedPair = [Obj 1; Obj 2]
  /\ deref pausedPair (_pauseable pausedPair) = [Some false; Some true]
  /\ snd (_tick oneShot 1000 pausedPair) = [(1%nat, 1000); (2%nat, 1000)].
Proof. repeat split; reflexivity. Qed.

(** The sentinel on an empty record, and the rate over two intervals of
    the four-frame record. *)
Lemma C8_getMeasuredFPS_witness :
  getMeasuredFPS None init = Fin (-1)
  /\ getMeasuredFPS (Some 2) fourFrames
     = div (Fin 1000) (Fin (averageInterval 2 (_times fourFrames))).
Proof.
  split.
  - apply (proj1 (C8_getMeasuredFPS None init)). simpl. lia.
  - assert (Hlen : (2 <= length (_times fourFrames))%nat)
      by (vm_compute; lia).
    assert (Hreq : forall n : Z, Some 2 = Some n -> 0 <= n)
      by (intros n [= <-]; lia).
    exact (proj2 (proj2
             (proj2 (C8_getMeasuredFPS (Some 2) fourFrames) Hlen Hreq))).
Defined.

End TickerExamples.

(** * Properties of the graphics buffer *)

Section GraphicsFacts.
Import Graphics.
Context `{C : Coercions}.

Lemma replay_app (l : list Command) (ctx : context) :
  foldl (fun scope c => exec c scope) ctx l = ctx ++ l.
Proof.
  revert ctx. induction l as [|c l IH]; intros ctx; simpl.
  - now rewrite app_nil_r.
  - rewrite IH. unfold exec. now rewrite <- app_assoc.
Qed.

Lemma _updateInstructions_rebuilt g :
  _instructions (_updateInstructions g) = rebuilt g.
Proof.
  unfold _updateInstructions, rebuilt, styleSetting, styleExec, push_if.
  cbn [_instructions].
  destruct (_fillInstructions g) as [fi|], (_strokeInstructions g) as [si|],
    (_strokeStyleInstructions g) as [ss|]; cbn [default];
    rewrite ?app_nil_r, <- ?app_assoc; reflexivity.
Qed.

(** A rebuild changes the merged list only. *)
Lemma _updateInstructions_frame g :
  _oldInstructions (_updateInstructions g) = _oldInstructions g
  /\ _activeInstructions (_updateInstructions g) = _activeInstructions g
  /\ styles (_updateInstructions g) = styles g
  /\ _active (_updateInstructions g) = _active g
  /\ _dirty (_updateInstructions g) = _dirty g.
Proof. repeat split. Qed.

Lemma rebuilt_stable g : rebuilt (_updateInstructions g) = rebuilt g.
Proof. reflexivity. Qed.

(** ** Drawing *)

(** C4, as amended: on a dirty buffer [draw] rebuilds the merged list as
    the committed list, then a begin-path instruction, the fill style, the
    stroke style and stroke settings (both only when a stroke is set), the
    active geometry, a fill instruction when a fill is set and a stroke
    instruction when a stroke is set, and replays that list on the
    context.  On a buffer that is not dirty it replays the merged list it
    holds and rebuilds nothing. *)
Theorem C4_draw_order g ctx :
  (_dirty g = true ->
     _instructions (fst (draw ctx g))
     = _oldInstructions g ++ [beginCmd] ++ styleSetting g
         ++ _activeInstructions g ++ styleExec g
     /\ snd (draw ctx g) = ctx ++ _instructions (fst (draw ctx g)))
  /\ (_dirty g = false -> draw ctx g = (g, ctx ++ _instructions g)).
Proof.
  unfold draw. split; intros Hd; rewrite Hd; cbn [fst snd].
  - rewrite replay_app, _updateInstructions_rebuilt. split; reflexivity.
  - now rewrite replay_app.
Qed.

(** ** The style cut *)

Lemma flags_ok_path p g : flags_ok g -> flags_ok (applyPath p g).
Proof.
  unfold flags_ok. destruct p; cbn; auto.
  unfold closePath. destruct (_active g) eqn:E; cbn; [auto|].
  rewrite E. discriminate.
Qed.

Lemma flags_ok_cut g : flags_ok g -> flags_ok (cut g).
Proof.
  unfold flags_ok, cut. destruct (_active g) eqn:E; [|now rewrite E].
  cbn. discriminate.
Qed.

Lemma flags_ok_style c g : flags_ok g -> flags_ok (applyStyle c g).
Proof.
  intros Hok. apply flags_ok_cut in Hok. unfold flags_ok in *.
  destruct c; cbn [applyStyle];
    unfold beginLinearGradientFill, beginRadialGradientFill, beginBitmapFill,
      beginLinearGradientStroke, beginRadialGradientStroke,
      beginBitmapStroke;
    try destruct (linearGradient _ _ _ _ _ _);
    try destruct (radialGradient _ _ _ _ _ _ _ _);
    try destruct (pattern _ _); exact Hok.
Qed.

Lemma reachable_flags_ok g : reachable g -> flags_ok g.
Proof.
  induction 1 as [|c g Hr IH]; [discriminate|].
  destruct c as [p|c| |ctx|]; cbn [apply].
  - now apply flags_ok_path.
  - now apply flags_ok_style.
  - discriminate.
  - unfold draw. cbn [fst]. destruct (_dirty g) eqn:E; [|exact IH].
    unfold flags_ok. cbn. auto.
  - unfold flags_ok, clone in *. cbn. exact IH.
Qed.

(** What the guard does to an open subpath. *)
Lemma cut_active g :
  flags_ok g -> _active g = true ->
  _instructions (cut g) = rebuilt g
  /\ _oldInstructions (cut g) = rebuilt g
  /\ _activeInstructions (cut g) = []
  /\ _active (cut g) = false
  /\ _dirty (cut g) = false
  /\ styles (cut g) = styles g.
Proof.
  intros Hok Ha. unfold cut, _newPath. rewrite Ha, (Hok Ha).
  cbn [_instructions _oldInstructions _activeInstructions _active _dirty].
  rewrite _updateInstructions_rebuilt. repeat split.
Qed.

(** A style method changes the style fields of the buffer the guard
    leaves, and nothing else. *)
Lemma applyStyle_cut c g :
  _instructions (applyStyle c g) = _instructions (cut g)
  /\ _oldInstructions (applyStyle c g) = _oldInstructions (cut g)
  /\ _activeInstructions (applyStyle c g) = _activeInstructions (cut g)
  /\ _active (applyStyle c g) = _active (cut g)
  /\ _dirty (applyStyle c g) = _dirty (cut g).
Proof.
  destruct c; cbn [applyStyle];
    unfold beginLinearGradientFill, beginRadialGradientFill, beginBitmapFill,
      beginLinearGradientStroke, beginRadialGradientStroke,
      beginBitmapStroke;
    try destruct (linearGradient _ _ _ _ _ _);
    try destruct (radialGradient _ _ _ _ _ _ _ _);
    try destruct (pattern _ _); repeat split.
Qed.

(** The guard changes no style. *)
Lemma cut_styles g : styles (cut g) = styles g.
Proof.
  unfold cut, _newPath. destruct (_active g); [|reflexivity].
  destruct (_dirty g); reflexivity.
Qed.

(** A style method leaves the style it was asked for. *)
Lemma applyStyle_styles c g :
  styles (applyStyle c g) = styleOf c (styles g).
Proof.
  rewrite <- (cut_styles g). unfold styles.
  destruct c; cbn [applyStyle styleOf];
    unfold beginFill, beginStroke, endFill, endStroke, beginFill,
      beginLinearGradientFill, beginRadialGradientFill, beginBitmapFill,
      beginLinearGradientStroke, beginRadialGradientStroke,
      beginBitmapStroke, setStrokeStyle;
    try reflexivity;
    try destruct (color_truthy _);
    try destruct (linearGradient _ _ _ _ _ _);
    try destruct (radialGradient _ _ _ _ _ _ _ _);
    try destruct (pattern _ _); reflexivity.
Qed.

(** A path method changes neither the committed list, nor the merged
    list, nor a style. *)
Lemma applyPath_frame p g :
  _instructions (applyPath p g) = _instructions g
  /\ _oldInstructions (applyPath p g) = _oldInstructions g
  /\ styles (applyPath p g) = styles g.
Proof.
  destruct p; try (repeat split; fail).
  cbn. unfold closePath. destruct (_active g); repeat split.
Qed.

Lemma applyPaths_frame ps g :
  let g' := foldl (fun g p => applyPath p g) g ps in
  _instructions g' = _instructions g
  /\ _oldInstructions g' = _oldInstructions g
  /\ styles g' = styles g.
Proof.
  revert g. induction ps as [|p ps IH]; intros g; cbn [foldl]; [auto|].
  destruct (IH (applyPath p g)) as (H1 & H2 & H3).
  destruct (applyPath_frame p g) as (F1 & F2 & F3).
  cbn zeta in *. rewrite H1, H2, H3. auto.
Qed.

Lemma styles_setting g g' :
  styles g' = styles g ->
  styleSetting g' = styleSetting g /\ styleExec g' = styleExec g.
Proof.
  unfold styles, styleSetting, styleExec. intros [= -> -> ->]. auto.
Qed.

(** C6, as amended: on a buffer with an open subpath, every style
    method first closes the subpath: the committed list becomes the merged
    list, that is the old committed list followed by a begin-path
    instruction, the style instructions in force before the call, the
    active instructions and the fill and stroke instructions of the
    styles in force before the call; the active list is empty and the
    active flag is reset.  The style fields are then the ones the call
    asks for.  Whatever geometry is recorded afterwards, a draw replays
    the committed list first, the earlier geometry under the earlier
    styles, and the new style's instructions only after it, around the
    geometry recorded since. *)
Theorem C6_style_cut g c :
  reachable g -> _active g = true ->
  let g' := applyStyle c g in
  _oldInstructions g'
  = _oldInstructions g ++ [beginCmd] ++ styleSetting g
      ++ _activeInstructions g ++ styleExec g
  /\ _activeInstructions g' = []
  /\ _active g' = false
  /\ styles g' = styleOf c (styles g)
  /\ forall ps ctx,
       let g'' := foldl (fun g p => applyPath p g) g' ps in
       snd (draw ctx g'')
       = ctx ++ _oldInstructions g'
           ++ (if _dirty g''
               then [beginCmd] ++ styleSetting g'
                      ++ _activeInstructions g'' ++ styleExec g'
               else []).
Proof.
  intros Hr Ha g'.
  pose proof (reachable_flags_ok g Hr) as Hok.
  destruct (cut_active g Hok Ha) as (K1 & K2 & K3 & K4 & K5 & K6).
  destruct (applyStyle_cut c g) as (S1 & S2 & S3 & S4 & S5).
  fold g' in S1, S2, S3, S4, S5.
  rewrite K1 in S1. rewrite K2 in S2. rewrite K3 in S3. rewrite K4 in S4.
  split; [exact S2|]. split; [exact S3|]. split; [exact S4|].
  split; [apply applyStyle_styles|].
  intros ps ctx g''.
  destruct (applyPaths_frame ps g') as (F1 & F2 & F3). fold g'' in F1, F2, F3.
  destruct (styles_setting g' g'' F3) as (T1 & T2).
  unfold draw. cbn [snd]. rewrite replay_app.
  destruct (_dirty g'') eqn:Ed.
  - rewrite _updateInstructions_rebuilt. unfold rebuilt.
    rewrite F2, T1, T2. reflexivity.
  - rewrite F1, S1, S2, app_nil_r. reflexivity.
Qed.

End GraphicsFacts.

Section GraphicsExamples.
Import Graphics Scenario.

(** C4 fails as stated.  On the buffer with a committed subpath, the
    rebuilt list is not the list in the order the claim gives: the
    committed geometry comes before the styles, not after them.  On the
    buffer with neither fill nor stroke, the rebuilt list has no fill and
    no stroke instruction; on the buffer with stroke settings and no
    stroke, it has no stroke setting. *)
Lemma C4_counterexample :
  (_dirty twoSubpaths = true
   /\ _instructions (fst (draw [] twoSubpaths))
      <> merged_as_specified twoSubpaths)
  /\ (_dirty openPath = true
      /\ _instructions (fst (draw [] openPath))
         = [beginCmd; cmd ctx_lineTo [1; 2]]
      /\ _instructions (fst (draw [] openPath))
         <> merged_as_specified openPath)
  /\ (_dirty settingsOnly = true
      /\ _instructions (fst (draw [] settingsOnly))
         = [beginCmd; cmd ctx_lineTo [1; 2]]
      /\ _instructions (fst (draw [] settingsOnly))
         <> merged_as_specified settingsOnly).
Proof.
  split; [split; [reflexivity|]|split; (split; [reflexivity|])].
  - intros E. apply (f_equal (fun l => f <$> l !! 1%nat)) in E.
    vm_compute in E. discriminate E.
  - split; [reflexivity|]. intros E. apply (f_equal length) in E.
    vm_compute in E. discriminate E.
  - split; [reflexivity|]. intros E. apply (f_equal length) in E.
    vm_compute in E. discriminate E.
Qed.

Lemma C4_draw_order_witness :
  (_instructions (fst (draw [] twoSubpaths))
   = _oldInstructions twoSubpaths ++ [beginCmd] ++ styleSetting twoSubpaths
       ++ _activeInstructions twoSubpaths ++ styleExec twoSubpaths
   /\ snd (draw [] twoSubpaths)
      = [] ++ _instructions (fst (draw [] twoSubpaths)))
  /\ draw [] (cut twoSubpaths)
     = (cut twoSubpaths, [] ++ _instructions (cut twoSubpaths)).
Proof.
  split.
  - exact (proj1 (C4_draw_order twoSubpaths []) eq_refl).
  - exact (proj2 (C4_draw_order (cut twoSubpaths) []) eq_refl).
Defined.

(** C6 fails as stated: closing the open subpath of the buffer with one
    line does not append the active instructions to the committed list;
    the committed list gets the begin-path instruction too. *)
Lemma C6_counterexample :
  _active openPath = true
  /\ _oldInstructions openPath ++ _activeInstructions openPath
     = [cmd ctx_lineTo [1; 2]]
  /\ _oldInstructions (applyStyle (BeginFill (Some "green"%string)) openPath)
     = [beginCmd; cmd ctx_lineTo [1; 2]]
  /\ _oldInstructions (applyStyle (BeginFill (Some "green"%string)) openPath)
     <> _oldInstructions openPath ++ _activeInstructions openPath.
Proof.
  split; [reflexivity|]. split; [reflexivity|]. split; [reflexivity|].
  intros E. apply (f_equal length) in E. vm_compute in E. discriminate E.
Qed.

Lemma C6_style_cut_witness :
  _oldInstructions (applyStyle (BeginFill (Some "green"%string)) openPath)
  = _oldInstructions openPath ++ [beginCmd] ++ styleSetting openPath
      ++ _activeInstructions openPath ++ styleExec openPath
  /\ _activeInstructions
       (applyStyle (BeginFill (Some "green"%string)) openPath) = []
  /\ _active (applyStyle (BeginFill (Some "green"%string)) openPath) = false
  /\ styles (applyStyle (BeginFill (Some "green"%string)) openPath)
     = styleOf (BeginFill (Some "green"%string)) (styles openPath).
Proof.
  pose proof (C6_style_cut openPath (BeginFill (Some "green"%string))
                (reach_call (Path (LineTo 1 2)) new reach_new) eq_refl)
    as (H1 & H2 & H3 & H4 & _).
  exact (conj H1 (conj H2 (conj H3 H4))).
Defined.

End GraphicsExamples.

(** * Properties of the stage's pointer handling *)

Section StageFacts.
Import EaselMouseEvent Stage.

(** ** The pointer position *)

Lemma offsets_total :
  forall o pageX pageY,
    offsets o pageX pageY = (pageX - totalLeft o, pageY - totalTop o).
Proof.
  fix IH 1. intros [l t [p|]] pageX pageY; cbn [offsets totalLeft totalTop].
  - rewrite IH. f_equal; lia.
  - f_equal; lia.
Qed.

(** [_updateMousePosition] assigns [mouseX], [mouseY] and
    [mouseInBounds] only. *)
Lemma _updateMousePosition_others pageX pageY s c :
  canvas s = Some c ->
  exists s',
    _updateMousePosition pageX pageY s = Some s' /\ others s' = others s.
Proof.
  intros Hc. unfold _updateMousePosition. rewrite Hc.
  destruct (offsets (element c) pageX pageY) as [x y].
  destruct (_ && _); eexists; (split; [reflexivity|]);
    unfold others; cbn; rewrite ?Hc; reflexivity.
Qed.

(** C10: when the canvas-local point is outside the canvas,
    [_updateMousePosition] leaves [mouseX] and [mouseY] as they were and
    sets [mouseInBounds] to false; it overwrites the two coordinates, and
    sets [mouseInBounds] to true, only when the point is inside.  No other
    field changes. *)
Theorem C10_position_kept_out_of_bounds pageX pageY s c :
  canvas s = Some c ->
  let x := pageX - totalLeft (element c) in
  let y := pageY - totalTop (element c) in
  exists s',
    _updateMousePosition pageX pageY s = Some s'
    /\ others s' = others s
    /\ (0 <= x < width c /\ 0 <= y < height c ->
        mouseX s' = Some x /\ mouseY s' = Some y /\ mouseInBounds s' = true)
    /\ (~ (0 <= x < width c /\ 0 <= y < height c) ->
        mouseX s' = mouseX s /\ mouseY s' = mouseY s
        /\ mouseInBounds s' = false).
Proof.
  intros Hc x y. unfold _updateMousePosition. rewrite Hc, offsets_total.
  fold x y.
  destruct (bool_decide (0 <= x)) eqn:E1, (bool_decide (0 <= y)) eqn:E2,
    (bool_decide (x < width c)) eqn:E3, (bool_decide (y < height c)) eqn:E4;
    cbn [andb]; eexists; (split; [reflexivity|]);
    (split; [unfold others; cbn; rewrite ?Hc; reflexivity|]);
    try apply bool_decide_eq_true in E1; try apply bool_decide_eq_true in E2;
    try apply bool_decide_eq_true in E3; try apply bool_decide_eq_true in E4;
    try apply bool_decide_eq_false in E1;
    try apply bool_decide_eq_false in E2;
    try apply bool_decide_eq_false in E3;
    try apply bool_decide_eq_false in E4;
    cbn; split; intros; try lia; auto.
Qed.

(** ** Press, move and release *)

Lemma _handleMouseMove_target e s :
  _activeMouseTarget (fst (_handleMouseMove e s)) = _activeMouseTarget s
  /\ _activeMouseEvent (fst (_handleMouseMove e s)) = _activeMouseEvent s
  /\ _activeEaselMouseEvent (fst (_handleMouseMove e s))
     = _activeEaselMouseEvent s.
Proof.
  unfold _handleMouseMove. destruct (canvas s) as [c|] eqn:Hc; [|auto].
  destruct (_updateMousePosition_others (pageX e) (pageY e) s c Hc)
    as (s' & -> & Ho).
  change (default s (Some s')) with s'.
  injection Ho as _ _ _ _ H1 H2 H3 _.
  destruct (negb (mouseInBounds s) && negb (mouseInBounds s'));
    cbn [fst]; auto.
Qed.

Lemma moves_target moves s :
  _activeMouseTarget (fst (run (map MouseMove moves) s))
  = _activeMouseTarget s.
Proof.
  revert s. induction moves as [|e moves IH]; intros s; [reflexivity|].
  cbn [map run handle fst]. rewrite IH. apply _handleMouseMove_target.
Qed.

Lemma _handleMouseDown_target sc e s X :
  _getObjectsUnderPoint sc
    [coord (mouseX s); coord (mouseY s); ArgNull; mode s] = Some X ->
  _activeMouseTarget (fst (_handleMouseDown sc e s)) = Some X.
Proof.
  intros Hhit. unfold _handleMouseDown. rewrite Hhit.
  destruct (onPress sc X) as [h|]; [destruct (attach h _)|]; reflexivity.
Qed.

Lemma call_if_no_click h evt :
  type evt <> "onClick"%string -> clicks (call_if h evt) = [].
Proof.
  intros Hne. destruct h as [f|]; [|reflexivity]. cbn.
  rewrite bool_decide_eq_false_2 by exact Hne. reflexivity.
Qed.

(** The clicks of a release are those of its third step: the two
    mouse-up handlers are never given a click event. *)
Lemma _handleMouseUp_clicks sc e s :
  clicks (snd (_handleMouseUp sc e s))
  = match _activeMouseTarget s with
    | Some tg =>
        match onClick sc tg with
        | Some click =>
            if decide (_getObjectsUnderPoint sc
                         [coord (mouseX s); coord (mouseY s); ArgNull;
                          ArgBool true; mode s] = Some tg)
            then [Call click
                    (EaselMouseEvent.new "onClick" (mouseX s) (mouseY s)
                       (DisplayObject tg) e)]
            else []
        | None => []
        end
    | None => []
    end.
Proof.
  unfold _handleMouseUp, clicks. cbn [snd].
  rewrite !List.filter_app.
  fold (clicks (call_if (Stage.onMouseUp s)
                  (EaselMouseEvent.new "onMouseUp" (mouseX s) (mouseY s)
                     TheStage e))).
  rewrite call_if_no_click by discriminate.
  assert (E2 : List.filter is_click
                 match _activeMouseEvent s with
                 | Some a =>
                     call_if (EaselMouseEvent.onMouseUp a)
                       (EaselMouseEvent.new "onMouseUp" (mouseX s) (mouseY s)
                          TheStage e)
                 | None => []
                 end = []).
  { destruct (_activeMouseEvent s) as [a|]; [|reflexivity].
    apply call_if_no_click. discriminate. }
  rewrite E2. cbn [app].
  destruct (_activeMouseTarget s) as [tg|]; [|reflexivity].
  destruct (onClick sc tg) as [click|]; [|reflexivity].
  destruct (decide _); reflexivity.
Qed.

(** C5: after a press that hit object X, and any pointer moves, the
    release dispatches exactly one click event, to X's click handler and
    with X as its target, when the hit test at release returns X and X has
    a click handler; it dispatches no click event at all when the hit test
    returns anything else. *)
Theorem C5_click_requires_same_target s scd ed X moves scu eu :
  _getObjectsUnderPoint scd
    [coord (mouseX s); coord (mouseY s); ArgNull; mode s] = Some X ->
  let s1 := fst (_handleMouseDown scd ed s) in
  let s2 := fst (run (map MouseMove moves) s1) in
  let released :=
    _getObjectsUnderPoint scu
      [coord (mouseX s2); coord (mouseY s2); ArgNull; ArgBool true; mode s2] in
  let log := snd (_handleMouseUp scu eu s2) in
  (forall h,
     released = Some X -> onClick scu X = Some h ->
     clicks log
     = [Call h (EaselMouseEvent.new "onClick" (mouseX s2) (mouseY s2)
                  (DisplayObject X) eu)])
  /\ (released <> Some X -> clicks log = []).
Proof.
  intros Hhit s1 s2 released log.
  assert (Ht : _activeMouseTarget s2 = Some X).
  { subst s2. rewrite moves_target. now apply _handleMouseDown_target. }
  subst log. rewrite _handleMouseUp_clicks, Ht. fold released. split.
  - intros h Hr Hc. rewrite Hc. destruct (decide _); [reflexivity|tauto].
  - intros Hr. destruct (onClick scu X); [|reflexivity].
    destruct (decide _); [tauto|reflexivity].
Qed.

(** ** The transient handlers *)

(** Nothing ever stores an event in the property the release reads. *)
Lemma handle_activeMouseEvent ev s :
  _activeMouseEvent s = None ->
  _activeMouseEvent (fst (handle ev s)) = None.
Proof.
  intros Hn. destruct ev as [sc e|e|sc e]; cbn [handle].
  - unfold _handleMouseDown.
    destruct (_getObjectsUnderPoint sc _) as [tg|]; [|exact Hn].
    destruct (onPress sc tg) as [h|]; [destruct (attach h _)|]; exact Hn.
  - now rewrite (proj1 (proj2 (_handleMouseMove_target e s))).
  - reflexivity.
Qed.

Lemma run_activeMouseEvent evs s :
  _activeMouseEvent s = None ->
  _activeMouseEvent (fst (run evs s)) = None.
Proof.
  revert s. induction evs as [|ev evs IH]; intros s Hn; [exact Hn|].
  cbn [run fst]. apply IH. now apply handle_activeMouseEvent.
Qed.

(** On any stage that a run of native events has led to, a release
    invokes the stage's own mouse-up handler and the click handler and
    nothing else, and leaves the stored press event, with the handlers
    attached to it, in place. *)
Lemma release_keeps_transient_handlers cv evs sc e :
  let s := fst (run evs (Stage.new cv)) in
  _activeEaselMouseEvent (fst (_handleMouseUp sc e s))
  = _activeEaselMouseEvent s
  /\ snd (_handleMouseUp sc e s)
     = call_if (Stage.onMouseUp s)
         (EaselMouseEvent.new "onMouseUp" (mouseX s) (mouseY s) TheStage e)
         ++ clicks (snd (_handleMouseUp sc e s)).
Proof.
  intros s. split; [reflexivity|].
  rewrite _handleMouseUp_clicks.
  assert (Hn : _activeMouseEvent s = None)
    by (apply run_activeMouseEvent; reflexivity).
  unfold _handleMouseUp. cbn [snd]. rewrite Hn. reflexivity.
Qed.

End StageFacts.

Section StageExamples.
Import EaselMouseEvent Stage Scenario.

(** C2 (the code departs from it): object 1's press handler attaches a
    move handler (11) and a release handler (12) to the press event.  The
    release invokes nothing: handler 12 is never called.  After the
    release the stage still holds the press event with both handlers,
    and the move handler 11 is invoked by the next move with no button
    down and again by the move of the following press-release cycle on
    another object. *)
Theorem C2_transient_handlers_leak :
  let stage0 := Stage.new (Some plainCanvas) in
  let r1 := run firstCycle stage0 in
  let r2 := run secondCycle (fst r1) in
  handlers (snd r1) = [10; 11]%nat
  /\ (EaselMouseEvent.onMouseUp <$> _activeEaselMouseEvent (fst r1))
     = Some (Some 12%nat)
  /\ (EaselMouseEvent.onMouseMove <$> _activeEaselMouseEvent (fst r1))
     = Some (Some 11%nat)
  /\ handlers (snd r2) = [11; 11]%nat
  /\ (EaselMouseEvent.onMouseMove <$> _activeEaselMouseEvent (fst r2))
     = Some (Some 11%nat).
Proof. repeat split; reflexivity. Qed.

Lemma C5_click_requires_same_target_witness :
  clicks (snd (_handleMouseUp idleScene (mkNative 20 20)
                 (fst (run (map MouseMove [mkNative 20 20])
                         (fst (_handleMouseDown dragScene (mkNative 10 10)
                                 (Stage.new (Some plainCanvas))))))))
  = []
  /\ clicks (snd (_handleMouseUp clickScene (mkNative 20 20)
                    (fst (run (map MouseMove [mkNative 20 20])
                            (fst (_handleMouseDown clickScene
                                    (mkNative 10 10)
                                    (Stage.new (Some plainCanvas))))))))
     = [Call 20%nat
          (EaselMouseEvent.new "onClick" (Some 20) (Some 20)
             (DisplayObject 1) (mkNative 20 20))].
Proof.
  split.
  - apply (proj2 (C5_click_requires_same_target
                    (Stage.new (Some plainCanvas)) dragScene (mkNative 10 10)
                    1%nat [mkNative 20 20] idleScene (mkNative 20 20)
                    eq_refl)).
    discriminate.
  - exact (proj1 (C5_click_requires_same_target
                    (Stage.new (Some plainCanvas)) clickScene
                    (mkNative 10 10) 1%nat [mkNative 20 20] clickScene
                    (mkNative 20 20) eq_refl) 20%nat eq_refl eq_refl).
Defined.

Lemma C10_position_kept_out_of_bounds_witness :
  exists s',
    _updateMousePosition 150 20
      (fst (_handleMouseMove (mkNative 10 10) (Stage.new (Some plainCanvas))))
    = Some s'
    /\ mouseX s' = Some 10 /\ mouseY s' = Some 10
    /\ mouseInBounds s' = false.
Proof.
  destruct (C10_position_kept_out_of_bounds 150 20
              (fst (_handleMouseMove (mkNative 10 10)
                      (Stage.new (Some plainCanvas))))
              plainCanvas eq_refl) as (s' & Hs & _ & _ & Hout).
  exists s'. split; [exact Hs|]. apply Hout. cbn. lia.
Defined.

End StageExamples.

(** * Properties of the colour-matrix filter *)

Section FilterFacts.
Import ColorMatrixFilter.
Context `{A : Arith}.

Lemma lookup_past (done l : list Z) j :
  (done ++ l) !! (length done + j)%nat = l !! j.
Proof.
  rewrite (lookup_app_r done l) by lia. f_equal. lia.
Qed.

Lemma pixel_at mtx done r g b a rest :
  pixel mtx (done ++ r :: g :: b :: a :: rest) (length done)
  = done ++ transform mtx (r, g, b, a) ++ rest.
Proof.
  assert (L0 : forall l : list Z, (done ++ l) !! length done = l !! 0%nat).
  { intros l. rewrite <- (lookup_past done l 0), Nat.add_0_r. reflexivity. }
  assert (I0 : forall (v : Z) l,
             <[length done := v]> (done ++ l) = done ++ <[0%nat := v]> l).
  { intros v l. rewrite <- (insert_app_r done l 0), Nat.add_0_r.
    reflexivity. }
  unfold pixel, channel, transform.
  rewrite L0, !lookup_past. cbn [lookup list_lookup].
  rewrite I0, !(insert_app_r done). reflexivity.
Qed.

Lemma flatten_length pxs : length (flatten pxs) = (4 * length pxs)%nat.
Proof.
  induction pxs as [|[[[r g] b] a] pxs IH]; [reflexivity|].
  change (flatten ((r, g, b, a) :: pxs)) with ([r; g; b; a] ++ flatten pxs).
  rewrite length_app, IH. cbn [length]. lia.
Qed.

Lemma transform_length mtx px : length (transform mtx px) = 4%nat.
Proof. destruct px as [[[r g] b] a]. reflexivity. Qed.

Lemma pixels_from mtx pxs :
  forall done k,
    length done = (4 * k)%nat ->
    foldl (pixel mtx) (done ++ flatten pxs)
      (map (fun k => 4 * k)%nat (seq k (length pxs)))
    = done ++ flat_map (transform mtx) pxs.
Proof.
  induction pxs as [|[[[r g] b] a] pxs IH]; intros done k Hlen; [reflexivity|].
  cbn [length seq map foldl flatten flat_map].
  change (flat_map _ pxs) with (flatten pxs) at 1.
  cbn [app]. rewrite <- Hlen, pixel_at.
  rewrite (app_assoc done), (app_assoc done (transform _ _)).
  apply IH. rewrite length_app, transform_length. lia.
Qed.

(** [applyMatrix] on well-formed pixel data: every pixel is replaced by
    its image under the matrix. *)
Lemma applyMatrix_pixels mtx pxs :
  applyMatrix mtx (flatten pxs) = flat_map (transform mtx) pxs.
Proof.
  unfold applyMatrix, indices. rewrite flatten_length.
  replace ((4 * length pxs + 3) / 4)%nat with (length pxs).
  - apply (pixels_from mtx pxs [] 0%nat). reflexivity.
  - apply Nat.div_unique with (r := 3%nat); lia.
Qed.

Lemma transform_lookup mtx pxs :
  forall k px j,
    pxs !! k = Some px -> (j < 4)%nat ->
    flat_map (transform mtx) pxs !! (4 * k + j)%nat = transform mtx px !! j.
Proof.
  induction pxs as [|p pxs IH]; intros k px j Hk Hj; [discriminate|].
  cbn [flat_map]. destruct k as [|k].
  - cbn in Hk. injection Hk as ->. cbn [Nat.mul Nat.add].
    rewrite lookup_app_l; [reflexivity|]. rewrite transform_length. lia.
  - cbn in Hk. rewrite lookup_app_r by (rewrite transform_length; lia).
    rewrite transform_length.
    replace (4 * S k + j - 4)%nat with (4 * k + j)%nat by lia.
    now apply IH.
Qed.

(** C9: when the source pixel data cannot be read ([getImageData] raises
    an exception, or the source is no context), [applyFilter] returns
    false and changes no context.  When [getImageData] returns pixel
    data, every pixel goes through the matrix: each channel of the
    result is the sum of the pixel's red, green, blue and alpha, each
    times its entry of the channel's row of the matrix, and of the row's
    fifth entry, stored as the pixel array stores it; the result is put
    on the target context (the source context when none is given) and
    true is returned.  In neither case does an exception leave the
    method.  The filter is one that was given a matrix, and a target
    context that is given exists. *)
Theorem C9_applyFilter_reports self ctx x y width height targetCtx
    targetX targetY cs mtx :
  matrix self = Some mtx ->
  (forall t, targetCtx = Some t -> is_Some (cs !! t)) ->
  let res :=
    applyFilter self ctx x y width height targetCtx targetX targetY cs in
  let target := default ctx targetCtx in
  let m := fun i : nat => default nan (mtx !! i) in
  let weighted := fun (r g b a : Z) (k : nat) =>
    toByte
      (plus (plus (plus (plus (times (ofByte r) (m k))
                              (times (ofByte g) (m (k + 1)%nat)))
                        (times (ofByte b) (m (k + 2)%nat)))
                  (times (ofByte a) (m (k + 3)%nat)))
            (m (k + 4)%nat)) in
  ((cs !! ctx = None
    \/ exists c e, cs !! ctx = Some c
                   /\ getImageData c x y width height = Throw e) ->
   res = (Return false, cs))
  /\ (forall c img pxs,
        cs !! ctx = Some c ->
        getImageData c x y width height = Return img ->
        data img = flatten pxs ->
        exists tc out,
          cs !! target = Some tc
          /\ res = (Return true,
                    <[target :=
                        mkContext (getImageData tc)
                          (putImageData_calls tc
                             ++ [mkPut
                                   (mkImageData out (imgWidth img)
                                      (imgHeight img))
                                   None None])]> cs)
          /\ length out = length (data img)
          /\ forall k r g b a,
               pxs !! k = Some (r, g, b, a) ->
               out !! (4 * k)%nat = Some (weighted r g b a 0%nat)
               /\ out !! (4 * k + 1)%nat = Some (weighted r g b a 5%nat)
               /\ out !! (4 * k + 2)%nat = Some (weighted r g b a 10%nat)
               /\ out !! (4 * k + 3)%nat = Some (weighted r g b a 15%nat))
  /\ (forall e, fst res <> Throw e).
Proof.
  intros Hm Ht res target m weighted.
  subst res. unfold applyFilter. rewrite Hm. fold target.
  split; [|split].
  - intros [Hn|(c & e & Hc & He)]; [now rewrite Hn|now rewrite Hc, He].
  - intros c img pxs Hc Hi Hd. rewrite Hc, Hi.
    assert (Htc : is_Some (cs !! target)).
    { subst target. destruct targetCtx as [t|]; cbn; [now apply Ht|].
      now rewrite Hc. }
    destruct Htc as [tc Htc]. rewrite Htc.
    exists tc, (applyMatrix mtx (data img)).
    split; [reflexivity|]. split; [reflexivity|].
    split.
    { unfold applyMatrix. generalize (indices (length (data img))).
      intros ixs. generalize (data img). induction ixs as [|i ixs IH];
        intros d; cbn [foldl]; [reflexivity|].
      rewrite IH. unfold pixel. now rewrite !length_insert. }
    intros k r g b a Hk. rewrite Hd, applyMatrix_pixels.
    rewrite <- (Nat.add_0_r (4 * k)) at 1.
    rewrite !(transform_lookup mtx pxs k (r, g, b, a)) by (exact Hk || lia).
    repeat split.
  - assert (Htc : is_Some (cs !! ctx) -> is_Some (cs !! target)).
    { subst target. destruct targetCtx as [t|]; cbn; [|auto].
      intros _. now apply Ht. }
    destruct (cs !! ctx) as [c|]; [|discriminate].
    destruct (getImageData c x y width height) as [img|e0];
      [|discriminate].
    destruct (Htc (mk_is_Some _ _ eq_refl)) as [tc Etc]. rewrite Etc.
    discriminate.
Qed.

End FilterFacts.

Section FilterExamples.
Import ColorMatrixFilter Scenario.

Lemma C9_applyFilter_reports_witness :
  applyFilter (mkFilter (Some redder)) 1 0 0 2 1 (Some 0%nat) None None page
  = (Return false, page)
  /\ exists tc out,
       page !! 0%nat = Some tc
       /\ applyFilter (mkFilter (Some redder)) 0 0 0 2 1 None None None page
          = (Return true,
             <[0%nat :=
                 mkContext (getImageData tc)
                   (putImageData_calls tc
                      ++ [mkPut (mkImageData out 2 1) None None])]> page)
       /\ out !! 0%nat = Some 11
       /\ out !! 4%nat = Some 15.
Proof.
  split.
  - exact (proj1 (@C9_applyFilter_reports intArith
                    (@mkFilter intArith (Some redder)) 1 0 0 2 1
                    (Some 0%nat) None None page redder eq_refl
                    (fun t E => match E in _ = o
                                      return match o with
                                             | Some t' => is_Some (page !! t')
                                             | None => True
                                             end
                                with eq_refl => ex_intro _ _ eq_refl end))
             (or_intror
                (ex_intro _ (mkContext (fun _ _ _ _ => Throw SecurityError) [])
                   (ex_intro _ SecurityError (conj eq_refl eq_refl))))).
  - destruct (proj1 (proj2
                (@C9_applyFilter_reports intArith
                   (@mkFilter intArith (Some redder)) 0 0 0 2 1
                   None None None page redder eq_refl
                   (fun t E => match E in _ = o
                                     return match o with
                                            | Some t' => is_Some (page !! t')
                                            | None => True
                                            end
                               with eq_refl => I end)))
              (mkContext
                 (fun _ _ w h =>
                    Return (mkImageData [1; 2; 3; 4; 5; 6; 7; 8] w h)) [])
              (mkImageData [1; 2; 3; 4; 5; 6; 7; 8] 2 1)
              [(1, 2, 3, 4); (5, 6, 7, 8)] eq_refl eq_refl eq_refl)
      as (tc & out & H1 & H2 & _ & H4).
    exists tc, out. split; [exact H1|]. split; [exact H2|].
    split.
    + exact (proj1 (H4 0%nat 1 2 3 4 eq_refl)).
    + exact (proj1 (H4 1%nat 5 6 7 8 eq_refl)).
Defined.

End FilterExamples.

(** * Further properties of the scheduler *)

Section TickerRunFacts.
Import JS Ticker TickerRuns.

Variable tickOf : nat -> option callback.

(** ** The record of fire times *)

Lemma removelast_take {A} (l : list A) :
  removelast l = take (length l - 1) l.
Proof.
  induction l as [|x l IH]; [reflexivity|].
  destruct l as [|y l]; [reflexivity|].
  change (removelast (x :: y :: l)) with (x :: removelast (y :: l)).
  rewrite IH.
  replace (length (x :: y :: l) - 1)%nat with (S (length (y :: l) - 1))
    by (cbn [length]; lia).
  reflexivity.
Qed.

Lemma times_window_aux now t :
  ((length (_times t) <= 100)%nat ->
     _times (fst (_tick tickOf now t))
     = take 100 ((now - _startTime t - 0) :: _times t))
  /\ ((length (_times t) <= 100)%nat ->
      (length (_times (fst (_tick tickOf now t))) <= 100)%nat).
Proof.
  assert (Hfire : (length (_times t) <= 100)%nat ->
            _times (fst (_tick tickOf now t))
            = take 100 ((now - _startTime t - 0) :: _times t)).
  { intros Hlen. pose proof (_tick_clock tickOf now t) as H.
    apply (f_equal c_times) in H. cbn [clockOf c_times] in H. rewrite H.
    cbn zeta. destruct (decide _) as [Hgt|Hle].
    - rewrite removelast_take. f_equal. cbn [length] in *. lia.
    - rewrite take_ge; [reflexivity|]. cbn [length] in *. lia. }
  split; [exact Hfire|]. intros Hlen. rewrite Hfire by exact Hlen.
  rewrite length_take. lia.
Qed.

(** X1: a fire puts its time at the front of [_times] and keeps the
    newest 100 entries; after any run from the initial state the record
    holds at most 100 times. *)
Theorem times_window now t evs :
  ((length (_times t) <= 100)%nat ->
     _times (fst (_tick tickOf now t))
     = take 100 ((now - _startTime t - 0) :: _times t))
  /\ (length (_times (run tickOf evs init)) <= 100)%nat.
Proof.
  split; [apply times_window_aux|].
  assert (Hrun : forall evs t, (length (_times t) <= 100)%nat ->
            (length (_times (run tickOf evs t)) <= 100)%nat).
  { clear evs. induction evs as [|[now'|a] evs IH]; intros t' Hlen;
      cbn [run step]; [exact Hlen| |]; apply IH.
    - now apply times_window_aux.
    - pose proof (run_action_clock a t') as H.
      apply (f_equal c_times) in H. cbn [clockOf c_times] in H.
      now rewrite H. }
  apply Hrun. cbn. lia.
Qed.

(** ** What a fire invokes when the scheduler is not paused *)

Lemma tick_loop_unpaused r e ls :
  forall i t log,
    snd (tick_loop tickOf false r e i ls t log)
    = log ++ everyone tickOf e ls.
Proof.
  induction ls as [|[|id] ls IH]; intros i t log; cbn [tick_loop].
  - now rewrite app_nil_r.
  - apply IH.
  - cbn [andb everyone flat_map] in *. destruct (tickOf id) as [tick|].
    + rewrite IH, <- app_assoc. reflexivity.
    + apply IH.
Qed.

(** X2: a fire that finds the scheduler running invokes every object of
    the listener list as it was when the fire began that has a tick
    method, once, in order and with the elapsed time, whatever the
    callbacks do to the scheduler meanwhile. *)
Theorem unpaused_fire_snapshot now t :
  _paused t = false ->
  snd (_tick tickOf now t)
  = everyone tickOf (elapsed now t) (_listeners t).
Proof.
  intros Hp. unfold _tick. cbn [snd].
  change (_paused (set_ticks (_ticks t + 1) (requestAnimFrame t)))
    with (_paused t).
  rewrite Hp, tick_loop_unpaused. reflexivity.
Qed.

(** ** Arming the frame callback *)






(** ** Registrations *)

Lemma others_absent o l (f : list (option bool)) :
  o ∉ l -> others o (zip l f) = zip l f.
Proof.
  revert f. induction l as [|x l IH]; intros [|y f] Ho; try reflexivity.
  apply not_elem_of_cons in Ho as [Hne Ho].
  cbn [zip zip_with others List.filter fst].
  rewrite bool_decide_eq_false_2 by congruence. cbn [negb].
  f_equal. apply IH, Ho.
Qed.

Lemma zip_without o l :
  forall f : list (option bool),
    NoDup l -> length f = length l ->
    zip (without o l l) (without o l f) = others o (zip l f).
Proof.
  unfold without. induction l as [|x l IH]; intros [|y f] Hnd Hlen;
    try discriminate; [reflexivity|].
  apply NoDup_cons in Hnd as [Hx Hnd]. injection Hlen as Hlen.
  cbn [indexOf zip zip_with others List.filter fst].
  destruct (decide (x = o)) as [->|Hne].
  - rewrite bool_decide_eq_true_2 by reflexivity. cbn [negb delete].
    symmetry. apply others_absent, Hx.
  - rewrite bool_decide_eq_false_2 by exact Hne. cbn [negb].
    specialize (IH f Hnd Hlen).
    destruct (indexOf l o) as [j|] eqn:E; cbn [fmap option_fmap option_map].
    + cbn [delete list_delete]. cbn [zip zip_with]. f_equal. exact IH.
    + cbn [zip zip_with]. f_equal. exact IH.
Qed.

Lemma removeListener_others o t :
  wellFormed t ->
  registrations (removeListener o t) = others o (registrations t)
  /\ (o ∉ _listeners (removeListener o t))
  /\ wellFormed (removeListener o t).
Proof.
  intros [Hp Hnd].
  destruct (removeListener_spec o t Hp) as (H1 & H2 & H3 & Hp').
  unfold registrations. rewrite H2, H1, H3. split; [|split].
  - apply zip_without; [exact Hnd|apply Hp].
  - now apply without_absent.
  - split; [exact Hp'|]. rewrite H1. now apply without_NoDup.
Qed.

(** X4: [removeListener(o)] on a well-formed state removes the
    registration of [o] and nothing else: every other listener keeps its
    place in the order and its flag, [o] is no longer registered, and the
    state stays well formed. *)
Theorem removeListener_registrations o t :
  wellFormed t ->
  registrations (removeListener o t) = others o (registrations t)
  /\ (o ∉ _listeners (removeListener o t))
  /\ wellFormed (removeListener o t).
Proof. apply removeListener_others. Qed.

Lemma addListener_registrations o p t :
  wellFormed t ->
  registrations (addListener o p t)
  = others o (registrations t) ++ [(o, Some (truthy p))]
  /\ wellFormed (addListener o p t).
Proof.
  intros [Hp Hnd].
  destruct (addListener_spec o p t Hp) as (H1 & H2 & H3 & Hp').
  destruct (addListener_tail o p t Hp Hnd) as (_ & _ & _ & _ & Hnd').
  split; [|split; assumption].
  unfold registrations. rewrite H2, H1, H3.
  rewrite zip_with_app by (symmetry; apply without_length, Hp).
  rewrite zip_without; [reflexivity|exact Hnd|apply Hp].
Qed.

Lemma others_idem o rs : others o (others o rs) = others o rs.
Proof.
  unfold others. induction rs as [|r rs IH]; [reflexivity|].
  cbn [List.filter]. destruct (negb _) eqn:E; [|exact IH].
  cbn [List.filter]. rewrite E. f_equal. exact IH.
Qed.

Lemma others_snoc o v rs : others o (rs ++ [(o, v)]) = others o rs.
Proof.
  unfold others. rewrite List.filter_app. cbn [List.filter fst].
  rewrite bool_decide_eq_true_2 by reflexivity. cbn [negb].
  apply app_nil_r.
Qed.

(** X5: how registrations compose on a well-formed state.  Adding an
    object again replaces its registration (the last flag wins); removing
    an object first and adding it is the same as adding it; and adding an
    object that was not registered and removing it again restores the
    registrations. *)
Theorem registration_compose o p q t :
  wellFormed t ->
  registrations (addListener o p (addListener o q t))
  = registrations (addListener o p t)
  /\ registrations (addListener o p (removeListener o t))
     = registrations (addListener o p t)
  /\ (o ∉ _listeners t ->
      registrations (removeListener o (addListener o p t))
      = registrations t).
Proof.
  intros Hw.
  destruct (addListener_registrations o p t Hw) as [Hp Hwp].
  destruct (addListener_registrations o q t Hw) as [Hq Hwq].
  destruct (removeListener_others o t Hw) as (Hr & _ & Hwr).
  split; [|split].
  - rewrite (proj1 (addListener_registrations o p _ Hwq)), Hq, Hp.
    now rewrite others_snoc, others_idem.
  - rewrite (proj1 (addListener_registrations o p _ Hwr)), Hr, Hp.
    now rewrite others_idem.
  - intros Ho.
    rewrite (proj1 (removeListener_others o _ Hwp)), Hp.
    rewrite others_snoc, others_idem.
    unfold registrations. now apply others_absent.
Qed.

(** ** Time spent paused *)

Lemma run_pausedTime evs :
  forall t,
    _pausedTime (run tickOf evs t)
    = _pausedTime t + pausedElapsed tickOf evs t
    /\ _startTime (run tickOf evs t) = _startTime t.
Proof.
  induction evs as [|[now|a] evs IH]; intros t;
    cbn [run step pausedElapsed]; [split; [lia|reflexivity]| |].
  - destruct (IH (fst (_tick tickOf now t))) as [-> ->].
    pose proof (_tick_clock tickOf now t) as H.
    apply (f_equal c_pausedTime) in H as Hp.
    apply (f_equal c_startTime) in H as Hs.
    cbn [clockOf c_pausedTime c_startTime] in Hp, Hs. rewrite Hp, Hs.
    destruct (_paused t); split; lia.
  - destruct (IH (run_action a t)) as [-> ->].
    pose proof (run_action_clock a t) as H.
    apply (f_equal c_pausedTime) in H as Hp.
    apply (f_equal c_startTime) in H as Hs.
    cbn [clockOf c_pausedTime c_startTime] in Hp, Hs. rewrite Hp, Hs.
    split; lia.
Qed.

(** X6: after any run from the initial state, [getTime(false)] is the
    clock reading, and [getTime(true)] is the clock reading less the time
    that passed in the fires that found the scheduler paused. *)
Theorem getTime_run evs now :
  getTime now false (run tickOf evs init) = now
  /\ getTime now true (run tickOf evs init)
     = now - pausedElapsed tickOf evs init.
Proof.
  destruct (run_pausedTime evs init) as [Hp Hs].
  unfold getTime. rewrite Hp, Hs. cbn. lia.
Qed.

(** ** The measured rate of evenly spaced fires *)

Lemma regular_cons d a b l :
  regular d (a :: b :: l) <-> a - b = d /\ regular d (b :: l).
Proof.
  unfold regular. change (intervals (a :: b :: l))
    with ((a - b) :: intervals (b :: l)).
  split.
  - intros Hf. inversion Hf; subst. auto.
  - intros [Hab Hf]. constructor; assumption.
Qed.

Lemma regular_take d l : forall n, regular d l -> regular d (take n l).
Proof.
  induction l as [|a l IH]; intros n Hr; [now rewrite take_nil|].
  destruct n as [|n]; [apply Forall_nil_2|].
  destruct l as [|b l].
  - cbn [take]. rewrite take_nil. apply Forall_nil_2.
  - apply regular_cons in Hr as [Hab Hr].
    specialize (IH n Hr).
    destruct n as [|n]; [apply Forall_nil_2|].
    change (take (S (S n)) (a :: b :: l)) with (a :: b :: take n l).
    apply regular_cons. split; [exact Hab|exact IH].
Qed.

Lemma intervals_length l : length (intervals l) = (length l - 1)%nat.
Proof.
  induction l as [|a l IH]; [reflexivity|].
  destruct l as [|b l]; [reflexivity|].
  change (intervals (a :: b :: l)) with ((a - b) :: intervals (b :: l)).
  cbn [length] in *. lia.
Qed.

Lemma sumZ_regular d l :
  Forall (fun x => x = d) l -> sumZ l = Z.of_nat (length l) * d.
Proof.
  induction 1 as [|x l -> _ IH]; [reflexivity|].
  unfold sumZ in *. cbn [foldr length]. rewrite IH. lia.
Qed.

(** The rate read off a regular record. *)
Lemma getMeasuredFPS_regular d ticks t :
  0 < d -> regular d (_times t) -> (2 <= length (_times t))%nat ->
  (forall n, ticks = Some n -> 0 <= n) ->
  exists q, getMeasuredFPS ticks t = Fin q /\ (q == 1000 / inject_Z d)%Q.
Proof.
  intros Hd Hreg Hlen Hreq. unfold getMeasuredFPS.
  destruct (decide _) as [?|_]; [lia|].
  fold (sampleCount ticks (_times t)).
  set (k := sampleCount ticks (_times t)).
  assert (Hk : 1 <= k <= Z.of_nat (length (_times t)) - 1).
  { subst k. unfold sampleCount. destruct ticks as [n|]; [|lia].
    specialize (Hreq n eq_refl). destruct (decide (n = 0)); lia. }
  destruct (decide (0 <= 0)) as [_|?]; [|lia].
  destruct (decide (0 <= k)) as [_|?]; [|lia].
  destruct (lookup_lt_is_Some_2 (_times t) 0%nat ltac:(lia)) as [x Hx].
  destruct (lookup_lt_is_Some_2 (_times t) (Z.to_nat k) ltac:(lia))
    as [y Hy].
  change (Z.to_nat 0) with 0%nat. rewrite Hx, Hy. cbn [sub_elems].
  pose proof (intervals_telescope (_times t) (Z.to_nat k) x y Hx Hy) as Ht.
  rewrite (sumZ_regular d) in Ht by (apply Forall_take, Hreg).
  rewrite length_take, intervals_length in Ht.
  replace (Z.of_nat (Z.to_nat k `min` (length (_times t) - 1))) with k
    in Ht by lia.
  rewrite <- Ht.
  assert (Hk0 : Qeq_bool (inject_Z k) 0 = false).
  { apply not_true_is_false. intros HQ. apply Qeq_bool_iff in HQ.
    unfold Qeq in HQ. cbn in HQ. lia. }
  cbn [div]. rewrite Hk0.
  assert (Hkd : ~ (inject_Z (k * d) / inject_Z k == 0)%Q).
  { intros HQ. unfold Qeq, Qdiv, Qmult, Qinv in HQ.
    destruct k as [|pk|pk]; try lia. cbn in HQ. nia. }
  assert (Hq0 : Qeq_bool (inject_Z (k * d) / inject_Z k) 0 = false).
  { apply not_true_is_false. intros HQ. apply Qeq_bool_iff in HQ.
    now apply Hkd. }
  rewrite Hq0. eexists. split; [reflexivity|].
  rewrite inject_Z_mult. field. split.
  - intros HQ. unfold Qeq in HQ. cbn in HQ. lia.
  - intros HQ. unfold Qeq in HQ. cbn in HQ. lia.
Qed.

(** What evenly spaced fires leave on record. *)
Lemma evenFires_record start d :
  forall n k t,
    _startTime t = 0 -> regular d (_times t) ->
    (length (_times t) <= 100)%nat ->
    (k = 0%nat /\ _times t = []
     \/ exists rest, _times t = (start + (Z.of_nat k - 1) * d) :: rest) ->
    let t' := run tickOf
                (map (fun j => Fire (start + Z.of_nat j * d)) (seq k n)) t in
    regular d (_times t')
    /\ length (_times t') = (100 `min` (length (_times t) + n))%nat.
Proof.
  induction n as [|n IH]; intros k t Hs Hreg Hlen Hhead; cbn [seq map run].
  - split; [exact Hreg|lia].
  - set (now := start + Z.of_nat k * d).
    cbn [step].
    pose proof (proj1 (times_window_aux now t) Hlen) as Ht.
    assert (Hreg' : regular d (_times (fst (_tick tickOf now t)))).
    { rewrite Ht. apply regular_take. rewrite Hs.
      destruct Hhead as [[_ E]|[rest E]]; rewrite E in *;
        [apply Forall_nil_2|].
      apply regular_cons. split; [subst now; lia|exact Hreg]. }
    assert (Hlen' : length (_times (fst (_tick tickOf now t)))
                    = (100 `min` S (length (_times t)))%nat).
    { rewrite Ht, length_take. cbn [length]. lia. }
    assert (Hs' : _startTime (fst (_tick tickOf now t)) = 0).
    { pose proof (_tick_clock tickOf now t) as H.
      apply (f_equal c_startTime) in H. cbn [clockOf c_startTime] in H.
      now rewrite H. }
    destruct (IH (S k) (fst (_tick tickOf now t)) Hs' Hreg') as [R L].
    + lia.
    + right. rewrite Ht, Hs.
      destruct (_times t) as [|h rest]; cbn [take]; eexists;
        (f_equal; subst now; lia).
    + split; [exact R|]. rewrite L, Hlen'. lia.
Qed.

(** X7: after [n >= 2] fires spaced [d > 0] milliseconds apart, from the
    initial state, [getMeasuredFPS] returns [1000 / d], for every
    requested count that is omitted or not negative. *)
Theorem getMeasuredFPS_even start d n ticks :
  0 < d -> (2 <= n)%nat -> (forall m, ticks = Some m -> 0 <= m) ->
  exists q,
    getMeasuredFPS ticks (run tickOf (evenFires start d n) init) = Fin q
    /\ (q == 1000 / inject_Z d)%Q.
Proof.
  intros Hd Hn Hreq.
  destruct (evenFires_record start d n 0%nat init eq_refl
              (Forall_nil_2 _) ltac:(cbn; lia) (or_introl (conj eq_refl eq_refl)))
    as [R L].
  apply getMeasuredFPS_regular; try assumption.
  unfold evenFires. rewrite L. cbn [init _times length]. lia.
Qed.

End TickerRunFacts.

(** * Further properties of the graphics buffer *)

Section ColorFacts.
Import GraphicsColors.

Variable show : Q -> string.

Lemma toInt32_small z :
  - 2 ^ 31 <= z < 2 ^ 31 -> toInt32 (inject_Z z) = z.
Proof.
  intros Hz. unfold toInt32.
  assert (E : (if Qle_bool 0 (inject_Z z) then Qfloor (inject_Z z)
               else Qceiling (inject_Z z)) = z)
    by (destruct (Qle_bool 0 (inject_Z z));
        [apply Qfloor_Z|apply Qceiling_Z]).
  rewrite E. rewrite Z.mod_small by lia. lia.
Qed.

Lemma band_255 z :
  0 <= z < 2 ^ 31 -> band (inject_Z z) 255 = inject_Z (z mod 256).
Proof.
  intros Hz. unfold band. rewrite toInt32_small by lia.
  change (255 : Q) with (inject_Z 255). rewrite toInt32_small by lia.
  change 255 with (Z.ones 8). rewrite Z.land_ones by lia. reflexivity.
Qed.

Lemma shr_small z k :
  0 <= z < 2 ^ 31 -> 0 <= k < 32 ->
  shr (inject_Z z) k = inject_Z (z / 2 ^ k).
Proof.
  intros Hz Hk. unfold shr. rewrite toInt32_small by lia.
  rewrite Z.mod_small by lia. rewrite Z.shiftr_div_pow2 by lia. reflexivity.
Qed.

(** X8: [getRGB] called with a single colour number [h] below 2^24 (and
    an optional alpha as the second argument) gives the same string as the
    call with the three bytes of [h] as red, green and blue (and the same
    alpha as fourth argument); the bytes are in 0..255 and make up [h]. *)
Theorem getRGB_hex h alpha :
  0 <= h < 2 ^ 24 ->
  let R := h / 65536 in
  let G := (h / 256) mod 256 in
  let B := h mod 256 in
  getRGB show (Num (inject_Z h)) alpha Undefined Undefined
  = getRGB show (Num (inject_Z R)) (Num (inject_Z G)) (Num (inject_Z B)) alpha
  /\ (0 <= R <= 255 /\ 0 <= G <= 255 /\ 0 <= B <= 255)
  /\ R * 65536 + G * 256 + B = h.
Proof.
  intros Hh R G B.
  assert (HR : 0 <= R <= 255).
  { subst R. split; [apply Z.div_pos; lia|].
    apply Z.lt_succ_r, Z.div_lt_upper_bound; lia. }
  assert (HG : 0 <= G <= 255)
    by (subst G; pose proof (Z.mod_pos_bound (h / 256) 256); lia).
  assert (HB : 0 <= B <= 255)
    by (subst B; pose proof (Z.mod_pos_bound h 256); lia).
  split; [|split; [auto|]].
  - unfold getRGB. cbn [is_null].
    rewrite !shr_small by lia.
    assert (H16 : 0 <= h / 2 ^ 16 < 2 ^ 31)
      by (change (2 ^ 16) with 65536; fold R; lia).
    assert (H8 : 0 <= h / 2 ^ 8 < 2 ^ 31).
    { split; [apply Z.div_pos; lia|].
      apply Z.div_lt_upper_bound; lia. }
    rewrite !band_255 by lia.
    change (2 ^ 16) with 65536. change (2 ^ 8) with 256.
    fold R G B. rewrite (Z.mod_small R 256) by lia. reflexivity.
  - subst R G B.
    pose proof (Z.div_mod h 256 ltac:(lia)) as E1.
    pose proof (Z.div_mod (h / 256) 256 ltac:(lia)) as E2.
    rewrite Z.div_div in E2 by lia. change (256 * 256) with 65536 in E2.
    lia.
Qed.

(** ** The hue of [getHSL] *)

Lemma Qfloor_unique (x : Q) (z : Z) :
  (inject_Z z <= x)%Q -> (x < inject_Z (z + 1))%Q -> Qfloor x = z.
Proof.
  intros Hle Hlt.
  assert (H1 : z <= Qfloor x).
  { rewrite <- (Qfloor_Z z). now apply Qfloor_resp_le. }
  assert (H2 : Qfloor x < z + 1).
  { rewrite Zlt_Qlt. eapply Qle_lt_trans; [apply Qfloor_le|exact Hlt]. }
  lia.
Qed.

Lemma rem360_up h k :
  0 <= k -> (0 <= h)%Q -> (h < 360)%Q ->
  (rem360 (h + 360 * inject_Z k) == h)%Q.
Proof.
  intros Hk H0 H1. unfold rem360.
  assert (Hk' : (inject_Z 0 <= inject_Z k)%Q) by (now rewrite <- Zle_Qle).
  change (inject_Z 0) with 0%Q in Hk'.
  assert (Eq : ((h + 360 * inject_Z k) / 360 == h / 360 + inject_Z k)%Q)
    by (field).
  assert (Hq0 : (0 <= h / 360)%Q) by (apply Qle_shift_div_l; lra).
  assert (Hq1 : (h / 360 < 1)%Q) by (apply Qlt_shift_div_r; lra).
  assert (Hpos : Qle_bool 0 ((h + 360 * inject_Z k) / 360) = true).
  { apply Qle_bool_iff. rewrite Eq. lra. }
  rewrite Hpos.
  rewrite (Qfloor_unique _ k).
  - lra.
  - rewrite Eq. lra.
  - rewrite Eq, inject_Z_plus. change (inject_Z 1) with 1%Q. lra.
Qed.

Lemma rem360_down h k :
  0 <= k -> (-360 < h)%Q -> (h <= 0)%Q ->
  (rem360 (h - 360 * inject_Z k) == h)%Q.
Proof.
  intros Hk H0 H1. unfold rem360.
  assert (Hk' : (inject_Z 0 <= inject_Z k)%Q) by (now rewrite <- Zle_Qle).
  change (inject_Z 0) with 0%Q in Hk'.
  assert (Eq : ((h - 360 * inject_Z k) / 360 == h / 360 - inject_Z k)%Q)
    by (field).
  assert (Hq0 : (h / 360 <= 0)%Q) by (apply Qle_shift_div_r; lra).
  assert (Hq1 : (-1 < h / 360)%Q) by (apply Qlt_shift_div_l; lra).
  destruct (Qle_bool 0 ((h - 360 * inject_Z k) / 360)) eqn:Hpos.
  - apply Qle_bool_iff in Hpos. rewrite Eq in Hpos.
    assert (Hz : (h / 360 == 0)%Q) by lra.
    assert (Hk0 : (inject_Z k == 0)%Q) by lra.
    assert (Hh : (h == 0)%Q).
    { assert (E : (h == h / 360 * 360)%Q) by (field). rewrite E, Hz. lra. }
    rewrite (Qfloor_unique _ 0).
    + change (inject_Z 0) with 0%Q. lra.
    + change (inject_Z 0) with 0%Q. rewrite Eq. lra.
    + change (inject_Z (0 + 1)) with 1%Q. rewrite Eq. lra.
  - unfold Qceiling. rewrite (Qfloor_unique _ k).
    + rewrite inject_Z_opp. lra.
    + rewrite Eq. lra.
    + rewrite Eq, inject_Z_plus. change (inject_Z 1) with 1%Q. lra.
Qed.

Lemma rem360_pos h : (0 <= h)%Q -> (h < 360)%Q -> (rem360 h == h)%Q.
Proof.
  intros H0 H1. unfold rem360.
  assert (Hq0 : (0 <= h / 360)%Q) by (apply Qle_shift_div_l; lra).
  assert (Hq1 : (h / 360 < 1)%Q) by (apply Qlt_shift_div_r; lra).
  assert (Hpos : Qle_bool 0 (h / 360) = true) by (now apply Qle_bool_iff).
  rewrite Hpos, (Qfloor_unique _ 0).
  - change (inject_Z 0) with 0%Q. lra.
  - exact Hq0.
  - exact Hq1.
Qed.

Lemma rem360_neg h : (-360 < h)%Q -> (h <= 0)%Q -> (rem360 h == h)%Q.
Proof.
  intros H0 H1. unfold rem360.
  assert (Hq0 : (h / 360 <= 0)%Q) by (apply Qle_shift_div_r; lra).
  assert (Hq1 : (-1 < h / 360)%Q) by (apply Qlt_shift_div_l; lra).
  destruct (Qle_bool 0 (h / 360)) eqn:Hpos.
  - apply Qle_bool_iff in Hpos. rewrite (Qfloor_unique _ 0).
    + change (inject_Z 0) with 0%Q. lra.
    + exact Hpos.
    + change (inject_Z (0 + 1)) with 1%Q. lra.
  - unfold Qceiling. rewrite (Qfloor_unique _ 0).
    + change (inject_Z (- 0)) with 0%Q. lra.
    + change (inject_Z 0) with 0%Q. lra.
    + change (inject_Z (0 + 1)) with 1%Q. lra.
Qed.

(** X24: [getHSL] reduces the hue by whole turns towards zero and keeps
    its sign: a hue in [0, 360) plus [k] turns gives the string of the hue
    itself, and so does a hue in (-360, 0] less [k] turns, so that a
    negative hue stays negative.  The platform prints equal numbers
    alike. *)
Theorem getHSL_turns h k s l a :
  (forall p q, (p == q)%Q -> show p = show q) ->
  0 <= k ->
  ((0 <= h)%Q -> (h < 360)%Q ->
   getHSL show (Num (h + 360 * inject_Z k)) s l a
   = getHSL show (Num h) s l a
   /\ strRem360 show (Num h) = show h)
  /\ ((-360 < h)%Q -> (h <= 0)%Q ->
      getHSL show (Num (h - 360 * inject_Z k)) s l a
      = getHSL show (Num h) s l a
      /\ strRem360 show (Num h) = show h).
Proof.
  intros Hshow Hk. split; intros H0 H1.
  - assert (E1 : strRem360 show (Num (h + 360 * inject_Z k)) = show h)
      by (apply Hshow, rem360_up; assumption).
    assert (E2 : strRem360 show (Num h) = show h)
      by (apply Hshow, rem360_pos; assumption).
    split; [|exact E2]. unfold getHSL. now rewrite E1, E2.
  - assert (E1 : strRem360 show (Num (h - 360 * inject_Z k)) = show h)
      by (apply Hshow, rem360_down; assumption).
    assert (E2 : strRem360 show (Num h) = show h)
      by (apply Hshow, rem360_neg; assumption).
    split; [|exact E2]. unfold getHSL. now rewrite E1, E2.
Qed.

End ColorFacts.

Section GraphicsUseFacts.
Import Graphics GraphicsUse.
Context `{C : Coercions}.

(** A clone holds what the buffer holds. *)
Lemma clone_same g : clone g = g.
Proof.
  destruct g as [[s|] [ss|] [fi|] i o a ac d]; reflexivity.
Qed.

(** ** The committed list only grows *)

Lemma cut_prefix g :
  flags_ok g -> _oldInstructions g `prefix_of` _oldInstructions (cut g).
Proof.
  intros Hok. destruct (_active g) eqn:Ha.
  - destruct (cut_active g Hok Ha) as (_ & -> & _). unfold rebuilt.
    apply prefix_app_r. reflexivity.
  - unfold cut. rewrite Ha. reflexivity.
Qed.

Lemma apply_prefix c g :
  reachable g -> c <> Clear ->
  _oldInstructions g `prefix_of` _oldInstructions (apply c g).
Proof.
  intros Hr Hc. pose proof (reachable_flags_ok g Hr) as Hok.
  destruct c as [p|s| |ctx|]; cbn [apply]; [| |congruence| |].
  - rewrite (proj1 (proj2 (applyPath_frame p g))). reflexivity.
  - rewrite (proj1 (proj2 (applyStyle_cut s g))). now apply cut_prefix.
  - unfold draw. cbn [fst]. destruct (_dirty g); reflexivity.
  - now rewrite clone_same.
Qed.

(** X9: on a buffer made with the public methods, no call other than
    [clear] rewrites what was committed: after any such calls the
    committed list still starts with the committed list of before. *)
Theorem committed_only_grows cs :
  forall g,
    reachable g -> Forall (fun c => c <> Clear) cs ->
    _oldInstructions g
      `prefix_of` _oldInstructions (foldl (fun g c => apply c g) g cs).
Proof.
  induction cs as [|c cs IH]; intros g Hr Hcs; cbn [foldl]; [reflexivity|].
  inversion Hcs as [|? ? Hc Hcs']; subst.
  etransitivity; [apply (apply_prefix c g Hr Hc)|].
  apply IH; [now constructor|exact Hcs'].
Qed.

(** ** What the buffers hold *)

Lemma startsWithBegin_rebuilt g :
  startsWithBegin (_oldInstructions g) -> startsWithBegin (rebuilt g).
Proof.
  unfold rebuilt. intros [->|[l' ->]]; right; eexists; reflexivity.
Qed.

(** X10: on every buffer made with the public methods, the merged list
    starts with the committed list, and both are empty or start with a
    begin-path instruction: a replay never continues a path that was
    open on the context. *)
Theorem reachable_lists g :
  reachable g ->
  _oldInstructions g `prefix_of` _instructions g
  /\ startsWithBegin (_instructions g)
  /\ startsWithBegin (_oldInstructions g).
Proof.
  induction 1 as [|c g Hr (IH1 & IH2 & IH3)].
  - repeat split; try (left; reflexivity). reflexivity.
  - pose proof (reachable_flags_ok g Hr) as Hok.
    assert (Hcut : _oldInstructions (cut g) `prefix_of` _instructions (cut g)
                   /\ startsWithBegin (_instructions (cut g))
                   /\ startsWithBegin (_oldInstructions (cut g))).
    { destruct (_active g) eqn:Ha.
      - destruct (cut_active g Hok Ha) as (-> & -> & _).
        repeat split; try now apply startsWithBegin_rebuilt. reflexivity.
      - unfold cut. rewrite Ha. auto. }
    destruct c as [p|s| |ctx|]; cbn [apply].
    + destruct (applyPath_frame p g) as (-> & -> & _). auto.
    + destruct (applyStyle_cut s g) as (-> & -> & _). exact Hcut.
    + repeat split; try (left; reflexivity). reflexivity.
    + unfold draw. cbn [fst]. destruct (_dirty g); [|auto].
      rewrite _updateInstructions_rebuilt.
      cbn [_oldInstructions _updateInstructions].
      repeat split; [|now apply startsWithBegin_rebuilt|exact IH3].
      unfold rebuilt. apply prefix_app_r. reflexivity.
    + rewrite clone_same. auto.
Qed.

(** ** Replaying *)

Lemma draw_shown ctx g :
  snd (draw ctx g) = ctx ++ snd (draw [] g)
  /\ forall ctx', snd (draw ctx' (fst (draw ctx g))) = ctx' ++ snd (draw [] g).
Proof.
  unfold draw. cbn [fst snd]. rewrite !replay_app. cbn [app].
  split; [reflexivity|]. intros ctx'. rewrite replay_app.
  destruct (_dirty g) eqn:E; [|now rewrite E].
  cbn [_dirty _updateInstructions]. rewrite E.
  now rewrite !_updateInstructions_rebuilt.
Qed.

(** X11: replay is idempotent.  Drawing a buffer [n] times appends the
    same instruction sequence [n] times, the one a single draw on an empty
    context produces, whether or not the buffer was dirty. *)
Theorem replay_idempotent n :
  forall ctx g,
    snd (drawN n ctx g) = ctx ++ concat (replicate n (snd (draw [] g))).
Proof.
  induction n as [|n IH]; intros ctx g; cbn [drawN replicate concat].
  - now rewrite app_nil_r.
  - rewrite IH. destruct (draw_shown ctx g) as [-> H2].
    specialize (H2 []). cbn [app] in H2. rewrite H2.
    now rewrite <- app_assoc.
Qed.

(** ** Shapes and gradients *)

Lemma polyStarLoop_length sides x y radius pointSize a angle :
  length (polyStarLoop sides x y radius pointSize a angle)
  = (sides * (if num_eqb pointSize (lit 1) then 1 else 2))%nat.
Proof.
  revert angle. induction sides as [|n IH]; intros angle; [reflexivity|].
  cbn [polyStarLoop]. rewrite length_app. cbn [length]. rewrite IH.
  destruct (num_eqb pointSize (lit 1)); cbn [negb length]; lia.
Qed.

Lemma polyStarLoop_lines sides x y radius pointSize a :
  forall angle,
    Forall (fun c => f c = ctx_lineTo)
      (polyStarLoop sides x y radius pointSize a angle).
Proof.
  induction sides as [|n IH]; intros angle; [constructor|].
  cbn [polyStarLoop]. apply Forall_app. split.
  - destruct (negb _); repeat constructor.
  - constructor; [reflexivity|apply IH].
Qed.

(** X12: [drawPolyStar] opens the subpath and appends one move-to
    followed by line-to instructions only: one per side for a polygon
    (the point size left out), two per side for a star. *)
Theorem drawPolyStar_records x y radius sides pointSize angle g :
  exists first lines,
    _activeInstructions (drawPolyStar x y radius sides pointSize angle g)
    = _activeInstructions g ++ first :: lines
    /\ f first = ctx_moveTo
    /\ Forall (fun c => f c = ctx_lineTo) lines
    /\ length lines = (sides * linesPerSide pointSize)%nat
    /\ _active (drawPolyStar x y radius sides pointSize angle g) = true
    /\ _dirty (drawPolyStar x y radius sides pointSize angle g) = true.
Proof.
  unfold drawPolyStar. cbn [_activeInstructions push_active mark _active _dirty].
  eexists _, _. split; [rewrite <- app_assoc; reflexivity|].
  split; [reflexivity|]. split; [apply polyStarLoop_lines|].
  split; [|split; reflexivity].
  rewrite polyStarLoop_length. reflexivity.
Qed.

Lemma colorStops_from colors ratios :
  forall k stops,
    colorStops k colors ratios = Some stops ->
    length stops = length colors
    /\ forall i c,
         colors !! i = Some c ->
         exists r,
           ratios !! (k + i)%nat = Some r
           /\ addsColorStop r c = true
           /\ stops !! i = Some (mkStop r c).
Proof.
  induction colors as [|c0 cs IH]; intros k stops; cbn [colorStops].
  - intros [= <-]. split; [reflexivity|]. intros i c Hi. discriminate.
  - destruct (ratios !! k) as [r0|] eqn:Er; [|discriminate].
    destruct (addsColorStop r0 c0) eqn:Ea; [|discriminate].
    destruct (colorStops (S k) cs ratios) as [rest|] eqn:Es; [|discriminate].
    intros [= <-]. destruct (IH (S k) rest Es) as [Hl Hs].
    split; [cbn [length]; now rewrite Hl|].
    intros [|i] c Hi.
    + cbn in Hi. injection Hi as <-. exists r0.
      rewrite Nat.add_0_r. auto.
    + cbn in Hi. destruct (Hs i c Hi) as (r & H1 & H2 & H3).
      exists r. rewrite Nat.add_succ_r. auto.
Qed.

Lemma colorStops_short colors ratios :
  forall k,
    (k <= length ratios)%nat ->
    (length ratios < k + length colors)%nat ->
    colorStops k colors ratios = None.
Proof.
  induction colors as [|c0 cs IH]; intros k Hk Hlen;
    cbn [colorStops length] in *.
  - lia.
  - destruct (ratios !! k) as [r0|] eqn:Er; [|reflexivity].
    destruct (addsColorStop r0 c0); [|reflexivity].
    apply lookup_lt_Some in Er.
    rewrite (IH (S k)); [reflexivity|lia|lia].
Qed.

(** X13: a gradient method raises an exception when there are fewer
    ratios than colours; a call that raises leaves the buffer as the guard
    left it, the subpath closed and the fill as it was; a call that
    returns has set as fill a gradient with one colour stop per colour,
    in order, each with the ratio at the same index, the ratios beyond
    the colours ignored. *)
Theorem gradient_stops colors ratios x0 y0 x1 y1 g :
  let c := BeginLinearGradientFill colors ratios x0 y0 x1 y1 in
  ((length ratios < length colors)%nat -> raises c = true)
  /\ (raises c = true ->
      beginLinearGradientFill colors ratios x0 y0 x1 y1 g = cut g)
  /\ (raises c = false ->
      exists stops,
        _fillInstructions
          (beginLinearGradientFill colors ratios x0 y0 x1 y1 g)
        = Some [setProp "fillStyle" (VLinearGradient x0 y0 x1 y1 stops)]
        /\ length stops = length colors
        /\ forall i col,
             colors !! i = Some col ->
             exists r,
               ratios !! i = Some r /\ stops !! i = Some (mkStop r col)).
Proof.
  intros c. subst c. unfold raises, beginLinearGradientFill, linearGradient.
  split; [|split].
  - intros Hlen. rewrite (colorStops_short colors ratios 0) by lia.
    now destruct (createsGradient _).
  - destruct (createsGradient _); [|reflexivity].
    destruct (colorStops 0 colors ratios); [discriminate|reflexivity].
  - destruct (createsGradient _); [|discriminate].
    destruct (colorStops 0 colors ratios) as [stops|] eqn:Es; [|discriminate].
    intros _. exists stops. split; [reflexivity|].
    destruct (colorStops_from colors ratios 0 stops Es) as [Hl Hs].
    split; [exact Hl|]. intros i col Hi.
    destruct (Hs i col Hi) as (r & H1 & _ & H3). exists r. auto.
Qed.

End GraphicsUseFacts.

(** * The demo game *)

Section GameFacts.
Import Graphics Game.

Lemma ltb_lt a b : ltb a b = true <-> (a < b)%Q.
Proof.
  unfold ltb. rewrite negb_true_iff. split.
  - intros H. apply Qnot_le_lt. intros Hle.
    apply Qle_bool_iff in Hle. congruence.
  - intros H. apply not_true_is_false. intros Hle.
    apply Qle_bool_iff in Hle. now apply Qlt_not_le in H.
Qed.

Lemma ltb_ge a b : ltb a b = false <-> (b <= a)%Q.
Proof.
  unfold ltb. rewrite negb_false_iff. apply Qle_bool_iff.
Qed.

(** X14: [placeInBounds] leaves an object that is not out of bounds where
    it is, and puts any object within bounds, provided the play field
    with its margins is not empty (width + 4 bounds and height + 4 bounds
    are not negative). *)
Theorem placeInBounds_in_bounds cv o bounds :
  (outOfBounds cv o bounds = false -> placeInBounds cv o bounds = o)
  /\ ((0 <= width cv + bounds * 4)%Q -> (0 <= height cv + bounds * 4)%Q ->
      outOfBounds cv (placeInBounds cv o bounds) bounds = false).
Proof.
  split.
  - unfold outOfBounds, placeInBounds. intros H.
    apply orb_false_iff in H as [H H4]. apply orb_false_iff in H as [H H3].
    apply orb_false_iff in H as [H1 H2].
    rewrite H3, H1. rewrite H4, H2. reflexivity.
  - intros Hw Hh. unfold outOfBounds, placeInBounds.
    destruct (ltb (width cv + bounds * 2) (x o)) eqn:E1;
      [|destruct (ltb (x o) (bounds * -2)) eqn:E2];
      cbn [x y];
      (destruct (ltb (height cv + bounds * 2) (y o)) eqn:E3;
       [|destruct (ltb (y o) (bounds * -2)) eqn:E4]);
      cbn [x y];
      repeat (apply orb_false_iff; split);
      apply ltb_ge;
      repeat match goal with
             | H : ltb _ _ = true |- _ => apply ltb_lt in H
             | H : ltb _ _ = false |- _ => apply ltb_ge in H
             end; lra.
Qed.

Section Bullets.
Context `{C : Coercions}.

Lemma concat_replicate_snoc {A} n (l : list A) :
  concat (replicate n l) ++ l = concat (replicate (S n) l).
Proof.
  induction n as [|n IH]; cbn [replicate concat] in *.
  - now rewrite app_nil_r.
  - rewrite <- app_assoc, IH. reflexivity.
Qed.

(** The buffer of a bullet after [n + 1] shots from a new buffer. *)
Lemma reused_graphics n s o :
  bgraphics o = new ->
  exists instr,
    bgraphics (reused (S n) s o)
    = mkGraphics (Some [setProp "strokeStyle" (VStr "#FFFFFF")]) None None
        instr (concat (replicate n bulletStroke))
        [cmd ctx_moveTo [lit (-1); lit 0]; cmd ctx_lineTo [lit 1; lit 0]]
        true true.
Proof.
  intros Hnew. induction n as [|n [instr IH]].
  - cbn [reused fireBullet bgraphics]. rewrite Hnew. eexists. reflexivity.
  - change (reused (S (S n)) s o) with (fireBullet s (reused (S n) s o)).
    cbn [fireBullet bgraphics]. rewrite IH.
    rewrite <- concat_replicate_snoc.
    unfold beginStroke, cut. cbn [_active]. unfold _newPath. cbn [_dirty].
    rewrite _updateInstructions_rebuilt. eexists. reflexivity.
Qed.

(** X15: a pooled bullet is never cleared.  After [n >= 1] shots that
    reused the same shape, starting from a new buffer, drawing it replays
    [n] stroked segments, one per shot. *)
Theorem reused_bullet_replays n s o ctx :
  bgraphics o = new -> (1 <= n)%nat ->
  snd (draw ctx (bgraphics (reused n s o)))
  = ctx ++ concat (replicate n bulletStroke).
Proof.
  intros Hnew Hn. destruct n as [|n]; [lia|].
  destruct (reused_graphics n s o Hnew) as [instr ->].
  unfold draw. cbn [_dirty snd fst]. rewrite replay_app.
  rewrite _updateInstructions_rebuilt. unfold rebuilt.
  cbn [_oldInstructions _activeInstructions styleSetting styleExec
       _fillInstructions _strokeInstructions _strokeStyleInstructions
       default app].
  rewrite <- concat_replicate_snoc. reflexivity.
Qed.

End Bullets.

End GameFacts.

(** * Further properties of the stage *)

Section StageMoreFacts.
Import EaselMouseEvent Stage StageMore.

(** ** Moves outside the canvas *)

Lemma _updateMousePosition_outside pageX pageY s c :
  canvas s = Some c ->
  ~ (0 <= pageX - totalLeft (element c) < width c
     /\ 0 <= pageY - totalTop (element c) < height c) ->
  _updateMousePosition pageX pageY s
  = Some (mkStage (canvas s) (mouseX s) (mouseY s) (Stage.onMouseMove s)
            (Stage.onMouseUp s) (onMouseDown s) false
            (_activeEaselMouseEvent s) (_activeMouseEvent s)
            (_activeMouseTarget s) (_mouseOverIntervalID s)).
Proof.
  intros Hc Hout. unfold _updateMousePosition.
  rewrite Hc, offsets_total.
  set (x := pageX - totalLeft (element c)) in *.
  set (y := pageY - totalTop (element c)) in *.
  destruct (bool_decide (0 <= x)) eqn:E1, (bool_decide (0 <= y)) eqn:E2,
    (bool_decide (x < width c)) eqn:E3, (bool_decide (y < height c)) eqn:E4;
    cbn [andb]; try reflexivity.
  apply bool_decide_eq_true in E1, E2, E3, E4. lia.
Qed.

(** X16: while the pointer stays outside the canvas, a move changes
    nothing on the stage and invokes no handler; the move that takes the
    pointer out of the canvas is still dispatched, with the last position
    inside the canvas as its coordinates. *)
Theorem move_outside e s c :
  canvas s = Some c ->
  ~ (0 <= pageX e - totalLeft (element c) < width c
     /\ 0 <= pageY e - totalTop (element c) < height c) ->
  (mouseInBounds s = false -> _handleMouseMove e s = (s, []))
  /\ (mouseInBounds s = true ->
      let evt := EaselMouseEvent.new "onMouseMove" (mouseX s) (mouseY s)
                   TheStage e in
      mouseInBounds (fst (_handleMouseMove e s)) = false
      /\ mouseX (fst (_handleMouseMove e s)) = mouseX s
      /\ mouseY (fst (_handleMouseMove e s)) = mouseY s
      /\ snd (_handleMouseMove e s)
         = call_if (Stage.onMouseMove s) evt
             ++ match _activeEaselMouseEvent s with
                | Some a => call_if (EaselMouseEvent.onMouseMove a) evt
                | None => []
                end).
Proof.
  intros Hc Hout. unfold _handleMouseMove.
  rewrite Hc, (_updateMousePosition_outside _ _ s c Hc Hout).
  cbn [default from_option id mouseInBounds mouseX mouseY
       Stage.onMouseMove _activeEaselMouseEvent].
  split; intros Hb; rewrite Hb; cbn [negb andb fst snd].
  - f_equal. destruct s; cbn in *. now subst.
  - auto.
Qed.

(** ** One click per press *)

Lemma _handleMouseDown_miss sc e s :
  (forall args, _getObjectsUnderPoint sc args = None) ->
  fst (_handleMouseDown sc e s) = s.
Proof.
  intros Hmiss. unfold _handleMouseDown. now rewrite Hmiss.
Qed.

Lemma run_no_target evs :
  forall s,
    Forall noHit evs -> _activeMouseTarget s = None ->
    _activeMouseTarget (fst (run evs s)) = None.
Proof.
  induction evs as [|ev evs IH]; intros s Hevs Ht; [exact Ht|].
  inversion Hevs as [|? ? Hev Hevs']; subst.
  cbn [run fst]. apply IH; [exact Hevs'|].
  destruct ev as [sc e|e|sc e]; cbn [handle].
  - cbn [noHit] in Hev. now rewrite _handleMouseDown_miss.
  - now rewrite (proj1 (_handleMouseMove_target e s)).
  - reflexivity.
Qed.

(** X17: a release ends the press.  After a release, whatever moves,
    releases and presses that hit nothing follow, the next release
    dispatches no click event: a click needs a press that hit an object
    since the last release. *)
Theorem no_click_without_press s sc1 e1 evs sc2 e2 :
  Forall noHit evs ->
  clicks (snd (_handleMouseUp sc2 e2
                 (fst (run evs (fst (_handleMouseUp sc1 e1 s))))))
  = [].
Proof.
  intros Hevs. rewrite _handleMouseUp_clicks.
  rewrite run_no_target; [reflexivity|exact Hevs|reflexivity].
Qed.

(** ** The root of the display list *)

Lemma topmost_root : forall o, parentOf (topmost o) = None.
Proof.
  fix IH 1. intros [u s [p|]]; cbn [topmost]; [apply IH|reflexivity].
Qed.

Lemma topmost_idem o : topmost (topmost o) = topmost o.
Proof.
  pose proof (topmost_root o) as H.
  destruct (topmost o) as [u s [p|]]; [discriminate|reflexivity].
Qed.

Lemma chain_topmost : forall o, chain o (topmost o).
Proof.
  fix IH 1. intros [u s [p|]]; cbn [topmost].
  - apply chain_step with p; [reflexivity|apply IH].
  - apply chain_refl.
Qed.

Lemma chain_root o r :
  chain o r -> parentOf r = None -> r = topmost o.
Proof.
  induction 1 as [o|o p r Hp _ IH]; intros Hr.
  - destruct o as [u s [q|]]; [discriminate|reflexivity].
  - destruct o as [u s [q|]]; [|discriminate].
    cbn in Hp. injection Hp as ->. cbn [topmost]. now apply IH.
Qed.

(** X18: [findStage] returns the top of the parent chain when that is
    a stage and [null] otherwise.  It returns [r] exactly when [r] is on
    the chain of parents of the object (the object itself included), has
    no parent and is a stage; it returns [null] exactly when the object
    on the chain that has no parent is not a stage.  A returned object
    is its own answer, and an object with a parent gets the answer its
    parent gets. *)
Theorem findStage_root o :
  (forall r,
     findStage o = Some r
     <-> chain o r /\ parentOf r = None /\ instanceofStage r = true)
  /\ (findStage o = None
      <-> forall r, chain o r -> parentOf r = None ->
                    instanceofStage r = false)
  /\ (forall r, findStage o = Some r -> findStage r = Some r)
  /\ (forall p, parentOf o = Some p -> findStage o = findStage p).
Proof.
  split; [|split; [|split]].
  - intros r. unfold findStage. split.
    + destruct (instanceofStage (topmost o)) eqn:E; [|discriminate].
      intros [= <-]. split; [apply chain_topmost|].
      split; [apply topmost_root|exact E].
    + intros (Hc & Hp & Hs). rewrite (chain_root o r Hc Hp) in Hs |- *.
      now rewrite Hs.
  - unfold findStage. split.
    + destruct (instanceofStage (topmost o)) eqn:E; [discriminate|].
      intros _ r Hc Hp. now rewrite (chain_root o r Hc Hp).
    + intros Hall.
      rewrite (Hall (topmost o) (chain_topmost o) (topmost_root o)).
      reflexivity.
  - unfold findStage. intros r Hr.
    destruct (instanceofStage (topmost o)) eqn:E; [|discriminate].
    injection Hr as <-. now rewrite topmost_idem, E.
  - intros p Hp. destruct o as [u s [q|]]; [|discriminate].
    cbn in Hp. injection Hp as ->. reflexivity.
Qed.

(** ** The mouse-over poll *)

(** X19: the poll is quiet when nothing changed: polling again, with
    the pointer and the display list as they were, invokes no handler and
    leaves the mouse-over fields as the first poll left them. *)
Theorem poll_again_quiet sc s o :
  _testMouseOver sc s (fst (_testMouseOver sc s o))
  = (fst (_testMouseOver sc s o), []).
Proof.
  assert (Hin : mouseInBounds s = true -> forall tg,
            _testMouseOver sc s (mkOver (Val (mouseX s)) (Val (mouseY s)) tg)
            = (mkOver (Val (mouseX s)) (Val (mouseY s)) tg, [])).
  { intros Hb tg. unfold _testMouseOver.
    cbn [_mouseOverX _mouseOverY sameCoord].
    rewrite !bool_decide_eq_true_2 by reflexivity. now rewrite Hb. }
  assert (Hout : mouseInBounds s = false -> forall x y,
            _testMouseOver sc s (mkOver x y None) = (mkOver x y None, [])).
  { intros Hb x y. unfold _testMouseOver. rewrite Hb, andb_false_r.
    cbn [_mouseOverTarget]. destruct (decide _); [reflexivity|contradiction]. }
  destruct (mouseInBounds s) eqn:Hb.
  - specialize (Hin eq_refl). clear Hout.
    unfold _testMouseOver at 2 3. rewrite Hb, andb_true_r.
    destruct (sameCoord (mouseX s) (_mouseOverX o)
              && sameCoord (mouseY s) (_mouseOverY o)) eqn:E.
    + cbn [fst]. unfold _testMouseOver. now rewrite Hb, andb_true_r, E.
    + cbn [_mouseOverTarget _mouseOverX _mouseOverY].
      destruct (decide _); cbn [fst]; apply Hin.
  - specialize (Hout eq_refl). clear Hin.
    unfold _testMouseOver at 2 3. rewrite Hb, andb_false_r.
    destruct (decide (_mouseOverTarget o = None)) as [Eq|Ne]; cbn [fst].
    + destruct o as [x y t]. cbn in Eq. subst t. apply Hout.
    + apply Hout.
Qed.

(** X20: when the pointer is outside the canvas, the poll forgets the
    object the pointer was over and tells it so once: the object's
    mouse-out handler is the only handler invoked, and the hit test is not
    consulted. *)
Theorem poll_outside sc s o old :
  mouseInBounds s = false -> _mouseOverTarget o = Some old ->
  _testMouseOver sc s o
  = (mkOver (_mouseOverX o) (_mouseOverY o) None,
     match onMouseOut sc old with
     | Some h => [CallOver h "onMouseOut" (mouseX s) (mouseY s) old]
     | None => []
     end).
Proof.
  intros Hb Ht. unfold _testMouseOver. rewrite Hb, andb_false_r, Ht.
  destruct (decide _) as [?|_]; [discriminate|].
  now rewrite app_nil_r.
Qed.

(** ** The polling timer *)

Lemma min50_bounds f :
  (0 < f)%Q -> (0 < min50 f)%Q /\ (min50 f <= 50)%Q.
Proof.
  intros Hf. unfold min50. destruct (Qle_bool 50 f) eqn:E.
  - split; lra.
  - split; [exact Hf|].
    apply Qlt_le_weak, Qnot_le_lt. intros Hle.
    apply Qle_bool_iff in Hle. congruence.
Qed.

Lemma period_at_least_20 f : (0 < f)%Q -> (20 <= 1000 / min50 f)%Q.
Proof.
  intros Hf. destruct (min50_bounds f Hf) as [Hpos Hle].
  apply Qle_shift_div_l; [exact Hpos|]. lra.
Qed.

Lemma enableMouseOver_oneTimer f st :
  oneTimer st -> oneTimer (enableMouseOver f st).
Proof.
  destruct st as [[s o] tm]. intros [Hn Hid]. unfold enableMouseOver.
  assert (Hclear :
    let '(s1, tm1) :=
      match _mouseOverIntervalID s with
      | Some (S id) => (set_intervalID None s, clearInterval (S id) tm)
      | _ => (s, tm)
      end in
    _mouseOverIntervalID s1 = None /\ running tm1 = []
    /\ nextId tm1 = nextId tm).
  { destruct (_mouseOverIntervalID s) as [[|id]|] eqn:E.
    - destruct Hid as [Hid _]. lia.
    - destruct Hid as [_ (period & Hrun & _)].
      cbn [set_intervalID _mouseOverIntervalID clearInterval running nextId].
      rewrite Hrun. cbn [List.filter fst]. rewrite Nat.eqb_refl. auto.
    - auto. }
  destruct (match _mouseOverIntervalID s with
            | Some (S id) => _
            | _ => _
            end) as [s1 tm1].
  destruct Hclear as (H1 & H2 & H3).
  destruct (Qle_bool f 0) eqn:Ef.
  - unfold oneTimer. rewrite H1, H3. auto.
  - unfold oneTimer, setInterval.
    cbn [set_intervalID _mouseOverIntervalID running nextId].
    rewrite H2, H3. split; [lia|]. split; [lia|].
    eexists. split; [reflexivity|].
    apply period_at_least_20. apply Qnot_le_lt. intros Hle.
    apply Qle_bool_iff in Hle. congruence.
Qed.

(** X21: however often [enableMouseOver] is called on a new stage, and
    with whatever frequencies, the stage never has more than one polling
    timer running, the timer's period is at least 20 ms (50 polls a
    second at most), and no timer is left running after a call with a
    frequency of 0 or less. *)
Theorem one_polling_timer fs cv f :
  let st := foldl (fun st f => enableMouseOver f st)
              (Stage.new cv, overInit, mkTimers [] 1) fs in
  oneTimer st
  /\ (Qle_bool f 0 = true ->
      running (snd (enableMouseOver f st)) = []
      /\ _mouseOverIntervalID (fst (fst (enableMouseOver f st))) = None).
Proof.
  intros st.
  assert (H : oneTimer st).
  { subst st.
    assert (H0 : oneTimer (Stage.new cv, overInit, mkTimers [] 1))
      by (cbn; auto).
    revert H0. generalize (Stage.new cv, overInit, mkTimers [] 1).
    induction fs as [|f0 fs IH]; intros st0 H0; cbn [foldl];
      [exact H0|].
    apply IH. now apply enableMouseOver_oneTimer. }
  split; [exact H|]. intros Hf.
  destruct st as [[s o] tm]. unfold oneTimer in H. destruct H as [_ H].
  unfold enableMouseOver.
  destruct (_mouseOverIntervalID s) as [[|id]|] eqn:Eid; rewrite Hf;
    cbn [fst snd].
  - destruct H as [Hid _]. lia.
  - destruct H as [_ (p & Hrun & _)].
    cbn [set_intervalID _mouseOverIntervalID clearInterval running].
    rewrite Hrun. cbn [List.filter fst]. rewrite Nat.eqb_refl. auto.
  - auto.
Qed.

(** ** Cloning a stage *)

(** X22: [clone] never returns a stage, and every call leaks.  The
    constructor it calls with a [null] canvas registers its three
    listeners on the window and then fails with a [TypeError] when it
    reaches for the canvas: after [n] calls the window has [3 n] more
    listeners, the canvas has the ones it had, and there is no clone. *)
Theorem clone_throws cloneProps s n :
  forall l,
    fst (clones cloneProps s n l)
    = replicate n (ColorMatrixFilter.Throw ColorMatrixFilter.TypeError)
    /\ onWindow (snd (clones cloneProps s n l))
       = onWindow l
           ++ concat (replicate n
                        ["mouseup"; "mousemove"; "dblclick"]%string)
    /\ onCanvas (snd (clones cloneProps s n l)) = onCanvas l.
Proof.
  induction n as [|n IH]; intros l; cbn [clones replicate concat].
  - rewrite app_nil_r. auto.
  - unfold clone, construct.
    specialize (IH (mkListeners
                      (onWindow l
                         ++ ["mouseup"; "mousemove"; "dblclick"]%string)
                      (onCanvas l))).
    destruct (clones cloneProps s n _) as [rs l2].
    cbn [fst snd onWindow onCanvas] in *.
    destruct IH as (H1 & H2 & H3).
    rewrite H1, H2, H3, <- app_assoc. auto.
Qed.

End StageMoreFacts.

(** * Further properties of the colour matrix filter *)

Section FilterMoreFacts.
Import ColorMatrixFilter.
Context `{A : Arith}.

Lemma pixel_length mtx d i : length (pixel mtx d i) = length d.
Proof. unfold pixel. now rewrite !length_insert. Qed.

Lemma applyMatrix_length mtx d : length (applyMatrix mtx d) = length d.
Proof.
  unfold applyMatrix. generalize (indices (length d)). intros ixs.
  revert d. induction ixs as [|i ixs IH]; intros d; cbn [foldl];
    [reflexivity|].
  now rewrite IH, pixel_length.
Qed.

(** X23: the pixel loop keeps the length of the pixel array, whatever
    the array holds; and on an array of whole pixels it works pixel by
    pixel: the channels of pixel [k] of the result are the matrix applied
    to the channels of pixel [k] of the input, whatever the other pixels
    are. *)
Theorem applyMatrix_pixelwise mtx d pxs k px j :
  length (applyMatrix mtx d) = length d
  /\ (pxs !! k = Some px -> (j < 4)%nat ->
      applyMatrix mtx (flatten pxs) !! (4 * k + j)%nat
      = transform mtx px !! j).
Proof.
  split; [apply applyMatrix_length|].
  intros Hk Hj. rewrite applyMatrix_pixels. now apply transform_lookup.
Qed.

End FilterMoreFacts.

(** * Properties of the text display *)

Section DisplayTextFacts.
Import DisplayText.
Context `{M : Metrics}.

(** ** Lines *)

Lemma cons_head_concat c ls :
  ls <> [] -> concat (cons_head c ls) = c :: concat ls.
Proof. destruct ls; [contradiction|reflexivity]. Qed.

Lemma cons_head_nonempty c ls : cons_head c ls <> [].
Proof. destruct ls; discriminate. Qed.

Lemma splitLines_nonempty t : splitLines t <> [].
Proof.
  destruct t as [|c t]; cbn [splitLines]; [discriminate|].
  destruct (N.eqb c CR).
  - destruct t as [|c' t]; [discriminate|]. destruct (N.eqb c' LF); discriminate.
  - destruct (N.eqb c LF); [discriminate|apply cons_head_nonempty].
Qed.

Lemma cons_head_Forall (P : N -> Prop) c ls :
  P c -> Forall (Forall P) ls -> Forall (Forall P) (cons_head c ls).
Proof.
  intros Hc Hls. destruct ls as [|l ls]; cbn [cons_head].
  - repeat constructor. exact Hc.
  - inversion Hls; subst. constructor; [constructor|]; assumption.
Qed.

Lemma splitLines_bounded n :
  forall t,
    (length t <= n)%nat ->
    Forall (Forall (fun c => isBreak c = false)) (splitLines t)
    /\ concat (splitLines t) = List.filter (fun c => negb (isBreak c)) t
    /\ (Forall (fun c => isBreak c = false) t -> splitLines t = [t]).
Proof.
  induction n as [|n IH]; intros t Hn.
  - destruct t; [|cbn in Hn; lia]. cbn. repeat constructor.
  - destruct t as [|c t]; [cbn; repeat constructor|].
    cbn [length] in Hn. cbn [splitLines List.filter].
    destruct (N.eqb c CR) eqn:Ecr.
    + assert (Hc : isBreak c = true) by (unfold isBreak; now rewrite Ecr).
      assert (Hbr : ~ Forall (fun c => isBreak c = false) (c :: t)).
      { intros H. inversion H; subst. congruence. }
      rewrite Hc. cbn [negb].
      destruct t as [|c' t].
      * cbn. repeat constructor. intros H. contradiction.
      * cbn [length] in Hn. destruct (N.eqb c' LF) eqn:Elf.
        -- assert (Hc' : isBreak c' = true)
             by (unfold isBreak; rewrite Elf; apply orb_true_r).
           destruct (IH t ltac:(lia)) as (H1 & H2 & _).
           split; [constructor; [constructor|exact H1]|].
           split; [|intros H; contradiction].
           cbn [concat app List.filter]. rewrite Hc'. exact H2.
        -- destruct (IH (c' :: t) ltac:(cbn; lia)) as (H1 & H2 & _).
           split; [constructor; [constructor|exact H1]|].
           split; [|intros H; contradiction].
           cbn [concat app]. exact H2.
    + destruct (N.eqb c LF) eqn:Elf.
      * assert (Hc : isBreak c = true)
          by (unfold isBreak; rewrite Elf; apply orb_true_r).
        rewrite Hc. cbn [negb].
        destruct (IH t ltac:(lia)) as (H1 & H2 & _).
        split; [constructor; [constructor|exact H1]|].
        split; [exact H2|]. intros H. inversion H; subst. congruence.
      * assert (Hc : isBreak c = false)
          by (unfold isBreak; now rewrite Ecr, Elf).
        rewrite Hc. cbn [negb].
        destruct (IH t ltac:(lia)) as (H1 & H2 & H3).
        split; [apply cons_head_Forall; assumption|].
        split.
        { rewrite cons_head_concat by apply splitLines_nonempty.
          now rewrite H2. }
        intros H. inversion H as [|? ? _ Ht]; subst.
        now rewrite (H3 Ht).
Qed.

(** X25: the lines [draw] works on hold no carriage return and no line
    feed, and put together they are the text without its carriage
    returns and line feeds; a text without any is a single line. *)
Theorem splitLines_breaks t :
  Forall (Forall (fun c => isBreak c = false)) (splitLines t)
  /\ concat (splitLines t) = List.filter (fun c => negb (isBreak c)) t
  /\ (Forall (fun c => isBreak c = false) t -> splitLines t = [t]).
Proof. apply (splitLines_bounded (length t)). lia. Qed.

(** ** Rows *)

Section Rows.
Variable self : displayText.
Variable lh : num.

Lemma texts_app ctx1 ctx2 : texts (ctx1 ++ ctx2) = texts ctx1 ++ texts ctx2.
Proof. apply omap_app. Qed.

Lemma texts_drawTextLine ctx t y :
  texts (_drawTextLine self ctx t y) = texts ctx ++ [(t, y)].
Proof.
  unfold _drawTextLine. destruct (outline self); now rewrite texts_app.
Qed.

Lemma onRows_draw T strs ctx y s :
  onRows lh T strs (ctx, y) ->
  onRows lh T (strs ++ [s]) (_drawTextLine self ctx s y, add y lh).
Proof.
  intros [Ht Hy]. cbn [fst snd] in *. split; cbn [fst snd].
  - rewrite texts_drawTextLine, Ht, length_app. cbn [length].
    rewrite Nat.add_1_r, seq_S, map_app, zip_with_app
      by (now rewrite length_map, length_seq).
    cbn [map zip_with Nat.add]. rewrite Hy. now rewrite <- app_assoc.
  - rewrite length_app. cbn [length]. rewrite Nat.add_1_r, Hy. reflexivity.
Qed.

Lemma wrap_onRows lw T pairs :
  forall strs ctx y str,
    onRows lh T strs (ctx, y) ->
    exists more,
      onRows lh T (strs ++ more)
        (fst (foldl (wrapWord self lh lw) (ctx, y, str) pairs)).
Proof.
  induction pairs as [|[sep word] pairs IH]; intros strs ctx y str HR.
  - exists []. now rewrite app_nil_r.
  - cbn [foldl wrapWord].
    destruct (lt lw (measureText (str ++ [sep] ++ word))).
    + destruct (IH (strs ++ [str]) _ _ word
                  (onRows_draw T strs ctx y str HR)) as [more Hm].
      exists (str :: more). rewrite <- app_assoc in Hm. exact Hm.
    + now apply IH.
Qed.

Lemma drawLine_onRows T strs st line :
  onRows lh T strs st ->
  exists more,
    onRows lh T (strs ++ more) (drawLine self lh st line)
    /\ (1 <= length more)%nat
    /\ (lineWidth self = None -> more = [line]).
Proof.
  destruct st as [ctx y]. intros HR. unfold drawLine.
  destruct (lineWidth self) as [lw|].
  - destruct (lt (measureText line) lw).
    + exists [line]. split; [now apply onRows_draw|]. split; [cbn; lia|auto].
    + destruct (splitWords line) as [first pairs].
      destruct (wrap_onRows lw T pairs strs ctx y first HR) as [more Hm].
      destruct (foldl (wrapWord self lh lw) (ctx, y, first) pairs)
        as [[ctx' y'] str'].
      cbn [fst] in Hm. exists (more ++ [str']).
      rewrite app_assoc. split; [now apply onRows_draw|].
      split; [rewrite length_app; cbn; lia|discriminate].
  - exists [line]. split; [now apply onRows_draw|]. split; [cbn; lia|auto].
Qed.

Lemma lines_onRows T lines :
  forall strs st,
    onRows lh T strs st ->
    exists more,
      onRows lh T (strs ++ more) (foldl (drawLine self lh) st lines)
      /\ (length lines <= length more)%nat
      /\ (lineWidth self = None -> more = lines).
Proof.
  induction lines as [|line lines IH]; intros strs st HR.
  - exists []. rewrite app_nil_r. auto.
  - cbn [foldl].
    destruct (drawLine_onRows T strs st line HR) as (m1 & H1 & L1 & N1).
    destruct (IH _ _ H1) as (m2 & H2 & L2 & N2).
    exists (m1 ++ m2). rewrite app_assoc. split; [exact H2|].
    split; [rewrite length_app; cbn [length]; lia|].
    intros Hn. now rewrite (N1 Hn), (N2 Hn).
Qed.

End Rows.

(** X26: when the cache did not take over, [draw] puts the texts on
    consecutive rows: the first at [y = 0] and each following one a line
    height below the one before, the line height being the [lineHeight]
    property or, without it, 1.2 times the measured width of an M.  At
    least one text is drawn per line, and exactly the lines when there
    is no [lineWidth]. *)
Theorem draw_rows DisplayObject_draw self ctx ignoreCache :
  snd (DisplayObject_draw self ctx ignoreCache) = false ->
  let lh := default (times1_2 (workingMeasureText (lit "M")))
              (lineHeight self) in
  exists strs,
    texts (fst (draw DisplayObject_draw self ctx ignoreCache))
    = texts (fst (DisplayObject_draw self ctx ignoreCache))
        ++ zip strs (map (row lh) (seq 0 (length strs)))
    /\ snd (draw DisplayObject_draw self ctx ignoreCache) = true
    /\ (length (splitLines (text_ self)) <= length strs)%nat
    /\ (lineWidth self = None -> strs = splitLines (text_ self)).
Proof.
  intros Hd lh. unfold draw.
  destruct (DisplayObject_draw self ctx ignoreCache) as [ctx0 handled].
  cbn [snd fst] in *. subst handled.
  set (ctx1 := (((ctx0 ++ _) ++ _) ++ _) ++ _).
  assert (H1 : onRows lh (texts ctx0) [] (ctx1, zero)).
  { split; cbn [fst snd length seq map zip_with]; [|reflexivity].
    subst ctx1. rewrite !texts_app, app_nil_r.
    destruct (outline self); cbn; now rewrite !app_nil_r. }
  destruct (lines_onRows self lh (texts ctx0) (splitLines (text_ self))
              [] _ H1) as (strs & [Ht _] & Hl & Hn).
  exists strs. cbn [app] in Ht.
  replace (match lineHeight self with
           | Some h => h
           | None => getMeasuredLineHeight self
           end) with lh
    by (subst lh; now destruct (lineHeight self)).
  auto.
Qed.

(** ** Wrapping *)

Lemma splitWords_spec t :
  Forall (fun c => isSpace c = false) (fst (splitWords t))
  /\ Forall (fun p => isSpace (fst p) = true
                      /\ Forall (fun c => isSpace c = false) (snd p))
       (snd (splitWords t))
  /\ fst (splitWords t)
       ++ concat (map (fun p => fst p :: snd p) (snd (splitWords t)))
     = t.
Proof.
  induction t as [|c t (IH1 & IH2 & IH3)]; [cbn; auto|].
  cbn [splitWords]. destruct (splitWords t) as [w rest]. cbn [fst snd] in *.
  destruct (isSpace c) eqn:Ec; cbn [fst snd map concat app].
  - split; [constructor|]. split; [constructor; [auto|exact IH2]|].
    cbn. now rewrite IH3.
  - split; [constructor; assumption|]. split; [exact IH2|].
    now rewrite IH3.
Qed.

Lemma visible_app a b : visible (a ++ b) = visible a ++ visible b.
Proof. apply List.filter_app. Qed.

Lemma visible_word w :
  Forall (fun c => isSpace c = false) w -> visible w = w.
Proof.
  induction 1 as [|c w Hc _ IH]; [reflexivity|].
  unfold visible in *. cbn [List.filter]. rewrite Hc. cbn [negb].
  now rewrite IH.
Qed.

Lemma wrap_fits self lh lw (pairs : list (N * text)) :
  forall (ctx : context) (y : num) (str : text),
    fits lw str ->
    Forall (fun p => isSpace (fst p) = true
                     /\ Forall (fun c => isSpace c = false) (snd p)) pairs ->
    exists new,
      texts (fst (fst (foldl (wrapWord self lh lw) (ctx, y, str) pairs)))
      = texts ctx ++ new
      /\ Forall (fits lw) (map fst new)
      /\ fits lw (snd (foldl (wrapWord self lh lw) (ctx, y, str) pairs))
      /\ visible (concat (map fst new)
                  ++ snd (foldl (wrapWord self lh lw) (ctx, y, str) pairs))
         = visible
             (str ++ concat (map (fun p => fst p :: snd p) pairs)).
Proof.
  induction pairs as [|[sep word] pairs IH]; intros ctx y str Hs Hp.
  - exists []. cbn. rewrite !app_nil_r. auto.
  - inversion Hp as [|? ? [Hsep Hword] Hp']; subst. cbn [fst snd] in *.
    cbn [foldl wrapWord].
    destruct (lt lw (measureText (str ++ [sep] ++ word))) eqn:E.
    + destruct (IH (_drawTextLine self ctx str y) (add y lh) word
                  ltac:(right; right; exact Hword) Hp')
        as (new & H1 & H2 & H3 & H4).
      exists ((str, y) :: new).
      rewrite H1, texts_drawTextLine, <- app_assoc.
      split; [reflexivity|]. split; [constructor; assumption|].
      split; [exact H3|].
      cbn [map fst concat]. rewrite <- app_assoc, visible_app, H4.
      cbn [map concat fst snd]. rewrite !visible_app.
      f_equal. rewrite <- visible_app.
      change (sep :: word) with ([sep] ++ word).
      rewrite !visible_app. unfold visible at 3.
      cbn [List.filter]. rewrite Hsep. reflexivity.
    + destruct (IH ctx y (str ++ [sep] ++ word)
                  ltac:(right; left; exact E) Hp')
        as (new & H1 & H2 & H3 & H4).
      exists new. split; [exact H1|]. split; [exact H2|].
      split; [exact H3|]. etransitivity; [exact H4|].
      cbn [map concat fst snd]. now rewrite <- !app_assoc.
Qed.

Lemma drawLine_new self lh ctx y line :
  exists new,
    texts (fst (drawLine self lh (ctx, y) line)) = texts ctx ++ new
    /\ (forall lw, lineWidth self = Some lw -> Forall (fits lw) (map fst new))
    /\ visible (concat (map fst new)) = visible line.
Proof.
  unfold drawLine.
  assert (Hwhole : forall P : text -> Prop,
            P line ->
            exists new,
              texts (fst (_drawTextLine self ctx line y, add y lh))
              = texts ctx ++ new
              /\ Forall P (map fst new)
              /\ visible (concat (map fst new)) = visible line).
  { intros P HP. exists [(line, y)]. cbn [fst].
    rewrite texts_drawTextLine. split; [reflexivity|].
    split; [repeat constructor; exact HP|].
    cbn. now rewrite app_nil_r. }
  destruct (lineWidth self) as [lw|] eqn:Elw.
  - destruct (lt (measureText line) lw) eqn:E.
    + destruct (Hwhole (fits lw) ltac:(left; exact E)) as (new & H1 & H2 & H3).
      exists new. split; [exact H1|]. split; [|exact H3].
      now intros lw' [= <-].
    + destruct (splitWords_spec line) as (Hf & Hp & Hjoin).
      destruct (splitWords line) as [first pairs]. cbn [fst snd] in *.
      destruct (wrap_fits self lh lw pairs ctx y first
                  ltac:(right; right; exact Hf) Hp)
        as (new & H1 & H2 & H3 & H4).
      destruct (foldl (wrapWord self lh lw) (ctx, y, first) pairs)
        as [[ctx' y'] str'].
      cbn [fst snd] in H1, H3, H4.
      exists (new ++ [(str', y')]). cbn [fst].
      rewrite texts_drawTextLine, H1, <- app_assoc.
      split; [reflexivity|]. split.
      * intros lw' [= <-]. rewrite map_app. apply Forall_app.
        split; [exact H2|]. constructor; [exact H3|constructor].
      * rewrite map_app, concat_app. cbn [map concat fst].
        rewrite app_nil_r, H4, Hjoin. reflexivity.
  - destruct (Hwhole (fun _ => True) I) as (new & H1 & _ & H3).
    exists new. split; [exact H1|]. split; [discriminate|exact H3].
Qed.

(** X27: with a [lineWidth], each text that [draw] puts on a row for a
    line is narrower than the line width, or not wider than it, or a
    single word without white space: only a word that is too wide by
    itself is drawn wider than the line width. *)
Theorem wrapped_rows_fit self lh lw ctx y line :
  lineWidth self = Some lw ->
  exists new,
    texts (fst (drawLine self lh (ctx, y) line)) = texts ctx ++ new
    /\ Forall (fits lw) (map fst new).
Proof.
  intros Hlw. destruct (drawLine_new self lh ctx y line) as (new & H1 & H2 & _).
  exists new. split; [exact H1|]. now apply H2.
Qed.

(** X28: wrapping loses white space only: the texts drawn for a line,
    put together, have the characters of the line that are not white
    space, in the same order. *)
Theorem wrapping_keeps_visible self lh ctx y line :
  exists new,
    texts (fst (drawLine self lh (ctx, y) line)) = texts ctx ++ new
    /\ visible (concat (map fst new)) = visible line.
Proof.
  destruct (drawLine_new self lh ctx y line) as (new & H1 & _ & H3).
  exists new. auto.
Qed.

(** ** The description *)

(** X29: [toString] shows at most 20 characters of the text: the text
    itself when it has no more than 20, and otherwise its first 17
    followed by three dots. *)
Theorem toString_short self :
  exists shown,
    toString self = lit "[DisplayText (text=" ++ shown ++ lit ")]"
    /\ (length shown <= 20)%nat
    /\ take 17 shown = take 17 (text_ self)
    /\ ((length (text_ self) <= 20)%nat -> shown = text_ self)
    /\ ((20 < length (text_ self))%nat -> drop 17 shown = lit "...").
Proof.
  unfold toString. destruct (20 <? length (text_ self))%nat eqn:E.
  - apply Nat.ltb_lt in E. exists (take 17 (text_ self) ++ lit "...").
    split; [reflexivity|].
    assert (Hl : length (take 17 (text_ self)) = 17%nat)
      by (rewrite length_take; lia).
    split; [rewrite length_app, Hl; cbn; lia|].
    split; [rewrite take_app_le by lia; rewrite take_take; f_equal; lia|].
    split; [lia|]. intros _.
    rewrite drop_app_ge by lia. rewrite Hl. reflexivity.
  - apply Nat.ltb_ge in E. exists (text_ self).
    split; [reflexivity|]. split; [exact E|]. split; [reflexivity|].
    split; [reflexivity|lia].
Qed.

End DisplayTextFacts.

(** * Examples for the further properties *)

Section TickerRunExamples.
Import JS Ticker TickerRuns Scenario.

Lemma times_window_witness :
  _times (fst (_tick oneShot 1000 init))
  = take 100 ((1000 - _startTime init - 0) :: _times init).
Proof.
  assert (H : (length (_times init) <= 100)%nat) by (simpl; lia).
  exact (proj1 (times_window oneShot 1000 init []) H).
Defined.

Lemma unpaused_fire_snapshot_witness :
  snd (_tick oneShot 1000 runningPair)
  = everyone oneShot (elapsed 1000 runningPair) (_listeners runningPair).
Proof.
  exact (unpaused_fire_snapshot oneShot 1000 runningPair eq_refl).
Defined.

Lemma removeListener_registrations_witness :
  registrations (removeListener (Obj 1) runningPair)
  = others (Obj 1) (registrations runningPair).
Proof.
  assert (H : wellFormed runningPair).
  { split; [split; [vm_compute; lia|reflexivity]|].
    apply (bool_decide_unpack _). vm_compute. exact I. }
  exact (proj1 (removeListener_registrations (Obj 1) runningPair H)).
Defined.

Lemma registration_compose_witness :
  registrations
    (removeListener (Obj 3) (addListener (Obj 3) (Some true) runningPair))
  = registrations runningPair.
Proof.
  assert (H : wellFormed runningPair).
  { split; [split; [vm_compute; lia|reflexivity]|].
    apply (bool_decide_unpack _). vm_compute. exact I. }
  assert (Hfresh : Obj 3 ∉ _listeners runningPair).
  { apply (bool_decide_unpack _). vm_compute. exact I. }
  exact (proj2 (proj2 (registration_compose (Obj 3) (Some true) None
                         runningPair H)) Hfresh).
Defined.

Lemma getMeasuredFPS_even_witness :
  exists q,
    getMeasuredFPS None (run oneShot (evenFires 1000 16 4) init) = Fin q
    /\ (q == 1000 / inject_Z 16)%Q.
Proof.
  assert (Hd : 0 < 16) by lia.
  assert (Hn : (2 <= 4)%nat) by lia.
  assert (Hm : forall m : Z, None = Some m -> 0 <= m) by discriminate.
  exact (getMeasuredFPS_even oneShot 1000 16 4 None Hd Hn Hm).
Defined.

End TickerRunExamples.

Section ColorExamples.
Import GraphicsColors Scenario.

Lemma getRGB_hex_witness :
  getRGB showQ (Num (inject_Z 16744448)) Undefined Undefined Undefined
  = getRGB showQ (Num (inject_Z (16744448 / 65536)))
      (Num (inject_Z ((16744448 / 256) mod 256)))
      (Num (inject_Z (16744448 mod 256))) Undefined.
Proof.
  assert (H : 0 <= 16744448 < 2 ^ 24) by lia.
  exact (proj1 (getRGB_hex showQ 16744448 Undefined H)).
Defined.

Lemma showQ_value p q : (p == q)%Q -> showQ p = showQ q.
Proof. intros E. unfold showQ. now rewrite (Qred_complete p q E). Qed.

Lemma getHSL_turns_witness :
  getHSL showQ (Num (30 + 360 * inject_Z 2)) (Num 100) (Num 50) Undefined
  = getHSL showQ (Num 30) (Num 100) (Num 50) Undefined
  /\ strRem360 showQ (Num 30) = showQ 30.
Proof.
  assert (Hk : 0 <= 2) by lia.
  assert (H0 : (0 <= 30)%Q) by (unfold Qle; simpl; lia).
  assert (H1 : (30 < 360)%Q) by (unfold Qlt; simpl; lia).
  exact (proj1 (getHSL_turns showQ 30 2 (Num 100) (Num 50) Undefined
                  showQ_value Hk) H0 H1).
Defined.

End ColorExamples.

Section GraphicsUseExamples.
Import Graphics GraphicsUse Scenario.

Lemma committed_only_grows_witness :
  _oldInstructions openPath
    `prefix_of` _oldInstructions
                  (foldl (fun g c => apply c g) openPath
                     [Style (BeginFill (Some "green"%string))]).
Proof.
  assert (Hr : reachable openPath)
    by exact (reach_call (Path (LineTo 1 2)) new reach_new).
  assert (Hc : Forall (fun c => c <> Clear)
                 [Style (BeginFill (Some "green"%string))])
    by (repeat constructor; discriminate).
  exact (committed_only_grows [Style (BeginFill (Some "green"%string))]
           openPath Hr Hc).
Defined.

Lemma reachable_lists_witness :
  _oldInstructions openPath `prefix_of` _instructions openPath
  /\ startsWithBegin (_instructions openPath)
  /\ startsWithBegin (_oldInstructions openPath).
Proof.
  exact (reachable_lists openPath
           (reach_call (Path (LineTo 1 2)) new reach_new)).
Defined.

Lemma gradient_stops_witness :
  raises (BeginLinearGradientFill ["red"; "blue"]%string [0] 0 0 0 10) = true
  /\ beginLinearGradientFill ["red"; "blue"]%string [0] 0 0 0 10 openPath
     = cut openPath
  /\ exists stops,
       _fillInstructions
         (beginLinearGradientFill ["red"; "blue"]%string [0; 1; 2] 0 0 0 10
            openPath)
       = Some [setProp "fillStyle" (VLinearGradient 0 0 0 10 stops)]
       /\ length stops = 2%nat.
Proof.
  assert (Hlen : (length [0] < length ["red"; "blue"]%string)%nat)
    by (simpl; lia).
  split; [|split].
  - exact (proj1 (@gradient_stops intPlatform intCoercions ["red"; "blue"]%string [0] 0 0 0 10 openPath)
             Hlen).
  - exact (proj1 (proj2 (@gradient_stops intPlatform intCoercions ["red"; "blue"]%string [0] 0 0 0 10
                           openPath)) eq_refl).
  - destruct (proj2 (proj2 (@gradient_stops intPlatform intCoercions ["red"; "blue"]%string [0; 1; 2]
                              0 0 0 10 openPath)) eq_refl)
      as (stops & H1 & H2 & _).
    exists stops. split; [exact H1|exact H2].
Defined.

End GraphicsUseExamples.

Section GameExamples.
Import Graphics Game Scenario.

Lemma placeInBounds_in_bounds_witness :
  placeInBounds (Game.mkCanvas 100 100) (mkBody 50 50) 10 = mkBody 50 50
  /\ outOfBounds (Game.mkCanvas 100 100)
       (placeInBounds (Game.mkCanvas 100 100) (mkBody 500 (-70)) 10) 10
     = false.
Proof.
  assert (Hw : (0 <= Game.width (Game.mkCanvas 100 100) + 10 * 4)%Q)
    by (unfold Qle; simpl; lia).
  assert (Hh : (0 <= Game.height (Game.mkCanvas 100 100) + 10 * 4)%Q)
    by (unfold Qle; simpl; lia).
  split.
  - exact (proj1 (placeInBounds_in_bounds (Game.mkCanvas 100 100)
                    (mkBody 50 50) 10) eq_refl).
  - exact (proj2 (placeInBounds_in_bounds (Game.mkCanvas 100 100)
                    (mkBody 500 (-70)) 10) Hw Hh).
Defined.

Lemma reused_bullet_replays_witness :
  snd (draw [] (bgraphics (reused 2 restingShip freshBullet)))
  = [] ++ concat (replicate 2 bulletStroke).
Proof.
  assert (Hn : (1 <= 2)%nat) by lia.
  exact (reused_bullet_replays 2 restingShip freshBullet [] eq_refl Hn).
Defined.

End GameExamples.

Section StageMoreExamples.
Import EaselMouseEvent Stage StageMore Scenario.

Lemma move_outside_witness :
  mouseInBounds
    (fst (_handleMouseMove (mkNative 150 20)
            (fst (_handleMouseMove (mkNative 10 10)
                    (Stage.new (Some plainCanvas))))))
  = false.
Proof.
  assert (Hout :
    ~ (0 <= pageX (mkNative 150 20) - totalLeft (element plainCanvas)
         < width plainCanvas
       /\ 0 <= pageY (mkNative 150 20) - totalTop (element plainCanvas)
            < height plainCanvas))
    by (cbn; lia).
  exact (proj1 (proj2 (move_outside (mkNative 150 20)
                         (fst (_handleMouseMove (mkNative 10 10)
                                 (Stage.new (Some plainCanvas))))
                         plainCanvas eq_refl Hout) eq_refl)).
Defined.

Lemma no_click_without_press_witness :
  clicks (snd (_handleMouseUp dragScene (mkNative 20 20)
                 (fst (run [MouseMove (mkNative 20 20)]
                         (fst (_handleMouseUp dragScene (mkNative 10 10)
                                 (Stage.new (Some plainCanvas))))))))
  = [].
Proof.
  assert (H : Forall noHit [MouseMove (mkNative 20 20)])
    by (repeat constructor).
  exact (no_click_without_press (Stage.new (Some plainCanvas)) dragScene
           (mkNative 10 10) [MouseMove (mkNative 20 20)] dragScene
           (mkNative 20 20) H).
Defined.

Lemma findStage_root_witness :
  findStage aChild = Some theRoot
  /\ findStage theRoot = Some theRoot
  /\ findStage aChild = findStage theRoot.
Proof.
  assert (Hc : chain aChild theRoot)
    by (apply chain_step with theRoot; [reflexivity|apply chain_refl]).
  split; [|split].
  - exact (proj2 (proj1 (findStage_root aChild) theRoot)
             (conj Hc (conj eq_refl eq_refl))).
  - exact (proj1 (proj2 (proj2 (findStage_root aChild))) theRoot eq_refl).
  - exact (proj2 (proj2 (proj2 (findStage_root aChild))) theRoot eq_refl).
Defined.

Lemma poll_outside_witness :
  _testMouseOver emptyScene (Stage.new (Some plainCanvas))
    (mkOver NaN (Val None) (Some 1%nat))
  = (mkOver NaN (Val None) None,
     [CallOver 7%nat "onMouseOut" (mouseX (Stage.new (Some plainCanvas)))
        (mouseY (Stage.new (Some plainCanvas))) 1%nat]).
Proof.
  exact (poll_outside emptyScene (Stage.new (Some plainCanvas))
           (mkOver NaN (Val None) (Some 1%nat)) 1%nat eq_refl eq_refl).
Defined.

Lemma one_polling_timer_witness :
  running
    (snd (enableMouseOver 0
            (foldl (fun st f => enableMouseOver f st)
               (Stage.new (Some plainCanvas), overInit, mkTimers [] 1)
               [20%Q; 100%Q])))
  = [].
Proof.
  exact (proj1 (proj2 (one_polling_timer [20%Q; 100%Q] (Some plainCanvas) 0)
                  eq_refl)).
Defined.

End StageMoreExamples.

Section FilterMoreExamples.
Import ColorMatrixFilter Scenario.

Lemma applyMatrix_pixelwise_witness :
  applyMatrix redder (flatten [(1, 2, 3, 4); (5, 6, 7, 8)])
    !! (4 * 1 + 0)%nat
  = transform redder (5, 6, 7, 8) !! 0%nat.
Proof.
  assert (Hj : (0 < 4)%nat) by lia.
  exact (proj2 (applyMatrix_pixelwise redder []
                  [(1, 2, 3, 4); (5, 6, 7, 8)] 1 (5, 6, 7, 8) 0)
           eq_refl Hj).
Defined.

End FilterMoreExamples.

Section DisplayTextExamples.
Import DisplayText Scenario.

Lemma splitLines_breaks_witness : splitLines (lit "ab cd") = [lit "ab cd"].
Proof.
  assert (H : Forall (fun c => isBreak c = false) (lit "ab cd"))
    by (repeat constructor).
  exact (proj2 (proj2 (splitLines_breaks (lit "ab cd"))) H).
Defined.

Lemma draw_rows_witness :
  exists strs,
    texts (fst (draw noCache twoLines [] false))
    = texts (fst (noCache twoLines [] false))
        ++ zip strs
             (map (row (default (times1_2 (workingMeasureText (lit "M")))
                          (lineHeight twoLines)))
                (seq 0 (length strs)))
    /\ snd (draw noCache twoLines [] false) = true
    /\ (length (splitLines (text_ twoLines)) <= length strs)%nat
    /\ (lineWidth twoLines = None -> strs = splitLines (text_ twoLines)).
Proof.
  exact (draw_rows noCache twoLines [] false eq_refl).
Defined.

Lemma wrapped_rows_fit_witness :
  exists new,
    texts (fst (drawLine narrow 12 ([], 0) (lit "ab cd")))
    = texts [] ++ new
    /\ Forall (fits 40) (map fst new).
Proof.
  exact (wrapped_rows_fit narrow 12 40 [] 0 (lit "ab cd") eq_refl).
Defined.

Lemma toString_short_witness :
  exists shown,
    toString twoLines = lit "[DisplayText (text=" ++ shown ++ lit ")]"
    /\ shown = text_ twoLines.
Proof.
  destruct (toString_short twoLines) as (shown & H1 & _ & _ & H4 & _).
  exists shown. split; [exact H1|]. apply H4. vm_compute. lia.
Defined.

End DisplayTextExamples.
